(** * agent-rig: install-state management and incremental update

    A shallow embedding of the parts of agent-rig that decide whether to
    install, compute the diff against a stored rig record, order plugins by
    their dependencies, guard behavioral-file writes with content hashes,
    patch the tagged environment block of a shell profile and assemble the
    new rig record.

    Sources: src/state.ts, src/schema.ts, src/commands/install.ts,
    src/commands/update.ts, src/adapters/claude-code.ts, src/loader.ts. *)

From Stdlib Require Import List String Ascii Bool Arith Lia Permutation Relations.
Import ListNotations.
Open Scope string_scope.
Open Scope list_scope.

(* ------------------------------------------------------------------ *)
(** ** Data model (src/state.ts, src/schema.ts) *)

Inductive McpType := McpHttp | McpStdio | McpSse.

(** [InstalledMcpServer] of state.ts. *)
Record InstalledMcpServer := {
  ims_name : string;
  ims_type : McpType
}.

(** [InstalledBehavioral] of state.ts. *)
Record InstalledBehavioral := {
  ib_file : string;
  ib_pointerFile : string;
  ib_pointerTag : string
}.

(** [RigState] of state.ts: one record per installed rig. *)
Record RigState := {
  rs_name : string;
  rs_version : string;
  rs_source : string;
  rs_installedAt : string;
  rs_plugins : list string;
  rs_disabledConflicts : list string;
  rs_mcpServers : list InstalledMcpServer;
  rs_behavioral : list InstalledBehavioral;
  rs_marketplaces : list string
}.

(** [PluginEntry] of claude-code.ts ({source, description?, depends?}). *)
Record PluginEntry := {
  pe_source : string;
  pe_description : option string;
  pe_depends : option (list string)
}.

(** [ConflictRef] of schema.ts. *)
Record ConflictRef := {
  cr_source : string;
  cr_reason : option string
}.

(** An MCP server declaration; only its transport type is used by the
    code embedded here (url, command and args are passed to the CLI). *)
Record McpServer := {
  ms_type : McpType;
  ms_description : option string
}.

(** One entry of [rig.behavioral] ({source, dependedOnBy?}). *)
Record BehavioralConfig := {
  bc_source : string;
  bc_dependedOnBy : list string
}.

(** [rig.behavioral]: the "claude-md" and "agents-md" assets. *)
Record Behavioral := {
  claude_md : option BehavioralConfig;
  agents_md : option BehavioralConfig
}.

(** The validated manifest ([AgentRig]).  Optional lists ([rig.plugins?.x ?? []])
    are flattened to lists, absent meaning empty; objects used as records
    ([mcpServers], [environment]) are association lists in
    [Object.entries] order. *)
Record AgentRig := {
  rig_name : string;
  rig_version : string;
  rig_core : option PluginEntry;
  rig_required : list PluginEntry;
  rig_recommended : list PluginEntry;
  rig_infrastructure : list PluginEntry;
  rig_conflicts : list ConflictRef;
  rig_mcpServers : list (string * McpServer);
  rig_environment : list (string * string);
  rig_behavioral : option Behavioral
}.

(** [Set.prototype.has] on a set built from a list of strings. *)
Definition mem (x : string) (l : list string) : bool :=
  existsb (String.eqb x) l.

(** [[...new Set(l)]]: duplicates dropped, first occurrences kept in order. *)
Fixpoint js_set_aux (seen : list string) (l : list string) : list string :=
  match l with
  | [] => []
  | x :: r => if mem x seen then js_set_aux seen r
              else x :: js_set_aux (x :: seen) r
  end.

Definition js_set (l : list string) : list string := js_set_aux [] l.

(* ------------------------------------------------------------------ *)
(** ** Idempotency gate of [installCommand] (install.ts, lines 234-273) *)

Module Gate.

(** Where [installCommand] goes after loading the manifest. *)
Inductive InstallPath :=
  | AlreadyInstalled   (* "is already installed", return *)
  | SuggestUpdate      (* "Use 'agent-rig update' ...", return *)
  | DryRunPlan         (* print the plan and the manifest, return *)
  | ApplyInstall.      (* detect platforms, run the adapters, save state *)

(** [if (existing && !opts.force && !opts.dryRun) { ... }
    if (opts.dryRun) { ... return; } ...] *)
Definition install_gate (existing : option RigState) (version : string)
    (force dryRun : bool) : InstallPath :=
  match existing with
  | Some st =>
      if negb force && negb dryRun then
        if String.eqb (rs_version st) version then AlreadyInstalled
        else SuggestUpdate
      else if dryRun then DryRunPlan else ApplyInstall
  | None => if dryRun then DryRunPlan else ApplyInstall
  end.

(** The externally visible operations of [installCommand] after the gate,
    in the order the code performs them. *)
Inductive InstallEffect :=
  | DetectPlatforms
  | AdapterPhase (phase : string)
  | InstallTools
  | WriteEnvProfile
  | SaveRigState
  | VerifyHealth.

Definition install_effects (p : InstallPath) : list InstallEffect :=
  match p with
  | AlreadyInstalled | SuggestUpdate => []
  | DryRunPlan => [DetectPlatforms]
  | ApplyInstall =>
      [DetectPlatforms; AdapterPhase "checkConflicts";
       AdapterPhase "addMarketplaces"; AdapterPhase "installPlugins";
       AdapterPhase "disableConflicts"; AdapterPhase "installMcpServers";
       AdapterPhase "installBehavioral"; InstallTools; WriteEnvProfile;
       SaveRigState; VerifyHealth]
  end.

End Gate.

(** A stored record with the given version, used by the examples. *)
Definition sample_state (version : string) : RigState :=
  {| rs_name := "demo"; rs_version := version; rs_source := "./demo";
     rs_installedAt := "2026-01-01T00:00:00.000Z"; rs_plugins := [];
     rs_disabledConflicts := []; rs_mcpServers := []; rs_behavioral := [];
     rs_marketplaces := [] |}.

(** A manifest with one core plugin, one conflict and one MCP server. *)
Definition sample_rig (version : string) : AgentRig :=
  {| rig_name := "demo"; rig_version := version;
     rig_core := Some {| pe_source := "core@market"; pe_description := None;
                         pe_depends := None |};
     rig_required := []; rig_recommended := []; rig_infrastructure := [];
     rig_conflicts := [{| cr_source := "old@market"; cr_reason := None |}];
     rig_mcpServers := [("ctx", {| ms_type := McpHttp; ms_description := None |})];
     rig_environment := [("X", "1")];
     rig_behavioral := None |}.

(** The record an install of [sample_rig] leaves when every unit applied. *)
Definition sample_record (version : string) : RigState :=
  {| rs_name := "demo"; rs_version := version; rs_source := "./demo";
     rs_installedAt := "2026-01-01T00:00:00.000Z"; rs_plugins := ["core@market"];
     rs_disabledConflicts := ["old@market"];
     rs_mcpServers := [{| ims_name := "ctx"; ims_type := McpHttp |}];
     rs_behavioral := []; rs_marketplaces := [] |}.

(* ------------------------------------------------------------------ *)
(** ** [computeDiff] (update.ts, lines 39-106) *)

Module Diff.

Record RigDiff := {
  versionChange : option (string * string);
  pluginsAdded : list string;
  pluginsRemoved : list string;
  conflictsAdded : list ConflictRef;
  conflictsRemoved : list string;
  mcpAdded : list string;
  mcpRemoved : list string;
  hasChanges : bool
}.

Definition getAllPluginSources (rig : AgentRig) : list string :=
  (match rig_core rig with Some c => [pe_source c] | None => [] end)
  ++ map pe_source (rig_required rig)
  ++ map pe_source (rig_recommended rig)
  ++ map pe_source (rig_infrastructure rig).

Definition nonempty {A} (l : list A) : bool :=
  match l with [] => false | _ => true end.

Definition computeDiff (state : RigState) (rig : AgentRig) : RigDiff :=
  let versionChange :=
    if negb (String.eqb (rs_version state) (rig_version rig))
    then Some (rs_version state, rig_version rig) else None in
  let newPlugins := js_set (getAllPluginSources rig) in
  let oldPlugins := js_set (rs_plugins state) in
  let pluginsAdded := filter (fun p => negb (mem p oldPlugins)) newPlugins in
  let pluginsRemoved := filter (fun p => negb (mem p newPlugins)) oldPlugins in
  let newConflicts := rig_conflicts rig in
  let newConflictSources := js_set (map cr_source newConflicts) in
  let oldConflictSources := js_set (rs_disabledConflicts state) in
  let conflictsAdded :=
    filter (fun c => negb (mem (cr_source c) oldConflictSources)) newConflicts in
  let conflictsRemoved :=
    filter (fun c => negb (mem c newConflictSources)) oldConflictSources in
  let newMcp := js_set (map fst (rig_mcpServers rig)) in
  let oldMcp := js_set (map ims_name (rs_mcpServers state)) in
  let mcpAdded := filter (fun m => negb (mem m oldMcp)) newMcp in
  let mcpRemoved := filter (fun m => negb (mem m newMcp)) oldMcp in
  let hasChanges :=
    match versionChange with Some _ => true | None => false end
    || nonempty pluginsAdded || nonempty pluginsRemoved
    || nonempty conflictsAdded || nonempty conflictsRemoved
    || nonempty mcpAdded || nonempty mcpRemoved in
  {| versionChange := versionChange;
     pluginsAdded := pluginsAdded;
     pluginsRemoved := pluginsRemoved;
     conflictsAdded := conflictsAdded;
     conflictsRemoved := conflictsRemoved;
     mcpAdded := mcpAdded;
     mcpRemoved := mcpRemoved;
     hasChanges := hasChanges |}.

End Diff.

(* ------------------------------------------------------------------ *)
(** ** [topoSortPlugins] (claude-code.ts, lines 267-291) *)

Module Topo.

Definition deps (p : PluginEntry) : list string :=
  match pe_depends p with Some l => l | None => [] end.

(** [new Map(plugins.map((p) => [p.source, p])).get(s)]: a later entry with
    the same source overwrites an earlier one. *)
Definition bySource (plugins : list PluginEntry) (s : string) : option PluginEntry :=
  find (fun p => String.eqb (pe_source p) s) (rev plugins).

(** The mutable state of the sort: the [visited] set and the [ordered] array. *)
Definition TopoState := (list string * list PluginEntry)%type.

(** [visit(source)].  The recursion of the source terminates because every
    nested call follows the insertion of a new source of the input into
    [visited]; [fuel] bounds that depth and is never exhausted when it exceeds
    the number of input sources not yet visited (see [visit_fuel]). *)
Fixpoint visit (plugins : list PluginEntry) (fuel : nat) (source : string)
    (st : TopoState) : TopoState :=
  match fuel with
  | O => st
  | S f =>
      let '(visited, ordered) := st in
      if mem source visited then st
      else
        let visited := source :: visited in
        match bySource plugins source with
        | None => (visited, ordered)
        | Some plugin =>
            let '(visited, ordered) :=
              fold_left (fun acc dep => visit plugins f dep acc)
                        (deps plugin) (visited, ordered) in
            (visited, ordered ++ [plugin])
        end
  end.

Definition topoSortPlugins (plugins : list PluginEntry) : list PluginEntry :=
  snd (fold_left (fun acc p => visit plugins (S (List.length plugins)) (pe_source p) acc)
                 plugins ([], [])).

(** Vocabulary of the proofs about the sort. *)

Definition srcs (l : list PluginEntry) : list string := map pe_source l.

(** Every source some input entry declares as a dependency. *)
Definition all_deps (plugins : list PluginEntry) : list string := flat_map deps plugins.

(** [a] depends on [b]: the entry the sort looks up for [a] lists [b]. *)
Definition depends_on (plugins : list PluginEntry) (a b : string) : Prop :=
  exists p, bySource plugins a = Some p /\ In b (deps p).

(** The number of input entries whose source is not yet visited: it
    decreases at every nested call of [visit]. *)
Definition unvisited (plugins : list PluginEntry) (visited : list string) : nat :=
  List.length (filter (fun p => negb (mem (pe_source p) visited)) plugins).

(** Each entry of [ordered] comes after the entries the sort looks up for
    its dependencies. *)
Definition deps_before (plugins : list PluginEntry) (ordered : list PluginEntry) : Prop :=
  forall l1 p l2, ordered = l1 ++ p :: l2 ->
  forall d q, In d (deps p) -> bySource plugins d = Some q -> In q l1.

(** What the sort keeps true of its state. *)
Definition topo_inv (plugins : list PluginEntry) (visited : list string)
    (ordered : list PluginEntry) : Prop :=
  (forall e, In e ordered -> In (pe_source e) visited /\ In e plugins) /\
  NoDup (srcs ordered) /\ deps_before plugins ordered.

(** A visited input source is either ordered already or on the stack of
    [visit] calls in progress. *)
Definition stack_inv (plugins : list PluginEntry) (visited : list string)
    (ordered : list PluginEntry) (stack : list string) : Prop :=
  forall s, In s visited -> In s (srcs plugins) -> In s (srcs ordered) \/ In s stack.

(** Sample entries: [c] depends on [b], [b] on [a]. *)
Definition entry (source : string) (ds : list string) : PluginEntry :=
  {| pe_source := source; pe_description := None; pe_depends := Some ds |}.

Definition ent_a : PluginEntry := entry "a@m" [].
Definition ent_b : PluginEntry := entry "b@m" ["a@m"].
Definition ent_c : PluginEntry := entry "c@m" ["b@m"].

End Topo.

(* ------------------------------------------------------------------ *)
(** ** Results and the new rig record (install.ts 386-427, update.ts 247-301) *)

Inductive InstallStatus := Installed | Skipped | Failed | Disabled.

(** [InstallResult] of adapters/types.ts. *)
Record InstallResult := {
  ir_component : string;
  ir_status : InstallStatus;
  ir_message : option string
}.

Definition status_eqb (a b : InstallStatus) : bool :=
  match a, b with
  | Installed, Installed | Skipped, Skipped
  | Failed, Failed | Disabled, Disabled => true
  | _, _ => false
  end.

(** [s.replace(pat, rep)] with a string pattern: the first occurrence only. *)
Fixpoint str_replace_first (pat rep s : string) : string :=
  if String.prefix pat s then
    (rep ++ substring (String.length pat) (String.length s - String.length pat) s)%string
  else
    match s with
    | EmptyString => s
    | String c r => String c (str_replace_first pat rep r)
    end.

(** [s.endsWith(suffix)]. *)
Definition ends_with (suffix s : string) : bool :=
  String.eqb (substring (String.length s - String.length suffix)
                        (String.length suffix) s) suffix
  && Nat.leb (String.length suffix) (String.length s).

Definition mcp_type_of (rig : AgentRig) (name : string) : McpType :=
  match find (fun kv => String.eqb (fst kv) name) (rig_mcpServers rig) with
  | Some (_, server) => ms_type server
  | None => McpHttp
  end.

Definition behavioral_entry (rigName key : string) : InstalledBehavioral :=
  let filename := if String.eqb key "claude-md" then "CLAUDE.md"%string else "AGENTS.md"%string in
  {| ib_file := (".claude/rigs/" ++ rigName ++ "/" ++ filename)%string;
     ib_pointerFile := filename;
     ib_pointerTag := ("<!-- agent-rig:" ++ rigName ++ " -->")%string |}.

Definition has_status (st : InstallStatus) (r : InstallResult) : bool :=
  status_eqb (ir_status r) st.

Module InstallState.

(** The record built at the end of [installCommand] from the results the
    adapters returned, phase by phase. *)
Definition assemble (rig : AgentRig) (sourceArg installedAt : string)
    (pluginResults conflictResults mcpResults behavioralResults
     marketplaceResults : list InstallResult)
    (envProfilePath : option string) : RigState :=
  {| rs_name := rig_name rig;
     rs_version := rig_version rig;
     rs_source := sourceArg;
     rs_installedAt := installedAt;
     rs_plugins :=
       map (fun r => str_replace_first "plugin:" "" (ir_component r))
           (filter (has_status Installed) pluginResults);
     rs_disabledConflicts :=
       map (fun r => str_replace_first "conflict:" "" (ir_component r))
           (filter (has_status Disabled) conflictResults);
     rs_mcpServers :=
       map (fun r => let name := str_replace_first "mcp:" "" (ir_component r) in
                     {| ims_name := name; ims_type := mcp_type_of rig name |})
           (filter (has_status Installed) mcpResults);
     rs_behavioral :=
       map (fun r => behavioral_entry (rig_name rig)
                       (str_replace_first "behavioral:" "" (ir_component r)))
           (filter (fun r => has_status Installed r
                             && negb (ends_with ":deps" (ir_component r)))
                   behavioralResults);
     rs_marketplaces :=
       map (fun r => str_replace_first "marketplace:" "" (ir_component r))
           (filter (has_status Installed) marketplaceResults) |}.

End InstallState.

Module UpdateState.

Definition in_list (x : string) (l : list string) : bool := mem x l.

(** "Build updated state" of [applyDiff]; [allResults] are the results of
    every adapter call made by [applyDiff]. *)
Definition build (diff : Diff.RigDiff) (rig : AgentRig) (state : RigState)
    (allResults : list InstallResult) (installedAt : string) : RigState :=
  let newPlugins :=
    filter (fun p => negb (in_list p (Diff.pluginsRemoved diff))) (rs_plugins state)
    ++ map (fun r => str_replace_first "plugin:" "" (ir_component r))
           (filter (fun r => String.prefix "plugin:" (ir_component r)
                             && has_status Installed r) allResults) in
  let newConflicts :=
    filter (fun c => negb (in_list c (Diff.conflictsRemoved diff)))
           (rs_disabledConflicts state)
    ++ map (fun r => str_replace_first "conflict:" "" (ir_component r))
           (filter (fun r => String.prefix "conflict:" (ir_component r)
                             && has_status Disabled r) allResults) in
  let newMcpServers :=
    filter (fun m => negb (in_list (ims_name m) (Diff.mcpRemoved diff)))
           (rs_mcpServers state)
    ++ map (fun r => let name := str_replace_first "mcp:" "" (ir_component r) in
                     {| ims_name := name; ims_type := mcp_type_of rig name |})
           (filter (fun r => String.prefix "mcp:" (ir_component r)
                             && has_status Installed r) allResults) in
  let newBehavioral :=
    map (fun r => behavioral_entry (rig_name rig)
                    (str_replace_first "behavioral:" "" (ir_component r)))
        (filter (fun r => String.prefix "behavioral:" (ir_component r)
                          && has_status Installed r
                          && negb (ends_with ":deps" (ir_component r)))
                allResults) in
  {| rs_name := rig_name rig;
     rs_version := rig_version rig;
     rs_source := rs_source state;
     rs_installedAt := installedAt;
     rs_plugins := js_set newPlugins;
     rs_disabledConflicts := js_set newConflicts;
     rs_mcpServers := newMcpServers;
     rs_behavioral := match newBehavioral with [] => rs_behavioral state
                                             | _ => newBehavioral end;
     rs_marketplaces := rs_marketplaces state |}.

End UpdateState.

(* ------------------------------------------------------------------ *)
(** ** Tagged environment block of the shell profile (loader.ts, 160-281) *)

Module EnvBlock.

(** File contents as a list of characters (one [ascii] per code unit;
    code units above 255 are not modelled). *)
Definition text := list ascii.

Definition txt (s : string) : text := list_ascii_of_string s.

Definition newline : ascii := ascii_of_nat 10.
Definition dquote : ascii := ascii_of_nat 34.
Definition nl : text := [newline].

Definition is_nl (c : ascii) : bool := Ascii.eqb c newline.

(** The JS [WhiteSpace] and [LineTerminator] code units below 256, removed
    by [trimEnd]: TAB, LF, VT, FF, CR, SPACE and NO-BREAK SPACE. *)
Definition is_ws (c : ascii) : bool :=
  let n := nat_of_ascii c in
  Nat.leb 9 n && Nat.leb n 13 || Nat.eqb n 32 || Nat.eqb n 160.

Fixpoint drop_ws (l : text) : text :=
  match l with
  | c :: r => if is_ws c then drop_ws r else l
  | [] => []
  end.

(** [s.trimEnd()]. *)
Definition trimEnd (s : text) : text := rev (drop_ws (rev s)).

(** [s.replace(/\n{3,}/g, "\n\n")]: every maximal run of three or more
    newlines becomes two; [run] counts the newlines read so far. *)
Fixpoint collapse_aux (run : nat) (s : text) : text :=
  match s with
  | [] => repeat newline (if Nat.leb 3 run then 2 else run)
  | c :: r =>
      if is_nl c then collapse_aux (S run) r
      else repeat newline (if Nat.leb 3 run then 2 else run) ++ c :: collapse_aux 0 r
  end.

Definition collapse_newlines (s : text) : text := collapse_aux 0 s.

Fixpoint prefixb (p s : text) : bool :=
  match p, s with
  | [], _ => true
  | a :: p', b :: s' => Ascii.eqb a b && prefixb p' s'
  | _ :: _, [] => false
  end.

(** [s.includes(p)]. *)
Fixpoint includes (p s : text) : bool :=
  prefixb p s || match s with [] => false | _ :: s' => includes p s' end.

Definition BEGIN_TAG (rigName : string) : text :=
  txt ("# --- agent-rig: " ++ rigName ++ " ---")%string.
Definition END_TAG (rigName : string) : text :=
  txt ("# --- end agent-rig: " ++ rigName ++ " ---")%string.

Inductive ShellName := Bash | Zsh | Fish | Unknown.

Definition shell_eqb (a b : ShellName) : bool :=
  match a, b with
  | Bash, Bash | Zsh, Zsh | Fish, Fish | Unknown, Unknown => true
  | _, _ => false
  end.

(** [lines.join("\n")]. *)
Fixpoint join_lines (l : list text) : text :=
  match l with
  | [] => []
  | [x] => x
  | x :: r => x ++ nl ++ join_lines r
  end.

Definition env_line (shell : ShellName) (kv : string * string) : text :=
  if shell_eqb shell Fish then
    txt ("set -gx " ++ fst kv ++ " ")%string ++ [dquote] ++ txt (snd kv) ++ [dquote]
  else
    txt ("export " ++ fst kv ++ "=")%string ++ [dquote] ++ txt (snd kv) ++ [dquote].

Definition formatEnvBlock (rigName : string) (env : list (string * string))
    (shell : ShellName) : text :=
  join_lines ([BEGIN_TAG rigName] ++ map (env_line shell) env ++ [END_TAG rigName]).

(** The lazy [[\s\S]*?] followed by the literal [e]: the text after the
    first occurrence of [e]. *)
Fixpoint lazy_until (e s : text) : option text :=
  if prefixb e s then Some (skipn (List.length e) s)
  else match s with [] => None | _ :: s' => lazy_until e s' end.

(** A match of [escapeRegExp(begin) + "[\s\S]*?" + escapeRegExp(end)]
    anchored at the start of [s]: the text after the match. *)
Definition match_block (b e s : text) : option text :=
  if prefixb b s then lazy_until e (skipn (List.length b) s) else None.

(** A greedy [\n?] at the end of a pattern. *)
Definition opt_nl (s : text) : text :=
  match s with c :: r => if is_nl c then r else s | [] => [] end.

(** A match of ["\\n?" + begin + "[\s\S]*?" + end + "\\n?"] anchored at the
    start of [s]: the leading [\n?] first takes the newline and gives it
    back on failure. *)
Definition match_block_nl (b e s : text) : option text :=
  let first :=
    match s with
    | c :: r => if is_nl c then match_block b e r else None
    | [] => None
    end in
  match first with
  | Some rest => Some (opt_nl rest)
  | None => option_map opt_nl (match_block b e s)
  end.

(** The leftmost match of an anchored matcher: (text before, matched text,
    text after). *)
Fixpoint search (m : text -> option text) (s : text) : option (text * text * text) :=
  match m s with
  | Some rest => Some ([], firstn (List.length s - List.length rest) s, rest)
  | None =>
      match s with
      | [] => None
      | c :: s' =>
          match search m s' with
          | Some (b, mt, a) => Some (c :: b, mt, a)
          | None => None
          end
      end
  end.

(** GetSubstitution of [String.prototype.replace] for a pattern without
    capture groups: [$$], [$&], [$`] and [$'] are expanded, every other
    [$] is kept. *)
Fixpoint get_substitution (r before matched after : text) : text :=
  match r with
  | c :: ((c2 :: r') as tl) =>
      if Ascii.eqb c "$"%char then
        if Ascii.eqb c2 "$"%char then "$"%char :: get_substitution r' before matched after
        else if Ascii.eqb c2 "&"%char then matched ++ get_substitution r' before matched after
        else if Ascii.eqb c2 "`"%char then before ++ get_substitution r' before matched after
        else if Ascii.eqb c2 "'"%char then after ++ get_substitution r' before matched after
        else c :: get_substitution tl before matched after
      else c :: get_substitution tl before matched after
  | _ => r
  end.

(** [s.replace(regex, replacement)] for a non-global regex. *)
Definition js_replace (m : text -> option text) (replacement s : text) : text :=
  match search m s with
  | Some (b, mt, a) => b ++ get_substitution replacement b mt a ++ a
  | None => s
  end.

(** [writeEnvBlock]: the profile before ([None] if the file does not exist)
    and the content written to it. *)
Definition writeEnvBlock (rigName : string) (env : list (string * string))
    (shell : ShellName) (profile : option text) : text :=
  let block := formatEnvBlock rigName env shell in
  match profile with
  | None => block ++ nl
  | Some content =>
      let b := BEGIN_TAG rigName in
      let e := END_TAG rigName in
      if includes b content then js_replace (match_block b e) block content
      else trimEnd content ++ nl ++ nl ++ block ++ nl
  end.

(** [removeEnvBlock]: the profile after the call and the returned flag. *)
Definition removeEnvBlock (rigName : string) (profile : option text)
    : option text * bool :=
  match profile with
  | None => (None, false)
  | Some content =>
      let b := BEGIN_TAG rigName in
      let e := END_TAG rigName in
      if negb (includes b content) then (profile, false)
      else
        let content := js_replace (match_block_nl b e) nl content in
        (Some (trimEnd (collapse_newlines content) ++ nl), true)
  end.

(** [hasEnvBlock]: the profile before the call ([None] if the file does
    not exist). *)
Definition hasEnvBlock (rigName : string) (profile : option text) : bool :=
  match profile with
  | None => false
  | Some content => includes (BEGIN_TAG rigName) content
  end.

(** The rig name rule of schema.ts: [/^[a-z0-9-]+$/]. *)
Definition kebab_char (c : ascii) : bool :=
  let n := nat_of_ascii c in
  (Nat.leb 97 n && Nat.leb n 122) || (Nat.leb 48 n && Nat.leb n 57) || Nat.eqb n 45.

Definition valid_rig_name (name : string) : bool :=
  negb (String.eqb name "") && forallb kebab_char (txt name).

(** A rendered env line that contains neither marker of the rig and no
    [$] (the replacement pattern character of [String.prototype.replace]). *)
Definition plain_env_line (rigName : string) (shell : ShellName)
    (kv : string * string) : bool :=
  let l := env_line shell kv in
  negb (includes (BEGIN_TAG rigName) l) && negb (includes (END_TAG rigName) l) &&
  negb (existsb (Ascii.eqb "$"%char) l).

(** The number of positions of [s] where [p] starts. *)
Fixpoint occurrences (p s : text) : nat :=
  (if prefixb p s then 1 else 0) +
  match s with [] => 0 | _ :: s' => occurrences p s' end.

(** Exactly one tagged block of the rig: one begin marker, one end marker,
    the begin marker first. *)
Definition one_block (rigName : string) (s : text) : Prop :=
  occurrences (BEGIN_TAG rigName) s = 1 /\ occurrences (END_TAG rigName) s = 1 /\
  (exists x y z, s = x ++ BEGIN_TAG rigName ++ y ++ END_TAG rigName ++ z).

(** No marker of the rig at all. *)
Definition no_block (rigName : string) (s : text) : Prop :=
  occurrences (BEGIN_TAG rigName) s = 0 /\ occurrences (END_TAG rigName) s = 0.

End EnvBlock.

(* ------------------------------------------------------------------ *)
(** ** [installBehavioral] (claude-code.ts, lines 470-606) *)

Module BehavioralInstall.

Import EnvBlock.

(** [path.join(a, b)] for the relative, already normal segments used here
    (rig names are lowercase kebab-case). *)
Definition path_join (a b : string) : string := (a ++ "/" ++ b)%string.

(** The JSON sidecar [install-manifest.json]. *)
Record Sidecar := {
  sc_rig : string;
  sc_version : string;
  sc_installedAt : string;
  sc_files : list string;
  sc_pointers : list (string * string);
  sc_fileHashes : option (list (string * string))
}.

(** What [JSON.parse(readFileSync(manifestPath))] finds. *)
Inductive SidecarFile := SidecarJson (m : Sidecar) | SidecarCorrupt.

(** The part of the file system [installBehavioral] touches: text files and
    the JSON sidecars, by path. *)
Record World := {
  w_files : string -> option text;
  w_sidecars : string -> option SidecarFile
}.

Definition update_file (files : string -> option text) (path : string) (c : text)
    : string -> option text :=
  fun p => if String.eqb p path then Some c else files p.

(** [obj[key]] on an object read by [JSON.parse] (a repeated key keeps its
    last value). *)
Definition assoc_get (k : string) (l : list (string * string)) : option string :=
  option_map snd (find (fun kv => String.eqb (fst kv) k) (rev l)).

(** [obj[key] = v]: an existing key keeps its place. *)
Fixpoint assoc_set (k v : string) (l : list (string * string)) : list (string * string) :=
  match l with
  | [] => [(k, v)]
  | (k', v') :: r => if String.eqb k k' then (k, v) :: r else (k', v') :: assoc_set k v r
  end.

Record Asset := {
  a_key : string;
  a_targetFilename : string;
  a_pointerVerb : string
}.

Definition assets : list Asset :=
  [ {| a_key := "claude-md"; a_targetFilename := "CLAUDE.md";
       a_pointerVerb := "Also read and follow" |};
    {| a_key := "agents-md"; a_targetFilename := "AGENTS.md";
       a_pointerVerb := "Also read" |} ].

Definition config_of (b : Behavioral) (key : string) : option BehavioralConfig :=
  if String.eqb key "claude-md" then claude_md b
  else if String.eqb key "agents-md" then agents_md b else None.

(** The arrays and objects the loop fills. *)
Record Acc := {
  acc_files : string -> option text;
  acc_results : list InstallResult;
  acc_manifestFiles : list string;
  acc_pointers : list (string * string);
  acc_fileHashes : list (string * string)
}.

Definition rigs_dir (rigName : string) : string :=
  path_join (path_join ".claude" "rigs") rigName.

Definition dest_path (rigName : string) (asset : Asset) : string :=
  path_join (rigs_dir rigName) (a_targetFilename asset).

Definition manifest_path (rigName : string) : string :=
  path_join (rigs_dir rigName) "install-manifest.json".

(** The result reported for an asset whose destination was found locally
    modified (lines 542-546). *)
Definition modified_skip (rigName : string) (asset : Asset) : InstallResult :=
  {| ir_component := "behavioral:" ++ a_key asset;
     ir_status := Skipped;
     ir_message := Some ("locally modified — use --force to overwrite ("
                         ++ dest_path rigName asset ++ ")")%string |}.

(** The [files] array of the sidecar at [manifestPath]. *)
Definition load_manifest_files (sidecars : string -> option SidecarFile)
    (manifestPath : string) : list string :=
  match sidecars manifestPath with
  | Some (SidecarJson m) => sc_files m
  | _ => []
  end.

Section WithHash.

(** [sha256(content)] as a hex digest. *)
Variable sha256 : text -> string.

(** The modification check of lines 534-549: [true] when the write is
    refused. *)
Definition locally_modified (manifestHashes : list (string * string))
    (destPath : string) (existing : option text) (newHash : string) : bool :=
  match existing with
  | None => false
  | Some existingContent =>
      let existingHash := sha256 existingContent in
      match assoc_get destPath manifestHashes with
      | Some installedHash =>
          (* [installedHash && ...]: the empty string is falsy *)
          negb (String.eqb installedHash "")
          && negb (String.eqb existingHash installedHash)
          && negb (String.eqb existingHash newHash)
      | None => false
      end
  end.

(** One iteration of [for (const asset of assets)]. *)
Definition asset_step (beh : Behavioral) (rigName rigDir : string)
    (manifestHashes : list (string * string)) (acc : Acc) (asset : Asset) : Acc :=
  match config_of beh (a_key asset) with
  | None => acc
  | Some config =>
      let component := ("behavioral:" ++ a_key asset)%string in
      let sourcePath := path_join rigDir (bc_source config) in
      match acc_files acc sourcePath with
      | None =>
          {| acc_files := acc_files acc;
             acc_results := acc_results acc ++
               [{| ir_component := component; ir_status := Failed;
                   ir_message := Some ("Source not found: " ++ bc_source config)%string |}];
             acc_manifestFiles := acc_manifestFiles acc;
             acc_pointers := acc_pointers acc;
             acc_fileHashes := acc_fileHashes acc |}
      | Some content =>
          let newHash := sha256 content in
          let destPath := dest_path rigName asset in
          if locally_modified manifestHashes destPath (acc_files acc destPath) newHash then
            {| acc_files := acc_files acc;
               acc_results := acc_results acc ++
                 [{| ir_component := component; ir_status := Skipped;
                     ir_message := Some ("locally modified — use --force to overwrite ("
                                         ++ destPath ++ ")")%string |}];
               acc_manifestFiles := acc_manifestFiles acc;
               acc_pointers := acc_pointers acc;
               acc_fileHashes := acc_fileHashes acc |}
          else
            let files := update_file (acc_files acc) destPath content in
            let manifestFiles := acc_manifestFiles acc ++ [destPath] in
            let fileHashes := assoc_set destPath newHash (acc_fileHashes acc) in
            let pointerTag := ("<!-- agent-rig:" ++ rigName ++ " -->")%string in
            let pointerLine := (pointerTag ++ " " ++ a_pointerVerb asset ++ ": " ++ destPath)%string in
            let rootFile := a_targetFilename asset in
            let rootContent := match files rootFile with Some c => c | None => [] end in
            let '(files, pointers, results) :=
              if includes (txt pointerTag) rootContent then
                (files, acc_pointers acc,
                 acc_results acc ++
                   [{| ir_component := component; ir_status := Skipped;
                       ir_message := Some "pointer already exists"%string |}])
              else
                (update_file files rootFile (txt pointerLine ++ nl ++ nl ++ rootContent),
                 acc_pointers acc ++ [(rootFile, pointerLine)],
                 acc_results acc ++
                   [{| ir_component := component; ir_status := Installed;
                       ir_message := Some (destPath ++ " + pointer in " ++ rootFile)%string |}]) in
            let results :=
              match bc_dependedOnBy config with
              | [] => results
              | _ :: _ =>
                  results ++
                    [{| ir_component := (component ++ ":deps")%string;
                        ir_status := Installed;
                        ir_message := Some "depended on by"%string |}]
              end in
            {| acc_files := files;
               acc_results := results;
               acc_manifestFiles := manifestFiles;
               acc_pointers := pointers;
               acc_fileHashes := fileHashes |}
      end
  end.

(** The hashes read back from the sidecar at the start of the call. *)
Definition load_manifest_hashes (sidecars : string -> option SidecarFile)
    (manifestPath : string) : list (string * string) :=
  match sidecars manifestPath with
  | Some (SidecarJson m) => match sc_fileHashes m with Some h => h | None => [] end
  | _ => []
  end.

(** [installBehavioral(rig, rigDir)]: the world after the call and the
    results. *)
Definition installBehavioral (rig : AgentRig) (rigDir now : string) (w : World)
    : World * list InstallResult :=
  match rig_behavioral rig with
  | None => (w, [])
  | Some beh =>
      let rigName := rig_name rig in
      let manifestPath := manifest_path rigName in
      let manifestHashes := load_manifest_hashes (w_sidecars w) manifestPath in
      let init := {| acc_files := w_files w; acc_results := [];
                     acc_manifestFiles := []; acc_pointers := [];
                     acc_fileHashes := [] |} in
      let acc := fold_left (asset_step beh rigName rigDir manifestHashes) assets init in
      let sidecar := {| sc_rig := rigName; sc_version := rig_version rig;
                        sc_installedAt := now; sc_files := acc_manifestFiles acc;
                        sc_pointers := acc_pointers acc;
                        sc_fileHashes := Some (acc_fileHashes acc) |} in
      ({| w_files := acc_files acc;
          w_sidecars := fun p => if String.eqb p manifestPath then Some (SidecarJson sidecar)
                                 else w_sidecars w p |},
       acc_results acc)
  end.

(** The behavioral phase of [installCommand] (lines 234-357): the force flag
    only reaches the idempotency gate; [installBehavioral] is called with the
    rig and the clone directory. *)
Definition install_behavioral_phase (existing : option RigState) (rig : AgentRig)
    (force dryRun : bool) (dir now : string) (w : World) : World * list InstallResult :=
  match Gate.install_gate existing (rig_version rig) force dryRun with
  | Gate.ApplyInstall =>
      match rig_behavioral rig with
      | Some _ => installBehavioral rig dir now w
      | None => (w, [])
      end
  | _ => (w, [])
  end.

End WithHash.

End BehavioralInstall.

(** Sample inputs for the behavioral install: a digest that keeps the
    content readable, a rig whose CLAUDE.md asset is read from the clone,
    and a project where the user edited the installed copy after a first
    install recorded the hash of "v1". *)
Module BehavioralSample.

Import EnvBlock BehavioralInstall.

Definition demo_sha (t : text) : string := ("h:" ++ string_of_list_ascii t)%string.

Definition demo_asset : Asset :=
  {| a_key := "claude-md"; a_targetFilename := "CLAUDE.md";
     a_pointerVerb := "Also read and follow" |}.

Definition demo_config : BehavioralConfig :=
  {| bc_source := "CLAUDE.md"; bc_dependedOnBy := [] |}.

Definition demo_beh : Behavioral :=
  {| claude_md := Some demo_config; agents_md := None |}.

Definition demo_rig : AgentRig :=
  {| rig_name := "demo"; rig_version := "1.1.0"; rig_core := None;
     rig_required := []; rig_recommended := []; rig_infrastructure := [];
     rig_conflicts := []; rig_mcpServers := []; rig_environment := [];
     rig_behavioral := Some demo_beh |}.

Definition demo_dest : string := dest_path "demo" demo_asset.

Definition demo_hashes : list (string * string) := [(demo_dest, demo_sha (txt "v1"))].

Definition demo_sidecar : Sidecar :=
  {| sc_rig := "demo"; sc_version := "1.0.0"; sc_installedAt := "t0";
     sc_files := [demo_dest]; sc_pointers := [("CLAUDE.md", "p")];
     sc_fileHashes := Some demo_hashes |}.

Definition demo_files : string -> option text :=
  fun p => if String.eqb p "clone/CLAUDE.md" then Some (txt "v2")
           else if String.eqb p demo_dest then Some (txt "mine")
           else None.

Definition demo_world : World :=
  {| w_files := demo_files;
     w_sidecars := fun p => if String.eqb p (manifest_path "demo")
                            then Some (SidecarJson demo_sidecar) else None |}.

Definition demo_acc : Acc :=
  {| acc_files := demo_files; acc_results := []; acc_manifestFiles := [];
     acc_pointers := []; acc_fileHashes := [] |}.

End BehavioralSample.

(** Results of an install where one plugin applied and one failed. *)
Definition sample_results : list InstallResult :=
  [{| ir_component := "plugin:core@market"; ir_status := Installed; ir_message := None |};
   {| ir_component := "plugin:extra@market"; ir_status := Failed;
      ir_message := Some "exit 1" |}].

(* ------------------------------------------------------------------ *)
(** ** [resolveSource] (loader.ts, lines 20-57) *)

(** Strings are Rocq strings of 8-bit characters; the two regular
    expressions of the source are written out as the matchers they are:
    no quantifier of either pattern can give back a character, so each
    capture group is the longest run of its character class. *)
Module Source.

Inductive RigSource :=
  | GitHubSource (owner repo url : string)
  | LocalSource (path : string).

(** The rest of [s] after the literal prefix [p]. *)
Fixpoint strip_prefix (p s : string) : option string :=
  match p, s with
  | EmptyString, _ => Some s
  | String a p', String b s' => if Ascii.eqb a b then strip_prefix p' s' else None
  | String _ _, EmptyString => None
  end.

(** The longest prefix of [s] whose characters satisfy [f], and the rest. *)
Fixpoint span (f : ascii -> bool) (s : string) : string * string :=
  match s with
  | EmptyString => (EmptyString, EmptyString)
  | String c r =>
      if f c then let '(a, b) := span f r in (String c a, b) else (EmptyString, s)
  end.

(** [[^/]] and [[^/.]]. *)
Definition not_slash (c : ascii) : bool := negb (Ascii.eqb c "/"%char).
Definition not_slash_dot (c : ascii) : bool :=
  negb (Ascii.eqb c "/"%char || Ascii.eqb c "."%char).

(** [input.match(/^https?:\/\/github\.com\/([^/]+)\/([^/.]+)/)]: the two
    capture groups. *)
Definition gh_url_match (input : string) : option (string * string) :=
  let after_host :=
    match strip_prefix "https://github.com/" input with
    | Some r => Some r
    | None => strip_prefix "http://github.com/" input
    end in
  match after_host with
  | None => None
  | Some r =>
      let '(owner, r1) := span not_slash r in
      match r1 with
      | EmptyString => None
      | String _ r2 =>
          let '(repo, _) := span not_slash_dot r2 in
          if negb (String.eqb owner "") && negb (String.eqb repo "")
          then Some (owner, repo) else None
      end
  end.

(** [[a-zA-Z0-9_.-]]. *)
Definition short_char (c : ascii) : bool :=
  let n := nat_of_ascii c in
  (Nat.leb 65 n && Nat.leb n 90) || (Nat.leb 97 n && Nat.leb n 122) ||
  (Nat.leb 48 n && Nat.leb n 57) || Nat.eqb n 95 || Nat.eqb n 46 || Nat.eqb n 45.

(** [input.match(/^([a-zA-Z0-9_.-]+)\/([a-zA-Z0-9_.-]+)$/)]. *)
Definition short_match (input : string) : option (string * string) :=
  let '(owner, r1) := span short_char input in
  match r1 with
  | EmptyString => None
  | String c r2 =>
      if Ascii.eqb c "/"%char && negb (String.eqb owner "") && negb (String.eqb r2 "")
         && forallb short_char (list_ascii_of_string r2)
      then Some (owner, r2) else None
  end.

Definition github_url (owner repo : string) : string :=
  ("https://github.com/" ++ owner ++ "/" ++ repo ++ ".git")%string.

Section WithDisk.

(** [existsSync(input)]. *)
Variable existsSync : string -> bool.

Definition resolveSource (input : string) : RigSource :=
  if String.prefix "/" input || String.prefix "./" input || String.prefix "../" input
  then LocalSource input
  else
    match gh_url_match input with
    | Some (owner, repo) => GitHubSource owner repo (github_url owner repo)
    | None =>
        if existsSync input then LocalSource input
        else
          match short_match input with
          | Some (owner, repo) => GitHubSource owner repo (github_url owner repo)
          | None => LocalSource input
          end
    end.

End WithDisk.

End Source.

(* ------------------------------------------------------------------ *)
(** ** [installPlugins] (claude-code.ts, lines 389-414) and the partial rig
    of the plugin phase of [applyDiff] (update.ts, lines 152-179) *)

Module Adapter.

Import EnvBlock.

(** [[...(core ? [core] : []), ...required, ...recommended, ...infrastructure]]. *)
Definition rig_plugins (rig : AgentRig) : list PluginEntry :=
  (match rig_core rig with Some c => [c] | None => [] end)
  ++ rig_required rig ++ rig_recommended rig ++ rig_infrastructure rig.

(** The arguments of [run("claude", ["plugin", "install", source])]. *)
Definition install_args (source : string) : list string := ["plugin"; "install"; source].

Section WithRun.

(** The answer [{ok, output}] of the [claude] CLI to the arguments. *)
Variable run : list string -> bool * string.

Definition plugin_result (plugin : PluginEntry) : InstallResult :=
  let '(ok, output) := run (install_args (pe_source plugin)) in
  {| ir_component := ("plugin:" ++ pe_source plugin)%string;
     ir_status := if ok || includes (txt "already") (txt output) then Installed else Failed;
     ir_message := if ok then pe_description plugin else Some output |}.

(** [installPlugins(rig)]: the CLI calls it makes, in order, and the
    results. *)
Definition installPlugins (rig : AgentRig) : list (list string) * list InstallResult :=
  let ordered := Topo.topoSortPlugins (rig_plugins rig) in
  (map (fun p => install_args (pe_source p)) ordered, map plugin_result ordered).

End WithRun.

(** The [partialRig] of the plugin phase of [applyDiff]: each tier keeps
    the entries whose source is in [diff.pluginsAdded], conflicts are
    cleared. *)
Definition partial_plugins_rig (diff : Diff.RigDiff) (rig : AgentRig) : AgentRig :=
  let added p := mem (pe_source p) (Diff.pluginsAdded diff) in
  {| rig_name := rig_name rig;
     rig_version := rig_version rig;
     rig_core := match rig_core rig with
                 | Some c => if added c then Some c else None
                 | None => None
                 end;
     rig_required := filter added (rig_required rig);
     rig_recommended := filter added (rig_recommended rig);
     rig_infrastructure := filter added (rig_infrastructure rig);
     rig_conflicts := [];
     rig_mcpServers := rig_mcpServers rig;
     rig_environment := rig_environment rig;
     rig_behavioral := rig_behavioral rig |}.

(** The plugin phase of [applyDiff] for the Claude Code adapter: nothing
    when no plugin was added. *)
Definition update_plugin_phase (run : list string -> bool * string)
    (diff : Diff.RigDiff) (rig : AgentRig) : list (list string) * list InstallResult :=
  if Diff.nonempty (Diff.pluginsAdded diff)
  then installPlugins run (partial_plugins_rig diff rig)
  else ([], []).

End Adapter.

(* ------------------------------------------------------------------ *)
(** ** Pointer lines of the root files (claude-code.ts, lines 555-581, and
    uninstall.ts, lines 95-115) *)

Module Pointer.

Import EnvBlock BehavioralInstall.

(** [`<!-- agent-rig:${rigName} -->`]. *)
Definition pointer_tag (rigName : string) : string :=
  ("<!-- agent-rig:" ++ rigName ++ " -->")%string.

(** [`${pointerTag} ${asset.pointerVerb}: ${destPath}`]. *)
Definition pointer_line (rigName : string) (asset : Asset) : string :=
  (pointer_tag rigName ++ " " ++ a_pointerVerb asset ++ ": " ++ dest_path rigName asset)%string.

(** The content of a root file, [""] when it does not exist. *)
Definition root_content (files : string -> option text) (f : string) : text :=
  match files f with Some c => c | None => [] end.

(** [content.split("\n")]. *)
Fixpoint split_nl (s : text) : list text :=
  match s with
  | [] => [[]]
  | c :: r =>
      if is_nl c then [] :: split_nl r
      else match split_nl r with
           | l :: ls => (c :: l) :: ls
           | [] => [[c]]
           end
  end.

(** [s.replace(/^\n+/, "")]. *)
Fixpoint drop_nl (s : text) : text :=
  match s with
  | c :: r => if is_nl c then drop_nl r else s
  | [] => []
  end.

(** The pointer removal of [uninstallCommand] for one behavioral entry:
    the root file after it ([None] if it does not exist). *)
Definition remove_pointer (pointerFile : option text) (pointerTag : string) : option text :=
  match pointerFile with
  | None => None
  | Some content =>
      if includes (txt pointerTag) content then
        let lines := split_nl content in
        let filtered := filter (fun line => negb (includes (txt pointerTag) line)) lines in
        Some (drop_nl (join_lines filtered))
      else Some content
  end.

End Pointer.

(* ------------------------------------------------------------------ *)
(** ** Predicates used by the proofs *)

(** The entries pushed so far by the visits of [topoSortPlugins] have
    distinct sources, and each is the entry the map gives for its source. *)
Definition topo_good (plugins O : list PluginEntry) : Prop :=
  NoDup (Topo.srcs O) /\ forall e, In e O -> Topo.bySource plugins (pe_source e) = Some e.

(** The visited input sources are pushed, or pending on the stack [P] of
    the visits in progress. *)
Definition topo_covered (plugins : list PluginEntry) (P V : list string)
    (O : list PluginEntry) : Prop :=
  forall s, In s V -> In s (Topo.srcs plugins) -> In s (Topo.srcs O) \/ In s P.

(** Every character of [s] satisfies [f]. *)
Definition all_chars (f : ascii -> bool) (s : string) : bool :=
  forallb f (list_ascii_of_string s).

(** The hashes recorded so far by the loop of [installBehavioral] have
    distinct keys, each the destination of an asset holding content of that
    hash. *)
Definition hashes_on_disk (sha256 : EnvBlock.text -> string) (rigName : string)
    (acc : BehavioralInstall.Acc) : Prop :=
  NoDup (map fst (BehavioralInstall.acc_fileHashes acc)) /\
  forall p h, In (p, h) (BehavioralInstall.acc_fileHashes acc) ->
    (exists c, BehavioralInstall.acc_files acc p = Some c /\ sha256 c = h) /\
    exists a, In a BehavioralInstall.assets /\ p = BehavioralInstall.dest_path rigName a.

(* ================================================================== *)
(** * Properties *)

(** ** Sets built from lists *)

Lemma mem_In (x : string) (l : list string) : mem x l = true <-> In x l.
Proof.
  unfold mem. rewrite existsb_exists. split.
  - intros (y & Hy & E). apply String.eqb_eq in E. subst. exact Hy.
  - intros H. exists x. split; [exact H | apply String.eqb_refl].
Qed.

Lemma mem_false_notin (x : string) (l : list string) : mem x l = false <-> ~ In x l.
Proof.
  rewrite <- mem_In. destruct (mem x l); split; congruence.
Qed.

Lemma js_set_aux_In (seen l : list string) (x : string) :
  In x (js_set_aux seen l) <-> In x l /\ ~ In x seen.
Proof.
  revert seen. induction l as [|y r IH]; intros seen; simpl.
  - tauto.
  - destruct (mem y seen) eqn:E.
    + apply mem_In in E. rewrite IH. split.
      * tauto.
      * intros [[<-|H] N]; [contradiction | tauto].
    + apply mem_false_notin in E. simpl. rewrite IH. simpl. split.
      * intros [<-|[H N]]; [tauto|]. split; [tauto|]. tauto.
      * intros [[<-|H] N]; [tauto|].
        destruct (String.eqb_spec y x) as [->|D]; [tauto|].
        right. split; [exact H|]. intros [->|I]; [apply D; reflexivity|tauto].
Qed.

Lemma js_set_In (l : list string) (x : string) : In x (js_set l) <-> In x l.
Proof. unfold js_set. rewrite js_set_aux_In. simpl. tauto. Qed.

Lemma filter_notin_nil (a b : list string) :
  (forall x, In x a -> In x b) ->
  filter (fun p => negb (mem p b)) a = [].
Proof.
  induction a as [|y r IH]; intros H; simpl; [reflexivity|].
  destruct (mem y b) eqn:E.
  - apply IH. intros x I. apply H. now right.
  - apply mem_false_notin in E. exfalso. apply E, H. now left.
Qed.

Lemma filter_notin_nil_by {A} (f : A -> string) (a : list A) (b : list string) :
  (forall x, In x a -> In (f x) b) ->
  filter (fun p => negb (mem (f p) b)) a = [].
Proof.
  induction a as [|y r IH]; intros H; simpl; [reflexivity|].
  destruct (mem (f y) b) eqn:E.
  - apply IH. intros x I. apply H. now right.
  - apply mem_false_notin in E. exfalso. apply E, H. now left.
Qed.

Lemma nonempty_true {A} (l : list A) : Diff.nonempty l = true <-> l <> [].
Proof. destruct l; simpl; split; congruence. Qed.


(** ** C3: the idempotency gate *)

(** C3 (corrected).  When the dry-run flag is unset: no stored record means a
    fresh install, a stored record with --force means a forced install, a
    stored record with the same version stops with "already installed" and
    a stored record with another version stops with the suggestion to run
    [update]; both stops happen before any platform detection, adapter call
    or state write.  With --dry-run set the gate lets every record through to
    the dry-run plan.  The four examples of the spec hold. *)
Theorem install_gate_decides (v : string) :
  Gate.install_gate None v false false = Gate.ApplyInstall /\
  (forall st, Gate.install_gate (Some st) v true false = Gate.ApplyInstall) /\
  (forall st, rs_version st = v ->
     Gate.install_gate (Some st) v false false = Gate.AlreadyInstalled /\
     Gate.install_effects (Gate.install_gate (Some st) v false false) = []) /\
  (forall st, rs_version st <> v ->
     Gate.install_gate (Some st) v false false = Gate.SuggestUpdate /\
     Gate.install_effects (Gate.install_gate (Some st) v false false) = []) /\
  (forall existing force, Gate.install_gate existing v force true = Gate.DryRunPlan) /\
  Gate.install_gate (Some (sample_state "1.0.0")) "1.0.0" false false = Gate.AlreadyInstalled /\
  Gate.install_gate (Some (sample_state "1.0.0")) "1.1.0" false false = Gate.SuggestUpdate /\
  Gate.install_gate None "1.0.0" false false = Gate.ApplyInstall /\
  Gate.install_gate (Some (sample_state "1.0.0")) "1.1.0" true false = Gate.ApplyInstall.
Proof.
  split; [reflexivity|].
  split; [intros st; reflexivity|].
  split; [intros st E; subst v; simpl; rewrite String.eqb_refl; split; reflexivity|].
  split; [intros st N; simpl; apply String.eqb_neq in N; rewrite N; split; reflexivity|].
  split; [intros [st|] force; simpl; [destruct force|]; reflexivity|].
  repeat split; reflexivity.
Qed.

Lemma install_gate_decides_witness :
  rs_version (sample_state "2.0.0") = "2.0.0" /\
  Gate.install_gate (Some (sample_state "2.0.0")) "2.0.0" false false = Gate.AlreadyInstalled.
Proof.
  split; [reflexivity|].
  destruct (install_gate_decides "2.0.0") as (_ & _ & H & _).
  apply (H (sample_state "2.0.0")). reflexivity.
Defined.

(** C3 counterexample: with --dry-run, a stored record of another version
    does not stop with the update suggestion. *)
Lemma install_gate_dry_run_no_suggestion :
  Gate.install_gate (Some (sample_state "1.0.0")) "1.1.0" false true = Gate.DryRunPlan /\
  Gate.install_gate (Some (sample_state "1.0.0")) "1.1.0" false true <> Gate.SuggestUpdate.
Proof. split; [reflexivity | discriminate]. Qed.

(** ** C5: [computeDiff] *)

(** C5.  [hasChanges] is true exactly when the version strings differ or one
    of the six added/removed lists is non-empty; in particular it is false
    when the plugin sources, the conflict sources and the MCP server names
    of the manifest and of the record are the same sets and the versions
    are equal strings. *)
Theorem computeDiff_hasChanges (st : RigState) (rig : AgentRig) :
  (Diff.hasChanges (Diff.computeDiff st rig) = true <->
     Diff.versionChange (Diff.computeDiff st rig) <> None
     \/ Diff.pluginsAdded (Diff.computeDiff st rig) <> []
     \/ Diff.pluginsRemoved (Diff.computeDiff st rig) <> []
     \/ Diff.conflictsAdded (Diff.computeDiff st rig) <> []
     \/ Diff.conflictsRemoved (Diff.computeDiff st rig) <> []
     \/ Diff.mcpAdded (Diff.computeDiff st rig) <> []
     \/ Diff.mcpRemoved (Diff.computeDiff st rig) <> []) /\
  ((forall x, In x (Diff.getAllPluginSources rig) <-> In x (rs_plugins st)) ->
   (forall x, In x (map cr_source (rig_conflicts rig)) <-> In x (rs_disabledConflicts st)) ->
   (forall x, In x (map fst (rig_mcpServers rig)) <-> In x (map ims_name (rs_mcpServers st))) ->
   rs_version st = rig_version rig ->
   Diff.hasChanges (Diff.computeDiff st rig) = false).
Proof.
  split.
  - assert (E : Diff.hasChanges (Diff.computeDiff st rig) =
              match Diff.versionChange (Diff.computeDiff st rig) with
              | Some _ => true | None => false end
              || Diff.nonempty (Diff.pluginsAdded (Diff.computeDiff st rig))
              || Diff.nonempty (Diff.pluginsRemoved (Diff.computeDiff st rig))
              || Diff.nonempty (Diff.conflictsAdded (Diff.computeDiff st rig))
              || Diff.nonempty (Diff.conflictsRemoved (Diff.computeDiff st rig))
              || Diff.nonempty (Diff.mcpAdded (Diff.computeDiff st rig))
              || Diff.nonempty (Diff.mcpRemoved (Diff.computeDiff st rig)))
      by reflexivity.
    rewrite E, !orb_true_iff, !nonempty_true.
    destruct (Diff.versionChange (Diff.computeDiff st rig));
      split; intros H; tauto || (try (left; discriminate)); intuition congruence.
  - intros Hp Hc Hm Hv.
    unfold Diff.computeDiff; cbn [Diff.hasChanges].
    rewrite Hv, String.eqb_refl. simpl negb.
    rewrite (filter_notin_nil_by (fun p => p)), (filter_notin_nil_by (fun p => p)),
      (filter_notin_nil_by cr_source), (filter_notin_nil_by (fun p => p)),
      (filter_notin_nil_by (fun p => p)), (filter_notin_nil_by (fun p => p));
      try reflexivity; intros x I; apply js_set_In; rewrite ?js_set_In in I.
    + apply Hm. exact I.
    + apply Hm. exact I.
    + apply Hc. exact I.
    + apply Hc. apply in_map. exact I.
    + apply Hp. exact I.
    + apply Hp. exact I.
Qed.

Lemma computeDiff_hasChanges_witness :
  Diff.hasChanges (Diff.computeDiff (sample_record "1.0.0") (sample_rig "1.0.0")) = false.
Proof.
  apply (proj2 (computeDiff_hasChanges (sample_record "1.0.0") (sample_rig "1.0.0")));
    simpl; try tauto; reflexivity.
Defined.

(** ** C2: the new rig record comes from the results *)

Lemma in_map_filter {A B} (f : A -> B) (p : A -> bool) (l : list A) (y : B) :
  In y (map f (filter p l)) -> exists x, In x l /\ p x = true /\ y = f x.
Proof.
  rewrite in_map_iff. intros (x & <- & I). apply filter_In in I.
  exists x. tauto.
Qed.

Ltac status_of H :=
  unfold has_status in H; destruct (ir_status _) eqn:?; simpl in H;
  try discriminate; auto.

(** C2.  Every plugin, disabled conflict, MCP server and behavioral entry of
    the record [installCommand] saves is read off an adapter result with
    status installed (disabled for conflicts) of that run; every entry of
    the record [applyDiff] builds is either read off such a result of the
    update or was in the stored record and not removed by the diff (for
    behavioral entries: the stored list, kept whole when the update installed
    none). *)
Theorem new_record_from_results :
  (forall rig sourceArg at0 pr cr mr br mkr env,
     let s := InstallState.assemble rig sourceArg at0 pr cr mr br mkr env in
     (forall p, In p (rs_plugins s) ->
        exists r, In r pr /\ ir_status r = Installed /\
                  p = str_replace_first "plugin:" "" (ir_component r)) /\
     (forall c, In c (rs_disabledConflicts s) ->
        exists r, In r cr /\ ir_status r = Disabled /\
                  c = str_replace_first "conflict:" "" (ir_component r)) /\
     (forall m, In m (rs_mcpServers s) ->
        exists r, In r mr /\ ir_status r = Installed /\
                  ims_name m = str_replace_first "mcp:" "" (ir_component r)) /\
     (forall b, In b (rs_behavioral s) ->
        exists r, In r br /\ ir_status r = Installed /\
                  b = behavioral_entry (rig_name rig)
                        (str_replace_first "behavioral:" "" (ir_component r)))) /\
  (forall diff rig st results at0,
     let s := UpdateState.build diff rig st results at0 in
     (forall p, In p (rs_plugins s) ->
        (exists r, In r results /\ ir_status r = Installed /\
                   p = str_replace_first "plugin:" "" (ir_component r))
        \/ (In p (rs_plugins st) /\ ~ In p (Diff.pluginsRemoved diff))) /\
     (forall c, In c (rs_disabledConflicts s) ->
        (exists r, In r results /\ ir_status r = Disabled /\
                   c = str_replace_first "conflict:" "" (ir_component r))
        \/ (In c (rs_disabledConflicts st) /\ ~ In c (Diff.conflictsRemoved diff))) /\
     (forall m, In m (rs_mcpServers s) ->
        (exists r, In r results /\ ir_status r = Installed /\
                   ims_name m = str_replace_first "mcp:" "" (ir_component r))
        \/ (In m (rs_mcpServers st) /\ ~ In (ims_name m) (Diff.mcpRemoved diff))) /\
     (forall b, In b (rs_behavioral s) ->
        (exists r, In r results /\ ir_status r = Installed /\
                   b = behavioral_entry (rig_name rig)
                         (str_replace_first "behavioral:" "" (ir_component r)))
        \/ In b (rs_behavioral st))).
Proof.
  split.
  - intros rig sourceArg at0 pr cr mr br mkr env s; subst s; simpl.
    repeat split.
    + intros p I. apply in_map_filter in I as (r & I & P & ->).
      exists r. split; [exact I | split; [|reflexivity]]. status_of P.
    + intros c I. apply in_map_filter in I as (r & I & P & ->).
      exists r. split; [exact I | split; [|reflexivity]]. status_of P.
    + intros m I. apply in_map_filter in I as (r & I & P & ->).
      exists r. split; [exact I | split; [|reflexivity]]. status_of P.
    + intros b I. apply in_map_filter in I as (r & I & P & ->).
      exists r. split; [exact I | split; [|reflexivity]].
      apply andb_true_iff in P as [P _]. status_of P.
  - intros diff rig st results at0 s; subst s; unfold UpdateState.build; simpl.
    repeat split.
    + intros p I. apply js_set_In, in_app_or in I as [I|I].
      * right. apply filter_In in I as [I N]. apply negb_true_iff in N.
        unfold UpdateState.in_list in N. rewrite mem_false_notin in N. tauto.
      * left. apply in_map_filter in I as (r & I & P & ->).
        apply andb_true_iff in P as [_ P].
        exists r. split; [exact I | split; [|reflexivity]]. status_of P.
    + intros c I. apply js_set_In, in_app_or in I as [I|I].
      * right. apply filter_In in I as [I N]. apply negb_true_iff in N.
        unfold UpdateState.in_list in N. rewrite mem_false_notin in N. tauto.
      * left. apply in_map_filter in I as (r & I & P & ->).
        apply andb_true_iff in P as [_ P].
        exists r. split; [exact I | split; [|reflexivity]]. status_of P.
    + intros m I. apply in_app_or in I as [I|I].
      * right. apply filter_In in I as [I N]. apply negb_true_iff in N.
        unfold UpdateState.in_list in N. rewrite mem_false_notin in N. tauto.
      * left. apply in_map_filter in I as (r & I & P & ->).
        apply andb_true_iff in P as [_ P].
        exists r. split; [exact I | split; [|reflexivity]]. status_of P.
    + intros b I.
      destruct (map _ (filter _ results)) as [|b0 l] eqn:E; [right; exact I|].
      left. rewrite <- E in I. apply in_map_filter in I as (r & I & P & ->).
      apply andb_true_iff in P as [P _]. apply andb_true_iff in P as [_ P].
      exists r. split; [exact I | split; [|reflexivity]]. status_of P.
Qed.

Lemma new_record_from_results_witness :
  rs_plugins (InstallState.assemble (sample_rig "1.0.0") "./demo" "t1" sample_results
                [] [] [] [] None) = ["core@market"] /\
  exists r, In r sample_results /\ ir_status r = Installed /\
            "core@market" = str_replace_first "plugin:" "" (ir_component r).
Proof.
  split; [reflexivity|].
  apply (proj1 (proj1 new_record_from_results (sample_rig "1.0.0") "./demo" "t1"
                  sample_results [] [] [] [] None)).
  vm_compute. left. reflexivity.
Defined.

(** ** C1, C7, C10: the modification gate of [installBehavioral] *)

Section BehavioralProofs.

Import EnvBlock BehavioralInstall.

Lemma assoc_get_In (k h : string) (l : list (string * string)) :
  assoc_get k l = Some h -> In (k, h) l.
Proof.
  unfold assoc_get. destruct (find _ (rev l)) as [[k' h']|] eqn:F; simpl;
    intros E; [|discriminate].
  injection E as <-. apply find_some in F as [I K]. simpl in K.
  apply String.eqb_eq in K. subst k'. apply in_rev. exact I.
Qed.

Lemma locally_modified_iff (sha256 : text -> string) hashes dest existing newHash :
  (forall k h, In (k, h) hashes -> h <> "") ->
  locally_modified sha256 hashes dest existing newHash = true <->
  exists d h, existing = Some d /\ assoc_get dest hashes = Some h /\
              sha256 d <> h /\ sha256 d <> newHash.
Proof.
  intros Hne. unfold locally_modified. destruct existing as [d|].
  - destruct (assoc_get dest hashes) as [h|] eqn:G.
    + rewrite !andb_true_iff, !negb_true_iff, !String.eqb_neq.
      split.
      * intros [[_ A] B]. exists d, h. tauto.
      * intros (d' & h' & E1 & E2 & A & B). injection E1 as <-. injection E2 as <-.
        split; [split|]; [apply (Hne dest h); apply assoc_get_In; exact G | exact A | exact B].
    + split; [discriminate|]. intros (d' & h' & _ & E & _). discriminate.
  - split; [discriminate|]. intros (d' & h' & E & _). discriminate.
Qed.

Lemma root_not_dest (rigName : string) (asset : Asset) :
  In asset assets -> String.eqb (dest_path rigName asset) (a_targetFilename asset) = false.
Proof.
  intros [<-|[<-|[]]]; reflexivity.
Qed.

Lemma asset_step_write_dest (sha256 : text -> string) beh rigName rigDir hashes acc
    asset config content :
  In asset assets ->
  config_of beh (a_key asset) = Some config ->
  acc_files acc (path_join rigDir (bc_source config)) = Some content ->
  locally_modified sha256 hashes (dest_path rigName asset)
    (acc_files acc (dest_path rigName asset)) (sha256 content) = false ->
  acc_files (asset_step sha256 beh rigName rigDir hashes acc asset)
            (dest_path rigName asset) = Some content.
Proof.
  intros Ha Hc Hs E. unfold asset_step. rewrite Hc, Hs, E.
  destruct (includes _ _); destruct (bc_dependedOnBy config); simpl;
    unfold update_file; rewrite ?root_not_dest, ?String.eqb_refl by exact Ha;
    reflexivity.
Qed.

(** C1.  For a behavioral asset whose source file is read (so new content is
    about to be written), the loop body refuses the write and reports a
    skipped result exactly when the destination exists, a hash is recorded
    for it in the sidecar, and the hash of the destination's content differs
    both from the recorded hash and from the hash of the new content; in
    every other case the destination holds the new content afterwards.
    Recorded hashes are digests as the code writes them (non-empty). *)
Theorem asset_step_modification_gate (sha256 : text -> string) beh rigName rigDir
    hashes acc asset config content :
  In asset assets ->
  config_of beh (a_key asset) = Some config ->
  acc_files acc (path_join rigDir (bc_source config)) = Some content ->
  (forall k h, In (k, h) hashes -> h <> "") ->
  let acc' := asset_step sha256 beh rigName rigDir hashes acc asset in
  let dest := dest_path rigName asset in
  ((exists d h, acc_files acc dest = Some d /\ assoc_get dest hashes = Some h /\
                sha256 d <> h /\ sha256 d <> sha256 content) ->
   acc_files acc' = acc_files acc /\
   exists msg, acc_results acc' =
     acc_results acc ++ [{| ir_component := "behavioral:" ++ a_key asset;
                            ir_status := Skipped; ir_message := Some msg |}]) /\
  (~ (exists d h, acc_files acc dest = Some d /\ assoc_get dest hashes = Some h /\
                  sha256 d <> h /\ sha256 d <> sha256 content) ->
   acc_files acc' dest = Some content).
Proof.
  intros Ha Hc Hs Hne acc' dest. subst acc' dest.
  pose proof (locally_modified_iff sha256 hashes (dest_path rigName asset)
                (acc_files acc (dest_path rigName asset)) (sha256 content) Hne) as L.
  split.
  - intros C. apply L in C. unfold asset_step. rewrite Hc, Hs, C. simpl. split; [reflexivity|]. eexists. reflexivity.
  - intros N. apply (asset_step_write_dest sha256 beh rigName rigDir hashes acc asset
                       config content Ha Hc Hs).
    destruct (locally_modified _ _ _ _ _) eqn:E; [|reflexivity].
    exfalso. apply N, L. reflexivity.
Qed.

Lemma asset_step_modification_gate_witness :
  let acc' := asset_step BehavioralSample.demo_sha BehavioralSample.demo_beh "demo" "clone"
                BehavioralSample.demo_hashes BehavioralSample.demo_acc
                BehavioralSample.demo_asset in
  acc_files acc' = acc_files BehavioralSample.demo_acc /\
  exists msg, acc_results acc' =
    [{| ir_component := "behavioral:claude-md"; ir_status := Skipped;
        ir_message := Some msg |}].
Proof.
  refine (proj1 (asset_step_modification_gate BehavioralSample.demo_sha
                   BehavioralSample.demo_beh "demo" "clone" BehavioralSample.demo_hashes
                   BehavioralSample.demo_acc BehavioralSample.demo_asset
                   BehavioralSample.demo_config (txt "v2") _ _ _ _) _).
  - left; reflexivity.
  - reflexivity.
  - reflexivity.
  - intros k h [E|[]]. injection E as _ <-. vm_compute. discriminate.
  - exists (txt "mine"), (BehavioralSample.demo_sha (txt "v1")).
    split; [reflexivity|]. split; [reflexivity|].
    split; vm_compute; discriminate.
Defined.

Lemma string_app_inj_l (p s1 s2 : string) :
  (p ++ s1)%string = (p ++ s2)%string -> s1 = s2.
Proof.
  induction p as [|c p IH]; simpl; [tauto|]. intros E. injection E. exact IH.
Qed.

Lemma dest_path_inj (rigName : string) (a1 a2 : Asset) :
  In a1 assets -> In a2 assets ->
  dest_path rigName a1 = dest_path rigName a2 -> a1 = a2.
Proof.
  unfold dest_path, path_join. intros H1 H2 E.
  apply string_app_inj_l in E.
  destruct H1 as [<-|[<-|[]]]; destruct H2 as [<-|[<-|[]]];
    simpl in E; try reflexivity; discriminate.
Qed.

Lemma keys_assoc_set (k v x : string) (l : list (string * string)) :
  In x (map fst (assoc_set k v l)) <-> x = k \/ In x (map fst l).
Proof.
  induction l as [|[k' v'] r IH]; simpl; [intuition congruence|].
  destruct (String.eqb_spec k k') as [->|D]; simpl; [intuition congruence|].
  rewrite IH. intuition congruence.
Qed.

Lemma assoc_get_keys (k : string) (l : list (string * string)) :
  assoc_get k l <> None <-> In k (map fst l).
Proof.
  unfold assoc_get. split.
  - destruct (find _ (rev l)) as [[k' v']|] eqn:F; simpl; [|congruence].
    intros _. apply find_some in F as [I K]. simpl in K.
    apply String.eqb_eq in K. subst k'. apply in_rev in I.
    apply in_map_iff. exists (k, v'). tauto.
  - intros I. apply in_map_iff in I as ([k' v'] & K & I). simpl in K. subst k'.
    destruct (find _ (rev l)) eqn:F; simpl; [discriminate|].
    apply in_rev in I. eapply find_none in F; [|exact I]. simpl in F.
    rewrite String.eqb_refl in F. discriminate.
Qed.

(** Every iteration appends results about its own asset and either leaves
    the sidecar arrays alone or records the write of its destination. *)
Lemma asset_step_shape (sha256 : text -> string) beh rigName rigDir hashes acc asset :
  let acc' := asset_step sha256 beh rigName rigDir hashes acc asset in
  exists new,
    acc_results acc' = acc_results acc ++ new /\
    (forall r, In r new -> ir_component r = ("behavioral:" ++ a_key asset)%string
                           \/ ir_component r = (("behavioral:" ++ a_key asset) ++ ":deps")%string) /\
    ((acc_manifestFiles acc' = acc_manifestFiles acc /\
      acc_fileHashes acc' = acc_fileHashes acc) \/
     (acc_manifestFiles acc' = acc_manifestFiles acc ++ [dest_path rigName asset] /\
      (exists h, acc_fileHashes acc' = assoc_set (dest_path rigName asset) h (acc_fileHashes acc)) /\
      ~ In (modified_skip rigName asset) new)).
Proof.
  intros acc'. subst acc'. unfold asset_step.
  destruct (config_of beh (a_key asset)) as [config|].
  2:{ exists []. rewrite app_nil_r. split; [reflexivity|]. split; [intros r []|]. left; tauto. }
  destruct (acc_files acc (path_join rigDir (bc_source config))) as [content|].
  2:{ eexists. split; [reflexivity|]. split.
      - intros r [<-|[]]. left. reflexivity.
      - left; tauto. }
  destruct (locally_modified _ _ _ _ _).
  { eexists. split; [reflexivity|]. split.
    - intros r [<-|[]]. left. reflexivity.
    - left; tauto. }
  destruct (includes _ _); destruct (bc_dependedOnBy config); simpl;
    (eexists; split; [rewrite <- ?app_assoc; reflexivity|]);
    (split; [intros r I; simpl in I;
             repeat (destruct I as [<-|I]; [simpl; tauto|]); destruct I|]);
    right; (split; [reflexivity|]); (split; [eexists; reflexivity|]);
    unfold modified_skip; simpl; intros I;
    repeat (destruct I as [I|I]; [injection I; intros; discriminate|]); exact I.
Qed.

Lemma locally_modified_unrecorded (sha256 : text -> string) hashes dest existing newHash :
  assoc_get dest hashes = None ->
  locally_modified sha256 hashes dest existing newHash = false.
Proof.
  intros E. unfold locally_modified. destruct existing; [rewrite E|]; reflexivity.
Qed.

Lemma assets_shape :
  exists A1 A2, assets = [A1; A2] /\ a_key A1 = "claude-md" /\ a_key A2 = "agents-md".
Proof. eexists _, _. split; [reflexivity|]. split; reflexivity. Qed.

(** The keys of [fileHashes] are the entries of [files] all along the loop. *)
Lemma fold_keys_inv (sha256 : text -> string) beh rigName rigDir hashes
    (l : list Asset) (acc : Acc) :
  (forall k, In k (map fst (acc_fileHashes acc)) <-> In k (acc_manifestFiles acc)) ->
  forall k, In k (map fst (acc_fileHashes
                 (fold_left (asset_step sha256 beh rigName rigDir hashes) l acc)))
            <-> In k (acc_manifestFiles
                 (fold_left (asset_step sha256 beh rigName rigDir hashes) l acc)).
Proof.
  revert acc. induction l as [|a l IH]; intros acc H; simpl; [exact H|].
  apply IH. intros k.
  destruct (asset_step_shape sha256 beh rigName rigDir hashes acc a)
    as (new & _ & _ & [[E1 E2]|(E1 & (h & E2) & _)]); rewrite E1, E2; [apply H|].
  rewrite keys_assoc_set, in_app_iff, (H k). simpl. intuition congruence.
Qed.

(** C10.  After a call of [installBehavioral], the [fileHashes] of the
    sidecar has an entry exactly for the files written during that call
    (the sidecar's [files]); an asset reported as locally modified has no
    entry left, so in the next call the modification check finds no
    recorded hash for its destination and the loop body writes the new
    content over the user's file. *)
Theorem installBehavioral_drops_skipped_hash (sha256 : text -> string) rig beh
    rigDir now w :
  rig_behavioral rig = Some beh ->
  let w' := fst (installBehavioral sha256 rig rigDir now w) in
  let res := snd (installBehavioral sha256 rig rigDir now w) in
  let mp := manifest_path (rig_name rig) in
  let hashes' := load_manifest_hashes (w_sidecars w') mp in
  (forall k, assoc_get k hashes' <> None <-> In k (load_manifest_files (w_sidecars w') mp)) /\
  (forall asset, In asset assets -> In (modified_skip (rig_name rig) asset) res ->
     assoc_get (dest_path (rig_name rig) asset) hashes' = None /\
     forall rigDir2 acc config content,
       config_of beh (a_key asset) = Some config ->
       acc_files acc (path_join rigDir2 (bc_source config)) = Some content ->
       acc_files (asset_step sha256 beh (rig_name rig) rigDir2 hashes' acc asset)
                 (dest_path (rig_name rig) asset) = Some content).
Proof.
  intros Hb w' res mp hashes'.
  assert (Hh : hashes' = acc_fileHashes (fold_left (asset_step sha256 beh (rig_name rig) rigDir
                  (load_manifest_hashes (w_sidecars w) mp)) assets
                  {| acc_files := w_files w; acc_results := []; acc_manifestFiles := [];
                     acc_pointers := []; acc_fileHashes := [] |})).
  { subst hashes' w'. unfold installBehavioral, load_manifest_hashes. rewrite Hb. simpl.
    subst mp. rewrite String.eqb_refl. reflexivity. }
  assert (Hf : load_manifest_files (w_sidecars w') mp =
               acc_manifestFiles (fold_left (asset_step sha256 beh (rig_name rig) rigDir
                  (load_manifest_hashes (w_sidecars w) mp)) assets
                  {| acc_files := w_files w; acc_results := []; acc_manifestFiles := [];
                     acc_pointers := []; acc_fileHashes := [] |})).
  { subst w'. unfold installBehavioral, load_manifest_files. rewrite Hb. simpl.
    subst mp. rewrite String.eqb_refl. reflexivity. }
  assert (Hr : res = acc_results (fold_left (asset_step sha256 beh (rig_name rig) rigDir
                  (load_manifest_hashes (w_sidecars w) mp)) assets
                  {| acc_files := w_files w; acc_results := []; acc_manifestFiles := [];
                     acc_pointers := []; acc_fileHashes := [] |})).
  { subst res. unfold installBehavioral. rewrite Hb. reflexivity. }
  rewrite Hf. clear Hf. rewrite Hh. clear Hh. rewrite Hr. clear Hr.
  set (hs := load_manifest_hashes (w_sidecars w) mp). clearbody hs.
  set (init := {| acc_files := w_files w; acc_results := []; acc_manifestFiles := [];
                  acc_pointers := []; acc_fileHashes := [] |}).
  set (step := asset_step sha256 beh (rig_name rig) rigDir hs).
  destruct assets_shape as (A1 & A2 & Ea & K1 & K2).
  assert (I1 : In A1 assets) by (rewrite Ea; left; reflexivity).
  assert (I2 : In A2 assets) by (rewrite Ea; right; left; reflexivity).
  assert (D12 : dest_path (rig_name rig) A1 <> dest_path (rig_name rig) A2).
  { intros E. apply dest_path_inj in E; [|exact I1|exact I2]. subst A2. congruence. }
  assert (Ef : fold_left step assets init = step (step init A1) A2) by (rewrite Ea; reflexivity).
  rewrite Ef. clear Ef.
  set (a1 := step init A1). set (a2 := step a1 A2).
  assert (KI : forall k, In k (map fst (acc_fileHashes a2)) <-> In k (acc_manifestFiles a2)).
  { apply (fold_keys_inv sha256 beh (rig_name rig) rigDir hs [A1; A2] init).
    intros k. simpl. tauto. }
  split.
  { intros k. rewrite assoc_get_keys. apply KI. }
  destruct (asset_step_shape sha256 beh (rig_name rig) rigDir hs init A1)
    as (n1 & R1 & C1 & S1).
  destruct (asset_step_shape sha256 beh (rig_name rig) rigDir hs a1 A2)
    as (n2 & R2 & C2 & S2).
  fold step a1 in R1, S1. fold step a2 in R2, S2.
  intros asset Ha Hskip.
  assert (N : assoc_get (dest_path (rig_name rig) asset) (acc_fileHashes a2) = None).
  { destruct (assoc_get _ _) eqn:G; [exfalso|reflexivity].
    assert (G' : assoc_get (dest_path (rig_name rig) asset) (acc_fileHashes a2) <> None)
      by congruence.
    clear G. apply assoc_get_keys in G'.
    rewrite R2, R1 in Hskip. simpl in Hskip. apply in_app_iff in Hskip.
    rewrite Ea in Ha. destruct Ha as [<-|[<-|[]]].
    - destruct Hskip as [Hs1|Hs2].
      2:{ apply C2 in Hs2. simpl in Hs2. rewrite K1, K2 in Hs2. simpl in Hs2.
          destruct Hs2; discriminate. }
      destruct S1 as [[M1 F1]|(_ & _ & NI)]; [|contradiction].
      destruct S2 as [[M2 F2]|(M2 & (h & F2) & _)];
        rewrite F2, F1 in G'; simpl in G'; [exact G'|].
      destruct G' as [E|[]]. apply D12. symmetry. exact E.
    - destruct Hskip as [Hs1|Hs2].
      { apply C1 in Hs1. simpl in Hs1. rewrite K1, K2 in Hs1. simpl in Hs1.
        destruct Hs1; discriminate. }
      destruct S2 as [[M2 F2]|(_ & _ & NI)]; [|contradiction].
      rewrite F2 in G'.
      destruct S1 as [[M1 F1]|(M1 & (h & F1) & _)];
        rewrite F1 in G'; simpl in G'; [exact G'|].
      destruct G' as [E|[]]. apply D12. exact E. }
  split; [exact N|].
  intros rigDir2 acc config content Hc Hs.
  apply (asset_step_write_dest sha256 beh (rig_name rig) rigDir2 _ acc asset config content
           Ha Hc Hs).
  apply locally_modified_unrecorded. exact N.
Qed.

Lemma installBehavioral_drops_skipped_hash_witness :
  let w1 := fst (installBehavioral BehavioralSample.demo_sha BehavioralSample.demo_rig
                   "clone" "t1" BehavioralSample.demo_world) in
  assoc_get BehavioralSample.demo_dest
    (load_manifest_hashes (w_sidecars w1) (manifest_path "demo")) = None /\
  w_files w1 BehavioralSample.demo_dest = Some (txt "mine") /\
  w_files (fst (installBehavioral BehavioralSample.demo_sha BehavioralSample.demo_rig
                  "clone" "t2" w1)) BehavioralSample.demo_dest = Some (txt "v2").
Proof.
  split; [|split; vm_compute; reflexivity].
  refine (proj1 (proj2 (installBehavioral_drops_skipped_hash BehavioralSample.demo_sha
                          BehavioralSample.demo_rig BehavioralSample.demo_beh "clone" "t1"
                          BehavioralSample.demo_world eq_refl)
                   BehavioralSample.demo_asset _ _)).
  - left; reflexivity.
  - vm_compute. left. reflexivity.
Defined.

(** C7.  With the force flag on an install over an existing record, the
    behavioral phase still runs the modification check: a locally modified
    destination is neither overwritten nor given a new hash.  The sample
    project holds "mine" where the first install wrote "v1" and the rig now
    ships "v2"; after [agent-rig install --force] the file still holds
    "mine", the only result is the "locally modified — use --force to
    overwrite" skip, and the sidecar has no hash for the destination. *)
Theorem force_install_keeps_modified_file :
  let r := install_behavioral_phase BehavioralSample.demo_sha (Some (sample_state "1.0.0"))
             BehavioralSample.demo_rig true false "clone" "t1" BehavioralSample.demo_world in
  Gate.install_gate (Some (sample_state "1.0.0")) "1.1.0" true false = Gate.ApplyInstall /\
  w_files (fst r) BehavioralSample.demo_dest = Some (txt "mine") /\
  snd r = [modified_skip "demo" BehavioralSample.demo_asset] /\
  assoc_get BehavioralSample.demo_dest
    (load_manifest_hashes (w_sidecars (fst r)) (manifest_path "demo")) = None.
Proof.
  vm_compute. split; [reflexivity|]. split; [reflexivity|]. split; reflexivity.
Qed.

End BehavioralProofs.

(** ** C4, C8: [topoSortPlugins] *)

Section TopoBasics.

Import Topo.

Variable plugins : list PluginEntry.

Lemma bySource_In (s : string) (p : PluginEntry) :
  bySource plugins s = Some p -> In p plugins /\ pe_source p = s.
Proof.
  unfold bySource. intros F. apply find_some in F as [I E].
  apply String.eqb_eq in E. split; [apply in_rev; exact I | exact E].
Qed.

Lemma map_inj_In {A B} (f : A -> B) (l : list A) (a b : A) :
  NoDup (map f l) -> In a l -> In b l -> f a = f b -> a = b.
Proof.
  induction l as [|x l IH]; simpl; [tauto|]. intros N Ia Ib E.
  inversion N as [|? ? Nx N']; subst.
  destruct Ia as [<-|Ia]; destruct Ib as [<-|Ib]; try reflexivity.
  - exfalso. apply Nx. rewrite E. apply in_map. exact Ib.
  - exfalso. apply Nx. rewrite <- E. apply in_map. exact Ia.
  - apply IH; assumption.
Qed.

Lemma bySource_unique (p : PluginEntry) :
  NoDup (srcs plugins) -> In p plugins -> bySource plugins (pe_source p) = Some p.
Proof.
  intros N I. unfold bySource.
  destruct (find _ (rev plugins)) as [q|] eqn:F.
  - apply find_some in F as [Iq E]. apply String.eqb_eq in E. apply in_rev in Iq.
    f_equal. apply (map_inj_In pe_source plugins); assumption.
  - eapply find_none in F; [|apply (in_rev plugins); exact I]. simpl in F.
    rewrite String.eqb_refl in F. discriminate.
Qed.

Lemma bySource_input (s : string) :
  NoDup (srcs plugins) -> In s (srcs plugins) -> exists p, bySource plugins s = Some p.
Proof.
  intros N I. unfold srcs in I. apply in_map_iff in I as (p & <- & I).
  exists p. apply bySource_unique; assumption.
Qed.

Lemma filter_length_mono {A} (f g : A -> bool) (l : list A) :
  (forall a, In a l -> f a = true -> g a = true) ->
  List.length (filter f l) <= List.length (filter g l).
Proof.
  induction l as [|a l IH]; simpl; intros H; [lia|].
  specialize (IH (fun b Ib => H b (or_intror Ib))).
  destruct (f a) eqn:Fa; [rewrite (H a (or_introl eq_refl) Fa); simpl; lia|].
  destruct (g a); simpl; lia.
Qed.

Lemma filter_length_strict {A} (f g : A -> bool) (l : list A) (a : A) :
  (forall b, In b l -> f b = true -> g b = true) ->
  In a l -> f a = false -> g a = true ->
  List.length (filter f l) < List.length (filter g l).
Proof.
  induction l as [|b l IH]; simpl; intros H Ia Fa Ga; [contradiction|].
  pose proof (filter_length_mono f g l (fun c Ic => H c (or_intror Ic))) as M.
  destruct Ia as [<-|Ia].
  - rewrite Fa, Ga. simpl. lia.
  - specialize (IH (fun c Ic => H c (or_intror Ic)) Ia Fa Ga).
    destruct (f b) eqn:Fb; [rewrite (H b (or_introl eq_refl) Fb); simpl; lia|].
    destruct (g b); simpl; lia.
Qed.

Lemma unvisited_mono (l : list PluginEntry) (V V' : list string) :
  incl V V' -> unvisited l V' <= unvisited l V.
Proof.
  intros H. unfold unvisited. apply filter_length_mono.
  intros p _. rewrite !negb_true_iff, !mem_false_notin. intros N I. apply N, H, I.
Qed.

Lemma unvisited_add (l : list PluginEntry) (x : string) (V : list string) :
  In x (srcs l) -> ~ In x V -> unvisited l (x :: V) < unvisited l V.
Proof.
  intros I N. unfold srcs in I. apply in_map_iff in I as (a & E & Ia).
  unfold unvisited. apply (filter_length_strict _ _ l a).
  - intros p _. rewrite !negb_true_iff, !mem_false_notin. intros M Ip. apply M. right. exact Ip.
  - exact Ia.
  - rewrite negb_false_iff, mem_In, E. left. reflexivity.
  - rewrite negb_true_iff, mem_false_notin, E. exact N.
Qed.

Lemma unvisited_le (l : list PluginEntry) (V : list string) :
  unvisited l V <= List.length l.
Proof. unfold unvisited. apply filter_length_le. Qed.

(** The facts about one [visit] call that hold whatever the fuel: [ordered]
    only grows at its end, by input entries whose source was not visited
    yet, and the new visited sources are the argument and declared
    dependencies. *)
Lemma fold_basic_gen (f : nat) :
  (forall x V O V' O',
     visit plugins f x (V, O) = (V', O') ->
     (forall e, In e O -> In (pe_source e) V) ->
     (exists E, O' = O ++ E /\ forall e, In e E -> In e plugins /\ ~ In (pe_source e) V) /\
     incl V V' /\
     (forall s, In s V' -> In s V \/ s = x \/ In s (all_deps plugins)) /\
     (forall e, In e O' -> In (pe_source e) V')) ->
  forall l V O V' O',
    incl l (all_deps plugins) ->
    fold_left (fun acc dep => visit plugins f dep acc) l (V, O) = (V', O') ->
    (forall e, In e O -> In (pe_source e) V) ->
    (exists E, O' = O ++ E /\ forall e, In e E -> In e plugins /\ ~ In (pe_source e) V) /\
    incl V V' /\
    (forall s, In s V' -> In s V \/ In s (all_deps plugins)) /\
    (forall e, In e O' -> In (pe_source e) V').
Proof.
  intros IH l. induction l as [|d l IHl]; intros V O V2 O2 Hl Hf Hi; simpl in Hf.
  - injection Hf as <- <-. split; [exists []; rewrite app_nil_r; split; [reflexivity|intros e []]|].
    split; [apply incl_refl|]. split; [tauto|exact Hi].
  - destruct (visit plugins f d (V, O)) as [Va Oa] eqn:Ev.
    destruct (IH d V O Va Oa Ev Hi) as ([E1 [-> HE1]] & Hinc1 & Hb1 & Hi1).
    destruct (IHl Va (O ++ E1) V2 O2 (proj2 (incl_cons_inv Hl)) Hf Hi1)
      as ([E2 [-> HE2]] & Hinc2 & Hb2 & Hi2).
    split.
    { exists (E1 ++ E2). rewrite app_assoc. split; [reflexivity|].
      intros e I. apply in_app_iff in I as [I|I]; [apply HE1; exact I|].
      destruct (HE2 e I) as [P N]. split; [exact P|]. intros Hin. apply N, Hinc1, Hin. }
    split; [apply (incl_tran Hinc1 Hinc2)|]. split; [|exact Hi2].
    intros s I. destruct (Hb2 s I) as [I'|I']; [|right; exact I'].
    destruct (Hb1 s I') as [?|[<-|?]]; [left; assumption| |right; assumption].
    right. apply Hl. left. reflexivity.
Qed.

Lemma visit_basic (f : nat) :
  forall x V O V' O',
    visit plugins f x (V, O) = (V', O') ->
    (forall e, In e O -> In (pe_source e) V) ->
    (exists E, O' = O ++ E /\ forall e, In e E -> In e plugins /\ ~ In (pe_source e) V) /\
    incl V V' /\
    (forall s, In s V' -> In s V \/ s = x \/ In s (all_deps plugins)) /\
    (forall e, In e O' -> In (pe_source e) V').
Proof.
  induction f as [|f IH]; intros x V O V' O' Hv Hi.
  - simpl in Hv. injection Hv as <- <-.
    split; [exists []; rewrite app_nil_r; split; [reflexivity|intros e []]|].
    split; [apply incl_refl|]. split; [tauto|exact Hi].
  - simpl in Hv. destruct (mem x V) eqn:M.
    { injection Hv as <- <-.
      split; [exists []; rewrite app_nil_r; split; [reflexivity|intros e []]|].
      split; [apply incl_refl|]. split; [tauto|exact Hi]. }
    apply mem_false_notin in M.
    destruct (bySource plugins x) as [p|] eqn:B.
    2:{ injection Hv as <- <-.
        split; [exists []; rewrite app_nil_r; split; [reflexivity|intros e []]|].
        split; [apply incl_tl, incl_refl|]. split; [intros s [<-|I]; tauto|].
        intros e I. right. apply Hi, I. }
    apply bySource_In in B as [Ip Sp].
    destruct (fold_left (fun acc dep => visit plugins f dep acc) (deps p) (x :: V, O))
      as [V1 O1] eqn:F.
    injection Hv as <- <-.
    assert (Hd : incl (deps p) (all_deps plugins)).
    { intros d Id. unfold all_deps. apply in_flat_map. exists p. tauto. }
    assert (Hi0 : forall e, In e O -> In (pe_source e) (x :: V)).
    { intros e I. right. apply Hi, I. }
    destruct (fold_basic_gen f IH (deps p) (x :: V) O V1 O1 Hd F Hi0)
      as ([E [-> HE]] & Hinc & Hb & Hi1).
    split.
    { exists (E ++ [p]). rewrite app_assoc. split; [reflexivity|].
      intros e I. apply in_app_iff in I as [I|[<-|[]]].
      - destruct (HE e I) as [P N]. split; [exact P|]. intros Hin. apply N. right. exact Hin.
      - split; [exact Ip|]. rewrite Sp. exact M. }
    split; [intros s Is; apply Hinc; right; exact Is|].
    split.
    { intros s I. destruct (Hb s I) as [[<-|I']|I']; tauto. }
    intros e I. apply in_app_iff in I as [I|[<-|[]]]; [apply Hi1, I|].
    rewrite Sp. apply Hinc. left. reflexivity.
Qed.

Lemma fold_visit_basic (f : nat) :
  forall l V O V' O',
    incl l (all_deps plugins) ->
    fold_left (fun acc dep => visit plugins f dep acc) l (V, O) = (V', O') ->
    (forall e, In e O -> In (pe_source e) V) ->
    (exists E, O' = O ++ E /\ forall e, In e E -> In e plugins /\ ~ In (pe_source e) V) /\
    incl V V' /\
    (forall s, In s V' -> In s V \/ In s (all_deps plugins)) /\
    (forall e, In e O' -> In (pe_source e) V').
Proof. exact (fold_basic_gen f (visit_basic f)). Qed.

(** The outer loop over the input, any fuel. *)
Lemma top_fold_basic (fuel : nat) :
  forall l V O V' O',
    fold_left (fun acc p => visit plugins fuel (pe_source p) acc) l (V, O) = (V', O') ->
    (forall e, In e O -> In (pe_source e) V) ->
    (exists E, O' = O ++ E) /\
    (forall s, In s V' -> In s V \/ In s (srcs l) \/ In s (all_deps plugins)) /\
    (forall e, In e O' -> In (pe_source e) V').
Proof.
  intros l. induction l as [|q l IHl]; intros V O V2 O2 Hf Hi; simpl in Hf.
  - injection Hf as <- <-. split; [exists []; rewrite app_nil_r; reflexivity|]. tauto.
  - destruct (visit plugins fuel (pe_source q) (V, O)) as [Va Oa] eqn:Ev.
    destruct (visit_basic fuel (pe_source q) V O Va Oa Ev Hi)
      as ([E1 [-> _]] & _ & Hb1 & Hi1).
    destruct (IHl Va (O ++ E1) V2 O2 Hf Hi1) as ([E2 ->] & Hb2 & Hi2).
    split; [exists (E1 ++ E2); rewrite app_assoc; reflexivity|]. split; [|exact Hi2].
    intros s I. simpl. destruct (Hb2 s I) as [I'|[I'|I']]; [|tauto|tauto].
    destruct (Hb1 s I') as [?|[<-|?]]; tauto.
Qed.

Lemma visit_incl (f : nat) : forall x V O, incl V (fst (visit plugins f x (V, O))).
Proof.
  induction f as [|f IH]; intros x V O; simpl; [apply incl_refl|].
  destruct (mem x V); [apply incl_refl|].
  destruct (bySource plugins x) as [p|]; [|apply incl_tl, incl_refl].
  assert (G : forall l V1 O1,
             incl V1 (fst (fold_left (fun acc dep => visit plugins f dep acc) l (V1, O1)))).
  { induction l as [|d l IHl]; intros V1 O1; simpl; [apply incl_refl|].
    destruct (visit plugins f d (V1, O1)) as [V2 O2] eqn:E.
    eapply incl_tran; [|apply IHl].
    pose proof (IH d V1 O1) as H. rewrite E in H. exact H. }
  pose proof (G (deps p) (x :: V) O) as H.
  destruct (fold_left (fun acc dep => visit plugins f dep acc) (deps p) (x :: V, O)) as [V1 O1].
  simpl in *. intros s Is. apply H. right. exact Is.
Qed.

(** The fuel is only a device for the termination of [visit]: any two
    amounts larger than the number of unvisited input entries give the
    result of the recursion of the source. *)
Lemma visit_fuel (f : nat) :
  forall g x V O, unvisited plugins V < f -> unvisited plugins V < g ->
  visit plugins f x (V, O) = visit plugins g x (V, O).
Proof.
  induction f as [|f IH]; intros g x V O Hf Hg; [lia|].
  destruct g as [|g]; [lia|]. simpl.
  destruct (mem x V) eqn:M; [reflexivity|]. apply mem_false_notin in M.
  destruct (bySource plugins x) as [p|] eqn:B; [|reflexivity].
  apply bySource_In in B as [Ip Sp].
  assert (Hx : In x (srcs plugins)) by (rewrite <- Sp; apply in_map, Ip).
  pose proof (unvisited_add plugins x V Hx M) as Hlt.
  assert (G : forall l V1 O1, incl (x :: V) V1 ->
             fold_left (fun acc dep => visit plugins f dep acc) l (V1, O1)
             = fold_left (fun acc dep => visit plugins g dep acc) l (V1, O1)).
  { induction l as [|d l IHl]; intros V1 O1 Hinc; simpl; [reflexivity|].
    pose proof (unvisited_mono plugins _ _ Hinc) as Hm.
    rewrite (IH g d V1 O1) by lia.
    pose proof (visit_incl g d V1 O1) as Hv.
    destruct (visit plugins g d (V1, O1)) as [V2 O2]. simpl in Hv.
    apply IHl. exact (incl_tran Hinc Hv). }
  rewrite (G (deps p) (x :: V) O (incl_refl _)). reflexivity.
Qed.

End TopoBasics.

Section TopoStable.

Import Topo.

Lemma nodup_split {A} (l r : list A) (x : A) :
  NoDup (l ++ x :: r) -> ~ In x l /\ ~ In x r.
Proof.
  intros N. apply NoDup_remove_2 in N. rewrite in_app_iff in N. tauto.
Qed.

Lemma not_in_all_deps (ps : list PluginEntry) (s : string) :
  (forall p, In p ps -> ~ In s (deps p)) -> ~ In s (all_deps ps).
Proof.
  intros H I. unfold all_deps in I. apply in_flat_map in I as (p & Ip & Is).
  apply (H p Ip Is).
Qed.

(** Visiting an unvisited input entry without dependencies appends it. *)
Lemma visit_leaf (ps : list PluginEntry) (n : nat) (a : PluginEntry) V O :
  NoDup (srcs ps) -> In a ps -> deps a = [] -> ~ In (pe_source a) V ->
  visit ps (S n) (pe_source a) (V, O) = (pe_source a :: V, O ++ [a]).
Proof.
  intros N Ia Da Na. simpl.
  rewrite (proj2 (mem_false_notin _ _) Na), (bySource_unique ps a N Ia), Da.
  reflexivity.
Qed.

(** C8 does not hold as stated: "a@m" and "b@m" declare no dependencies
    and come in that order, but "c@m", listed first, depends on "b@m", so
    the sort emits "b@m" before "a@m". *)
Lemma topoSort_unstable_counterexample :
  topoSortPlugins [entry "c@m" ["b@m"]; entry "a@m" []; entry "b@m" []]
  = [entry "b@m" []; entry "c@m" ["b@m"]; entry "a@m" []].
Proof. vm_compute. reflexivity. Qed.

(** C8 (amended).  Two input refs that declare no dependencies and on which
    no input ref declares a dependency keep their relative order in the
    output of [topoSortPlugins], when the input sources are pairwise
    distinct. *)
Theorem topoSort_stable_unreferenced (l1 l2 l3 : list PluginEntry) (a b : PluginEntry) :
  NoDup (map pe_source (l1 ++ a :: l2 ++ b :: l3)) ->
  deps a = [] -> deps b = [] ->
  (forall p, In p (l1 ++ a :: l2 ++ b :: l3) ->
     ~ In (pe_source a) (deps p) /\ ~ In (pe_source b) (deps p)) ->
  exists m1 m2 m3, topoSortPlugins (l1 ++ a :: l2 ++ b :: l3) = m1 ++ a :: m2 ++ b :: m3.
Proof.
  intros N Da Db Hr.
  set (ps := l1 ++ a :: l2 ++ b :: l3) in *.
  assert (Nps : NoDup (srcs ps)) by exact N.
  assert (Ia : In a ps) by (subst ps; apply in_app_iff; right; left; reflexivity).
  assert (Ib : In b ps)
    by (subst ps; apply in_app_iff; right; right; apply in_app_iff; right; left; reflexivity).
  assert (NAd : ~ In (pe_source a) (all_deps ps))
    by (apply not_in_all_deps; intros p Ip; apply Hr, Ip).
  assert (NBd : ~ In (pe_source b) (all_deps ps))
    by (apply not_in_all_deps; intros p Ip; apply Hr, Ip).
  subst ps. rewrite map_app in N. simpl in N. rewrite map_app in N.
  destruct (nodup_split _ _ _ N) as [Na1 Na2].
  assert (N' : NoDup ((map pe_source l1 ++ pe_source a :: map pe_source l2)
                      ++ pe_source b :: map pe_source l3))
    by (rewrite <- app_assoc; exact N).
  destruct (nodup_split _ _ _ N') as [Nb1 _].
  set (ps := l1 ++ a :: l2 ++ b :: l3) in *.
  unfold topoSortPlugins.
  set (n := List.length ps).
  set (step := fun acc p => visit ps (S n) (pe_source p) acc).
  assert (E : fold_left step ps ([], [])
              = fold_left step l3 (step (fold_left step l2
                  (step (fold_left step l1 ([], [])) a)) b)).
  { subst ps. rewrite fold_left_app. simpl. rewrite fold_left_app. reflexivity. }
  rewrite E. clear E.
  destruct (fold_left step l1 ([], [])) as [V1 O1] eqn:F1.
  destruct (top_fold_basic ps (S n) l1 [] [] V1 O1 F1 (fun e I => match I with end))
    as (_ & Hb1 & Hi1).
  assert (NaV1 : ~ In (pe_source a) V1).
  { intros I. destruct (Hb1 _ I) as [[]|[I'|I']]; [apply Na1, I' | apply NAd, I']. }
  assert (Va : step (V1, O1) a = (pe_source a :: V1, O1 ++ [a]))
    by (apply visit_leaf; assumption).
  rewrite Va.
  destruct (fold_left step l2 (pe_source a :: V1, O1 ++ [a])) as [V2 O2] eqn:F2.
  assert (Hi1' : forall e, In e (O1 ++ [a]) -> In (pe_source e) (pe_source a :: V1)).
  { intros e I. apply in_app_iff in I as [I|[<-|[]]]; [right; apply Hi1, I|left; reflexivity]. }
  destruct (top_fold_basic ps (S n) l2 _ _ V2 O2 F2 Hi1') as ([E2 ->] & Hb2 & Hi2).
  assert (NbV2 : ~ In (pe_source b) V2).
  { intros I. destruct (Hb2 _ I) as [[I'|I']|[I'|I']].
    - apply Nb1. apply in_app_iff. right. left. exact I'.
    - destruct (Hb1 _ I') as [[]|[I''|I'']]; [|apply NBd, I''].
      apply Nb1. apply in_app_iff. left. exact I''.
    - apply Nb1. apply in_app_iff. right. right. exact I'.
    - apply NBd, I'. }
  assert (Vb : step (V2, (O1 ++ [a]) ++ E2) b = (pe_source b :: V2, ((O1 ++ [a]) ++ E2) ++ [b]))
    by (apply visit_leaf; assumption).
  rewrite Vb.
  destruct (fold_left step l3 _) as [V3 O3] eqn:F3.
  assert (Hi2' : forall e, In e (((O1 ++ [a]) ++ E2) ++ [b]) -> In (pe_source e) (pe_source b :: V2)).
  { intros e I. apply in_app_iff in I as [I|[<-|[]]]; [right; apply Hi2, I|left; reflexivity]. }
  destruct (top_fold_basic ps (S n) l3 _ _ V3 O3 F3 Hi2') as ([E3 ->] & _ & _).
  exists O1, E2, E3. simpl. rewrite <- !app_assoc. reflexivity.
Qed.

(** A witness: in ["a@m"; "c@m" (depends on "x@m"); "b@m"; "x@m"] the
    entries "a@m" and "b@m" stay in order. *)
Lemma topoSort_stable_unreferenced_witness :
  exists m1 m2 m3,
    topoSortPlugins ([] ++ entry "a@m" [] :: [entry "c@m" ["x@m"]] ++
                     entry "b@m" [] :: [entry "x@m" []])
    = m1 ++ entry "a@m" [] :: m2 ++ entry "b@m" [] :: m3.
Proof.
  apply topoSort_stable_unreferenced.
  - vm_compute. repeat constructor; simpl; intros H;
      repeat (destruct H as [H|H]; [discriminate H|]); exact H.
  - reflexivity.
  - reflexivity.
  - intros p Ip. simpl in Ip.
    repeat (destruct Ip as [<-|Ip]; [simpl; split; intros H;
              repeat (destruct H as [H|H]; [discriminate H|]); exact H|]).
    destruct Ip.
Defined.

End TopoStable.

Section TopoOrder.

Import Topo.

Variable plugins : list PluginEntry.
Hypothesis Hnd : NoDup (srcs plugins).
Hypothesis Hacyc : forall s, ~ clos_trans string (depends_on plugins) s s.

Lemma nodup_snoc {A} (l : list A) (x : A) : NoDup l -> ~ In x l -> NoDup (l ++ [x]).
Proof.
  intros N I. pose proof (NoDup_Add (Add_app x l [])) as H.
  rewrite app_nil_r in H. apply H. tauto.
Qed.

Lemma fold_order_gen (f : nat) :
  (forall x stack V O V' O',
     unvisited plugins V < f ->
     visit plugins f x (V, O) = (V', O') ->
     topo_inv plugins V O -> stack_inv plugins V O stack ->
     (forall s, In s stack -> clos_trans string (depends_on plugins) s x) ->
     topo_inv plugins V' O' /\ stack_inv plugins V' O' stack /\ In x V' /\ incl V V') ->
  forall x stack l V O V' O',
    (forall d, In d l -> depends_on plugins x d) ->
    unvisited plugins V < f ->
    fold_left (fun acc dep => visit plugins f dep acc) l (V, O) = (V', O') ->
    topo_inv plugins V O -> stack_inv plugins V O (x :: stack) ->
    (forall s, In s stack -> clos_trans string (depends_on plugins) s x) ->
    topo_inv plugins V' O' /\ stack_inv plugins V' O' (x :: stack) /\
    (forall d, In d l -> In d V') /\ incl V V'.
Proof.
  intros IH x stack l. induction l as [|d l IHl]; intros V O V' O' Hd Hu Hf Hi Hs Hr;
    simpl in Hf.
  - injection Hf as <- <-. split; [exact Hi|]. split; [exact Hs|].
    split; [intros d []|apply incl_refl].
  - destruct (visit plugins f d (V, O)) as [Va Oa] eqn:Ev.
    assert (Hr' : forall s, In s (x :: stack) -> clos_trans string (depends_on plugins) s d).
    { intros s [<-|Is].
      - apply t_step. apply Hd. left. reflexivity.
      - apply t_trans with x; [apply Hr, Is|]. apply t_step, Hd. left. reflexivity. }
    destruct (IH d (x :: stack) V O Va Oa Hu Ev Hi Hs Hr') as (Hia & Hsa & Ida & Inca).
    assert (Hua : unvisited plugins Va < f)
      by (pose proof (unvisited_mono plugins V Va Inca); lia).
    destruct (IHl Va Oa V' O' (fun d' Id' => Hd d' (or_intror Id')) Hua Hf Hia Hsa Hr)
      as (Hi' & Hs' & Id' & Inc').
    split; [exact Hi'|]. split; [exact Hs'|]. split; [|exact (incl_tran Inca Inc')].
    intros d' [<-|I]; [apply Inc', Ida|apply Id', I].
Qed.

Lemma visit_order (f : nat) :
  forall x stack V O V' O',
    unvisited plugins V < f ->
    visit plugins f x (V, O) = (V', O') ->
    topo_inv plugins V O -> stack_inv plugins V O stack ->
    (forall s, In s stack -> clos_trans string (depends_on plugins) s x) ->
    topo_inv plugins V' O' /\ stack_inv plugins V' O' stack /\ In x V' /\ incl V V'.
Proof.
  induction f as [|f IH]; intros x stack V O V' O' Hu Hv Hi Hs Hr; [lia|].
  simpl in Hv. destruct (mem x V) eqn:M.
  { injection Hv as <- <-. apply mem_In in M. split; [exact Hi|]. split; [exact Hs|].
    split; [exact M|apply incl_refl]. }
  apply mem_false_notin in M.
  destruct Hi as (He & Hn & Hb).
  destruct (bySource plugins x) as [p|] eqn:B.
  2:{ injection Hv as <- <-.
      split; [split; [intros e I; split; [right; apply He, I|apply He, I]|tauto]|].
      split; [|split; [left; reflexivity|apply incl_tl, incl_refl]].
      intros s [Es|Is] Ip; [subst s|apply Hs; assumption].
      destruct (bySource_input plugins x Hnd Ip) as [q Bq]. congruence. }
  pose proof B as B'. apply bySource_In in B' as [Ip Sp].
  destruct (fold_left (fun acc dep => visit plugins f dep acc) (deps p) (x :: V, O))
    as [V1 O1] eqn:F.
  injection Hv as <- <-.
  assert (Hx : In x (srcs plugins)) by (rewrite <- Sp; apply in_map, Ip).
  assert (Hu' : unvisited plugins (x :: V) < f)
    by (pose proof (unvisited_add plugins x V Hx M); lia).
  assert (Hi0 : topo_inv plugins (x :: V) O).
  { split; [intros e I; split; [right; apply He, I|apply He, I]|tauto]. }
  assert (Hs0 : stack_inv plugins (x :: V) O (x :: stack)).
  { intros s [<-|Is] Is'; [right; left; reflexivity|].
    destruct (Hs s Is Is') as [?|?]; [left|right; right]; assumption. }
  destruct (fold_order_gen f IH x stack (deps p) (x :: V) O V1 O1
              (fun d Id => ex_intro _ p (conj B Id)) Hu' F Hi0 Hs0 Hr)
    as ((He1 & Hn1 & Hb1) & Hs1 & Hd1 & Inc1).
  assert (Hdeps : incl (deps p) (all_deps plugins)).
  { intros d Id. unfold all_deps. apply in_flat_map. exists p. tauto. }
  destruct (fold_visit_basic plugins f (deps p) (x :: V) O V1 O1 Hdeps F
              (fun e I => or_intror (proj1 (He e I)))) as ([E [EO HE]] & _).
  assert (Nx : ~ In x (srcs O1)).
  { rewrite EO. unfold srcs. rewrite map_app. intros I. apply in_app_iff in I as [I|I];
      apply in_map_iff in I as (e & Ee & I).
    - apply M. rewrite <- Ee. apply He, I.
    - apply (proj2 (HE e I)). rewrite Ee. left. reflexivity. }
  assert (Hq : forall d q, In d (deps p) -> bySource plugins d = Some q -> In q O1).
  { intros d q Id Bq. apply bySource_In in Bq as [Iq Sq].
    assert (Id' : In d (srcs plugins)) by (rewrite <- Sq; apply in_map, Iq).
    destruct (Hs1 d (Hd1 d Id) Id') as [I|I].
    - unfold srcs in I. apply in_map_iff in I as (e & Ee & Ie).
      assert (e = q) as <-; [|exact Ie].
      apply (map_inj_In pe_source plugins); [exact Hnd|apply He1, Ie|exact Iq|congruence].
    - exfalso. assert (Exd : depends_on plugins x d) by (exists p; tauto).
      destruct I as [<-|I].
      + apply (Hacyc x). apply t_step. exact Exd.
      + apply (Hacyc d). apply t_trans with x; [apply Hr, I|apply t_step, Exd]. }
  split; [split; [|split]|].
  - intros e I. apply in_app_iff in I as [I|[<-|[]]]; [apply He1, I|].
    split; [rewrite Sp; apply Inc1; left; reflexivity|exact Ip].
  - unfold srcs. rewrite map_app. simpl. apply nodup_snoc; [exact Hn1|].
    rewrite Sp. exact Nx.
  - intros l1 q l2 EQ d r Id Br.
    destruct l2 as [|z l2'] using rev_ind.
    + apply app_inj_tail in EQ as [<- <-]. apply (Hq d r Id Br).
    + rewrite app_comm_cons, app_assoc in EQ. apply app_inj_tail in EQ as [EQ _].
      apply (Hb1 l1 q l2' EQ d r Id Br).
  - split; [|split; [apply Inc1; left; reflexivity|intros s Is; apply Inc1; right; exact Is]].
    intros s Is Is'. destruct (Hs1 s Is Is') as [I|[<-|I]].
    + left. unfold srcs. rewrite map_app. apply in_app_iff. left. exact I.
    + left. unfold srcs. rewrite map_app. apply in_app_iff. right. left. exact Sp.
    + right. exact I.
Qed.

Lemma top_order :
  forall l V O V' O',
    fold_left (fun acc p => visit plugins (S (List.length plugins)) (pe_source p) acc)
      l (V, O) = (V', O') ->
    topo_inv plugins V O -> stack_inv plugins V O [] ->
    topo_inv plugins V' O' /\ stack_inv plugins V' O' [] /\
    (forall p, In p l -> In (pe_source p) V') /\ incl V V'.
Proof.
  intros l. induction l as [|q l IHl]; intros V O V' O' Hf Hi Hs; cbn [fold_left] in Hf.
  - injection Hf as <- <-. split; [exact Hi|]. split; [exact Hs|].
    split; [intros p []|apply incl_refl].
  - destruct (visit plugins (S (List.length plugins)) (pe_source q) (V, O)) as [Va Oa] eqn:Ev.
    assert (Hu : unvisited plugins V < S (List.length plugins))
      by (pose proof (unvisited_le plugins V); lia).
    destruct (visit_order _ (pe_source q) [] V O Va Oa Hu Ev Hi Hs (fun s I => match I with end))
      as (Hia & Hsa & Iq & Inca).
    destruct (IHl Va Oa V' O' Hf Hia Hsa) as (Hi' & Hs' & Hl' & Inc').
    split; [exact Hi'|]. split; [exact Hs'|].
    split; [|exact (incl_tran Inca Inc')].
    intros p [<-|Ip]; [apply Inc', Iq|apply Hl', Ip].
Qed.

End TopoOrder.

Section TopoClaims.

Import Topo.

Lemma acyclic_of_rank (ps : list PluginEntry) (rank : string -> nat) :
  (forall a b, depends_on ps a b -> rank b < rank a) ->
  forall s, ~ clos_trans string (depends_on ps) s s.
Proof.
  intros H s C.
  assert (G : forall a b, clos_trans string (depends_on ps) a b -> rank b < rank a).
  { intros a b T. induction T as [a b E|a b c _ IH1 _ IH2]; [apply H, E|lia]. }
  apply G in C. lia.
Qed.

(** C4 does not hold as stated: two refs share the source "r@m"; the sort
    keeps only the last one, so the first ref, which declares the
    dependency "d@m", is missing from the output. *)
Lemma topoSort_duplicate_source_counterexample :
  topoSortPlugins [entry "r@m" ["d@m"]; entry "d@m" []; entry "r@m" []]
  = [entry "r@m" []; entry "d@m" []].
Proof. vm_compute. reflexivity. Qed.

(** C4 (amended).  When the input refs have pairwise distinct sources and
    the dependency graph between input sources is acyclic, the output of
    [topoSortPlugins] is a permutation of the input (every input ref appears
    exactly once), and every input ref [d] that an input ref [r] declares as
    a dependency comes before [r]. *)
Theorem topoSort_deps_first_distinct (plugins : list PluginEntry) :
  NoDup (map pe_source plugins) ->
  (forall s, ~ clos_trans string (depends_on plugins) s s) ->
  Permutation (topoSortPlugins plugins) plugins /\
  (forall r d, In r plugins -> In d plugins -> In (pe_source d) (deps r) ->
     exists l1 l2, topoSortPlugins plugins = l1 ++ d :: l2 /\ In r l2).
Proof.
  intros Hnd Hac. unfold topoSortPlugins.
  destruct (fold_left (fun acc p => visit plugins (S (List.length plugins)) (pe_source p) acc)
              plugins ([], [])) as [V O] eqn:F.
  simpl.
  assert (Hi0 : topo_inv plugins [] []).
  { split; [intros e []|]. split; [constructor|].
    intros l1 p l2 E. destruct l1; discriminate. }
  destruct (top_order plugins Hnd Hac plugins [] [] V O F Hi0 (fun s I => match I with end))
    as ((He & Hn & Hb) & Hs & Hl & _).
  assert (HO : forall p, In p plugins -> In p O).
  { intros p Ip.
    destruct (Hs (pe_source p) (Hl p Ip) (in_map pe_source plugins p Ip)) as [I|[]].
    unfold srcs in I. apply in_map_iff in I as (e & Ee & Ie).
    assert (e = p) as <-; [|exact Ie].
    apply (map_inj_In pe_source plugins); [exact Hnd|apply He, Ie|exact Ip|exact Ee]. }
  split.
  - apply NoDup_Permutation.
    + apply (NoDup_map_inv pe_source). exact Hn.
    + apply (NoDup_map_inv pe_source). exact Hnd.
    + intros p. split; [intros I; apply He, I|apply HO].
  - intros r d Ir Id Hrd.
    destruct (in_split r O (HO r Ir)) as (l1 & l2 & EO).
    pose proof (Hb l1 r l2 EO (pe_source d) d Hrd (bySource_unique plugins d Hnd Id)) as Dl1.
    destruct (in_split d l1 Dl1) as (m1 & m2 & El1).
    exists m1, (m2 ++ r :: l2). rewrite EO, El1, <- app_assoc. split; [reflexivity|].
    apply in_app_iff. right. left. reflexivity.
Qed.

(** A witness: the refs "c@m", "a@m", "b@m", where "c@m" depends on "b@m"
    and "b@m" on "a@m", come out as "a@m", "b@m", "c@m". *)
Lemma topoSort_deps_first_distinct_witness :
  topoSortPlugins [ent_c; ent_a; ent_b] = [ent_a; ent_b; ent_c] /\
  Permutation (topoSortPlugins [ent_c; ent_a; ent_b]) [ent_c; ent_a; ent_b] /\
  exists l1 l2, topoSortPlugins [ent_c; ent_a; ent_b] = l1 ++ ent_b :: l2 /\ In ent_c l2.
Proof.
  split; [vm_compute; reflexivity|].
  assert (Hnd : NoDup (map pe_source [ent_c; ent_a; ent_b])).
  { vm_compute. repeat constructor; simpl; intros H;
      repeat (destruct H as [H|H]; [discriminate H|]); exact H. }
  assert (Hac : forall s, ~ clos_trans string (depends_on [ent_c; ent_a; ent_b]) s s).
  { apply (acyclic_of_rank _ (fun s => if String.eqb s "c@m" then 2
                                       else if String.eqb s "b@m" then 1 else 0)).
    intros a b (p & Bp & Ib). apply bySource_In in Bp as [Ip <-].
    destruct Ip as [<-|[<-|[<-|[]]]]; simpl in Ib; try contradiction;
      destruct Ib as [<-|[]]; vm_compute; lia. }
  destruct (topoSort_deps_first_distinct [ent_c; ent_a; ent_b] Hnd Hac) as [P O].
  split; [exact P|].
  apply O; simpl; tauto.
Defined.

End TopoClaims.

(** ** C6, C9: the tagged env block of loader.ts *)

Section EnvText.

Import EnvBlock.

Lemma txt_app (s1 s2 : string) : txt (s1 ++ s2) = txt s1 ++ txt s2.
Proof. unfold txt. induction s1 as [|a s1 IH]; simpl; congruence. Qed.

Lemma nl_app (s : text) : nl ++ s = newline :: s.
Proof. reflexivity. Qed.

Lemma hash_newline : "#"%char <> newline.
Proof. apply Ascii.eqb_neq. reflexivity. Qed.

Lemma nl_no_dollar : ~ In "$"%char nl.
Proof. intros [H|[]]. revert H. apply Ascii.eqb_neq. reflexivity. Qed.

Lemma not_in_by_eqb (c : ascii) (l : text) : existsb (Ascii.eqb c) l = false -> ~ In c l.
Proof.
  intros H I.
  assert (existsb (Ascii.eqb c) l = true) as H'.
  { apply existsb_exists. exists c. split; [exact I | apply Ascii.eqb_refl]. }
  congruence.
Qed.

Lemma not_in_kebab (c : ascii) (l : text) :
  forallb kebab_char l = true -> kebab_char c = false -> ~ In c l.
Proof. intros H K I. rewrite forallb_forall in H. rewrite (H c I) in K. discriminate. Qed.

(** Both markers of a valid rig name start with [#], and neither [#], a
    newline nor [$] occurs after it. *)
Lemma marker_shape (name : string) (p : text) :
  valid_rig_name name = true -> p = BEGIN_TAG name \/ p = END_TAG name ->
  exists tp, p = "#"%char :: tp /\ ~ In "#"%char tp /\ ~ In newline tp /\ ~ In "$"%char tp.
Proof.
  intros V Hp. unfold valid_rig_name in V. apply andb_prop in V as [_ K].
  assert (T : forall c, kebab_char c = false -> ~ In c (txt name))
    by (intros c Kc; exact (not_in_kebab c _ K Kc)).
  destruct Hp as [-> | ->]; unfold BEGIN_TAG, END_TAG; rewrite !txt_app.
  - exists (txt " --- agent-rig: " ++ txt name ++ txt " ---").
    split; [reflexivity|].
    repeat split; rewrite !in_app_iff; intros [I|[I|I]]; revert I;
      first [apply not_in_by_eqb; reflexivity | apply T; reflexivity].
  - exists (txt " --- end agent-rig: " ++ txt name ++ txt " ---").
    split; [reflexivity|].
    repeat split; rewrite !in_app_iff; intros [I|[I|I]]; revert I;
      first [apply not_in_by_eqb; reflexivity | apply T; reflexivity].
Qed.

Lemma begin_not_end (name : string) (R : text) :
  prefixb (BEGIN_TAG name) (END_TAG name ++ R) = false.
Proof. reflexivity. Qed.

Lemma end_not_begin (name : string) (R : text) :
  prefixb (END_TAG name) (BEGIN_TAG name ++ R) = false.
Proof. reflexivity. Qed.

(** *** Prefixes and occurrences *)

Lemma prefixb_app_l (p u v : text) : prefixb p u = true -> prefixb p (u ++ v) = true.
Proof.
  revert u. induction p as [|a p IH]; intros [|c u] H; simpl in *; try discriminate; auto.
  apply andb_prop in H as [H1 H2]. rewrite H1. simpl. apply IH. exact H2.
Qed.

Lemma prefixb_self (p z : text) : prefixb p (p ++ z) = true.
Proof. induction p as [|a p IH]; simpl; [reflexivity|]. rewrite Ascii.eqb_refl, IH. reflexivity. Qed.

Lemma prefixb_cut (q u v : text) (c : ascii) :
  ~ In c q -> prefixb q (u ++ c :: v) = prefixb q u.
Proof.
  revert u. induction q as [|a q IH]; intros u Hc; [destruct u; reflexivity|].
  destruct u as [|d u]; simpl.
  - destruct (Ascii.eqb_spec a c) as [->|_]; [exfalso; apply Hc; left; reflexivity | reflexivity].
  - rewrite IH; [reflexivity|]. intros I; apply Hc; right; exact I.
Qed.

(** A marker cannot start before a junction character that does not occur
    in its tail and end after it. *)
Lemma prefixb_junction (p w v : text) (c : ascii) :
  ~ In c (tl p) -> w <> [] -> prefixb p (w ++ c :: v) = prefixb p w.
Proof.
  intros Hc Hw. destruct p as [|a p]; [reflexivity|]. destruct w as [|d w]; [congruence|].
  simpl. rewrite prefixb_cut by exact Hc. reflexivity.
Qed.

Lemma occurrences_cons (p : text) (c : ascii) (s : text) :
  occurrences p (c :: s) = (if prefixb p (c :: s) then 1 else 0) + occurrences p s.
Proof. reflexivity. Qed.

Lemma occurrences_cons_skip (a c : ascii) (p s : text) :
  a <> c -> occurrences (a :: p) (c :: s) = occurrences (a :: p) s.
Proof.
  intros H. rewrite occurrences_cons. cbn [prefixb].
  destruct (Ascii.eqb_spec a c); [contradiction | reflexivity].
Qed.

Lemma occurrences_split (p A B : text) (c : ascii) :
  p <> [] -> ~ In c (tl p) ->
  occurrences p (A ++ c :: B) = occurrences p A + occurrences p (c :: B).
Proof.
  intros Hp Hc. induction A as [|d A IH].
  - destruct p; [congruence|]. reflexivity.
  - rewrite <- app_comm_cons, (occurrences_cons p d (A ++ c :: B)), (occurrences_cons p d A), IH.
    pose proof (prefixb_junction p (d :: A) B c Hc ltac:(discriminate)) as J.
    cbn [app] in J. rewrite J. lia.
Qed.

Lemma occurrences_skip (a : ascii) (p u z : text) :
  ~ In a u -> occurrences (a :: p) (u ++ z) = occurrences (a :: p) z.
Proof.
  induction u as [|d u IH]; intros Ha; [reflexivity|].
  rewrite <- app_comm_cons, occurrences_cons_skip, IH; [reflexivity| |].
  - intros I; apply Ha; right; exact I.
  - intros ->; apply Ha; left; reflexivity.
Qed.

Lemma occurrences_free (a : ascii) (p u : text) : ~ In a u -> occurrences (a :: p) u = 0.
Proof. intros H. rewrite <- (app_nil_r u). rewrite occurrences_skip by exact H. reflexivity. Qed.

Lemma occurrences_app_nl (tp t s : text) :
  ~ In newline tp ->
  occurrences ("#"%char :: tp) (t ++ nl ++ s) =
  occurrences ("#"%char :: tp) t + occurrences ("#"%char :: tp) s.
Proof.
  intros H. rewrite nl_app, occurrences_split by (discriminate || exact H).
  rewrite occurrences_cons_skip by exact hash_newline. reflexivity.
Qed.

Lemma occurrences_prefix_le (p u w : text) : occurrences p u <= occurrences p (u ++ w).
Proof.
  induction u as [|c u IH].
  - destruct p as [|a p]; [destruct w; simpl; lia | simpl; lia].
  - rewrite <- app_comm_cons, !occurrences_cons.
    destruct (prefixb p (c :: u)) eqn:E.
    + pose proof (prefixb_app_l _ _ w E) as E'. cbn [app] in E'. rewrite E'. lia.
    + destruct (prefixb p (c :: u ++ w)); lia.
Qed.

Lemma occurrences_suffix_le (p y w : text) : occurrences p w <= occurrences p (y ++ w).
Proof.
  induction y as [|c y IH]; [apply Nat.le_refl|].
  rewrite <- app_comm_cons, occurrences_cons. lia.
Qed.

Lemma prefixb_occurrences (p w : text) : prefixb p w = true -> 1 <= occurrences p w.
Proof.
  intros E. destruct w as [|c w]; [simpl; rewrite E; lia | rewrite occurrences_cons, E; lia].
Qed.

Lemma occurrences_zero_prefixb (p y w : text) :
  occurrences p (y ++ w) = 0 -> prefixb p w = false.
Proof.
  intros H. destruct (prefixb p w) eqn:E; [|reflexivity].
  pose proof (prefixb_occurrences p w E). pose proof (occurrences_suffix_le p y w). lia.
Qed.

Lemma includes_occurrences (p s : text) : includes p s = false <-> occurrences p s = 0.
Proof.
  induction s as [|c s IH].
  - simpl. destruct (prefixb p []); simpl; split; intros H; try reflexivity; try discriminate; lia.
  - rewrite occurrences_cons. cbn [includes].
    destruct (prefixb p (c :: s)); simpl; [split; intros H; [discriminate | lia] | exact IH].
Qed.

Lemma includes_of_occurrences (p s : text) : occurrences p s <> 0 -> includes p s = true.
Proof.
  intros H. destruct (includes p s) eqn:E; [reflexivity|].
  apply includes_occurrences in E. contradiction.
Qed.

(** The counts of both markers in a text holding one block. *)
Lemma occurrences_marks (tp tb te x y z : text) :
  ~ In "#"%char tp -> ~ In "#"%char tb -> ~ In "#"%char te ->
  occurrences ("#"%char :: tp) (x ++ ("#"%char :: tb) ++ y ++ ("#"%char :: te) ++ z) =
  occurrences ("#"%char :: tp) x +
  (if prefixb ("#"%char :: tp) ("#"%char :: tb ++ y ++ "#"%char :: te ++ z) then 1 else 0) +
  occurrences ("#"%char :: tp) y +
  (if prefixb ("#"%char :: tp) ("#"%char :: te ++ z) then 1 else 0) +
  occurrences ("#"%char :: tp) z.
Proof.
  intros Hp Hb He. cbn [app].
  rewrite occurrences_split by (discriminate || exact Hp).
  rewrite occurrences_cons, occurrences_skip by exact Hb.
  rewrite occurrences_split by (discriminate || exact Hp).
  rewrite occurrences_cons, occurrences_skip by exact He. lia.
Qed.

Lemma block_counts (name : string) (x y z : text) :
  valid_rig_name name = true ->
  occurrences (BEGIN_TAG name) (x ++ BEGIN_TAG name ++ y ++ END_TAG name ++ z) =
    occurrences (BEGIN_TAG name) x + 1 + occurrences (BEGIN_TAG name) y +
    occurrences (BEGIN_TAG name) z /\
  occurrences (END_TAG name) (x ++ BEGIN_TAG name ++ y ++ END_TAG name ++ z) =
    occurrences (END_TAG name) x + occurrences (END_TAG name) y + 1 +
    occurrences (END_TAG name) z.
Proof.
  intros V.
  destruct (marker_shape name _ V (or_introl eq_refl)) as [tb [Eb [Hb _]]].
  destruct (marker_shape name _ V (or_intror eq_refl)) as [te [Ee [He _]]].
  pose proof (begin_not_end name z) as BE.
  pose proof (end_not_begin name (y ++ END_TAG name ++ z)) as EB.
  pose proof (prefixb_self (BEGIN_TAG name) (y ++ END_TAG name ++ z)) as BB.
  pose proof (prefixb_self (END_TAG name) z) as EE.
  rewrite Eb, Ee in *. cbn [app] in BE, EB, BB, EE.
  rewrite !occurrences_marks by assumption.
  rewrite BE, EB, BB, EE. simpl. lia.
Qed.

Lemma one_block_intro (name : string) (x y z : text) :
  valid_rig_name name = true ->
  occurrences (BEGIN_TAG name) x = 0 -> occurrences (END_TAG name) x = 0 ->
  occurrences (BEGIN_TAG name) y = 0 -> occurrences (END_TAG name) y = 0 ->
  occurrences (BEGIN_TAG name) z = 0 -> occurrences (END_TAG name) z = 0 ->
  one_block name (x ++ BEGIN_TAG name ++ y ++ END_TAG name ++ z).
Proof.
  intros V; intros. destruct (block_counts name x y z V) as [B E].
  split; [lia|]. split; [lia|]. exists x, y, z. reflexivity.
Qed.

Lemma one_block_parts (name : string) (x y z : text) :
  valid_rig_name name = true ->
  one_block name (x ++ BEGIN_TAG name ++ y ++ END_TAG name ++ z) ->
  occurrences (BEGIN_TAG name) x = 0 /\ occurrences (END_TAG name) x = 0 /\
  occurrences (BEGIN_TAG name) y = 0 /\ occurrences (END_TAG name) y = 0 /\
  occurrences (BEGIN_TAG name) z = 0 /\ occurrences (END_TAG name) z = 0.
Proof.
  intros V [B1 [E1 _]]. destruct (block_counts name x y z V) as [B E]. lia.
Qed.

(** *** The rendered block *)

Lemma join_lines_shape (x z : text) (ys : list text) :
  join_lines (x :: ys ++ [z]) = x ++ nl ++ List.concat (map (fun y => y ++ nl) ys) ++ z.
Proof.
  revert x. induction ys as [|y ys IH]; intros x; [reflexivity|].
  rewrite <- app_comm_cons.
  change (join_lines (x :: y :: ys ++ [z])) with (x ++ nl ++ join_lines (y :: ys ++ [z])).
  rewrite IH. cbn [map List.concat]. rewrite <- !app_assoc. reflexivity.
Qed.

Lemma formatEnvBlock_shape (name : string) (env : list (string * string)) (shell : ShellName) :
  formatEnvBlock name env shell =
  BEGIN_TAG name ++ nl ++ List.concat (map (fun y => y ++ nl) (map (env_line shell) env)) ++
  END_TAG name.
Proof. unfold formatEnvBlock. exact (join_lines_shape _ _ _). Qed.

Lemma occurrences_body (a : ascii) (p : text) (lines : list text) :
  ~ In newline p -> a <> newline ->
  (forall l, In l lines -> occurrences (a :: p) l = 0) ->
  occurrences (a :: p) (List.concat (map (fun y => y ++ nl) lines)) = 0.
Proof.
  intros Hp Ha H. induction lines as [|l lines IH]; [reflexivity|].
  cbn [map List.concat]. rewrite <- app_assoc, nl_app.
  rewrite occurrences_split by (discriminate || exact Hp).
  rewrite occurrences_cons_skip by exact Ha.
  rewrite (H l (or_introl eq_refl)), IH; [reflexivity|].
  intros l' I. apply H. right. exact I.
Qed.

Lemma body_counts (name : string) (shell : ShellName) (env : list (string * string)) (p : text) :
  valid_rig_name name = true -> p = BEGIN_TAG name \/ p = END_TAG name ->
  (forall l, In l (map (env_line shell) env) -> occurrences p l = 0) ->
  occurrences p (nl ++ List.concat (map (fun y => y ++ nl) (map (env_line shell) env))) = 0.
Proof.
  intros V Hp H. destruct (marker_shape name p V Hp) as [tp [-> [_ [Hn _]]]].
  rewrite nl_app, occurrences_cons_skip by exact hash_newline.
  apply occurrences_body; [exact Hn | exact hash_newline | exact H].
Qed.

Lemma plain_lines (name : string) (shell : ShellName) (env : list (string * string)) :
  forallb (plain_env_line name shell) env = true ->
  forall l, In l (map (env_line shell) env) ->
  occurrences (BEGIN_TAG name) l = 0 /\ occurrences (END_TAG name) l = 0 /\ ~ In "$"%char l.
Proof.
  intros H l Il. apply in_map_iff in Il as [kv [<- Ikv]].
  rewrite forallb_forall in H. specialize (H kv Ikv). unfold plain_env_line in H.
  apply andb_prop in H as [H H3]. apply andb_prop in H as [H1 H2].
  apply negb_true_iff in H1, H2, H3.
  split; [apply includes_occurrences; exact H1|].
  split; [apply includes_occurrences; exact H2|].
  exact (not_in_by_eqb _ _ H3).
Qed.

Lemma block_no_dollar (name : string) (shell : ShellName) (env : list (string * string)) :
  valid_rig_name name = true -> forallb (plain_env_line name shell) env = true ->
  ~ In "$"%char (formatEnvBlock name env shell).
Proof.
  intros V H.
  destruct (marker_shape name _ V (or_introl eq_refl)) as [tb [Eb [_ [_ Hb]]]].
  destruct (marker_shape name _ V (or_intror eq_refl)) as [te [Ee [_ [_ He]]]].
  rewrite formatEnvBlock_shape, Eb, Ee.
  rewrite !in_app_iff. intros [I|[I|[I|I]]].
  - destruct I as [I|I]; [discriminate | contradiction].
  - destruct I as [I|[]]. discriminate.
  - apply in_concat in I as [l' [Il' I]]. apply in_map_iff in Il' as [l [<- Il]].
    apply in_app_iff in I as [I|[I|[]]]; [|discriminate].
    exact (proj2 (proj2 (plain_lines name shell env H l Il)) I).
  - destruct I as [I|I]; [discriminate | contradiction].
Qed.

(** *** The matchers *)

Lemma skipn_length_app (l r : text) : skipn (List.length l) (l ++ r) = r.
Proof. induction l; simpl; auto. Qed.

Lemma lazy_until_here (e s : text) : prefixb e s = true -> lazy_until e s = Some (skipn (List.length e) s).
Proof. intros H. destruct s; cbn [lazy_until]; rewrite H; reflexivity. Qed.

Lemma lazy_until_skip (e P q : text) :
  (forall y w, P = y ++ w -> w <> [] -> prefixb e (w ++ q) = false) ->
  lazy_until e (P ++ q) = lazy_until e q.
Proof.
  induction P as [|c P IH]; intros H; [reflexivity|].
  rewrite <- app_comm_cons. cbn [lazy_until].
  replace (prefixb e (c :: P ++ q)) with false
    by (symmetry; apply (H [] (c :: P)); [reflexivity | discriminate]).
  apply IH. intros y w Hy Hw. apply (H (c :: y) w); [rewrite Hy; reflexivity | exact Hw].
Qed.

Lemma search_here (m : text -> option text) (s rest : text) :
  m s = Some rest -> exists mt, search m s = Some ([], mt, rest).
Proof. intros H. destruct s; cbn [search]; rewrite H; eexists; reflexivity. Qed.

Lemma search_skip (m : text -> option text) (P rest : text) :
  (forall y w, P = y ++ w -> w <> [] -> m (w ++ rest) = None) ->
  search m (P ++ rest) =
  match search m rest with Some (bf, mt, af) => Some (P ++ bf, mt, af) | None => None end.
Proof.
  induction P as [|c P IH]; intros H.
  - simpl. destruct (search m rest) as [[[bf mt] af]|]; reflexivity.
  - rewrite <- app_comm_cons. cbn [search].
    replace (m (c :: P ++ rest)) with (@None text)
      by (symmetry; apply (H [] (c :: P)); [reflexivity | discriminate]).
    rewrite IH by (intros y w Hy Hw; apply (H (c :: y) w); [rewrite Hy; reflexivity | exact Hw]).
    destruct (search m rest) as [[[bf mt] af]|]; reflexivity.
Qed.

Lemma get_substitution_plain (r bf mt af : text) :
  ~ In "$"%char r -> get_substitution r bf mt af = r.
Proof.
  induction r as [|c r IH]; intros Hr; [reflexivity|].
  destruct r as [|c2 r']; [reflexivity|].
  assert (Ascii.eqb c "$"%char = false) as E
    by (apply Ascii.eqb_neq; intros ->; apply Hr; left; reflexivity).
  transitivity (c :: get_substitution (c2 :: r') bf mt af).
  - cbn [get_substitution]. rewrite E. reflexivity.
  - rewrite IH; [reflexivity|]. intros I; apply Hr; right; exact I.
Qed.

Lemma js_replace_here (m : text -> option text) (P rest after rep : text) :
  (forall y w, P = y ++ w -> w <> [] -> m (w ++ rest) = None) ->
  m rest = Some after -> ~ In "$"%char rep ->
  js_replace m rep (P ++ rest) = P ++ rep ++ after.
Proof.
  intros Hs Hm Hr. unfold js_replace. rewrite search_skip by exact Hs.
  destruct (search_here m rest after Hm) as [mt ->].
  rewrite get_substitution_plain by exact Hr. rewrite app_nil_r. reflexivity.
Qed.

Lemma match_block_at (tb te y z : text) :
  ~ In "#"%char te -> occurrences ("#"%char :: te) y = 0 ->
  match_block ("#"%char :: tb) ("#"%char :: te)
    (("#"%char :: tb) ++ y ++ ("#"%char :: te) ++ z) = Some z.
Proof.
  intros He Hy. unfold match_block.
  rewrite prefixb_self, skipn_length_app, lazy_until_skip.
  - rewrite lazy_until_here by apply prefixb_self. rewrite skipn_length_app. reflexivity.
  - intros y0 w -> Hw. cbn [app]. rewrite prefixb_junction by (exact He || exact Hw).
    exact (occurrences_zero_prefixb _ y0 w Hy).
Qed.

Lemma match_block_none (b e s : text) : prefixb b s = false -> match_block b e s = None.
Proof. intros H. unfold match_block. rewrite H. reflexivity. Qed.

Lemma match_block_nl_none (b e s : text) :
  match_block b e s = None ->
  (forall c r, s = c :: r -> is_nl c = true -> match_block b e r = None) ->
  match_block_nl b e s = None.
Proof.
  intros H H2. unfold match_block_nl. destruct s as [|c r]; [rewrite H; reflexivity|].
  cbv zeta. destruct (is_nl c) eqn:E.
  - rewrite (H2 c r eq_refl E), H. reflexivity.
  - rewrite H. reflexivity.
Qed.

(** Replacing the block of [x ++ begin ++ y ++ end ++ z]. *)
Lemma replace_block (tb te x y z rep : text) :
  ~ In "#"%char tb -> ~ In "#"%char te ->
  occurrences ("#"%char :: tb) x = 0 -> occurrences ("#"%char :: te) y = 0 ->
  ~ In "$"%char rep ->
  js_replace (match_block ("#"%char :: tb) ("#"%char :: te)) rep
    (x ++ ("#"%char :: tb) ++ y ++ ("#"%char :: te) ++ z) = x ++ rep ++ z.
Proof.
  intros Hb He Hx Hy Hr. apply js_replace_here; [| apply match_block_at; assumption | exact Hr].
  intros y0 w -> Hw. apply match_block_none.
  cbn [app]. rewrite prefixb_junction by (exact Hb || exact Hw).
  exact (occurrences_zero_prefixb _ y0 w Hx).
Qed.

(** Removing the block when a newline precedes it: the [\n?] takes it. *)
Lemma remove_block_nl (tb te x0 y z : text) :
  ~ In "#"%char tb -> ~ In newline tb -> ~ In "#"%char te ->
  occurrences ("#"%char :: tb) x0 = 0 -> occurrences ("#"%char :: te) y = 0 ->
  js_replace (match_block_nl ("#"%char :: tb) ("#"%char :: te)) nl
    (x0 ++ nl ++ ("#"%char :: tb) ++ y ++ ("#"%char :: te) ++ z) = x0 ++ nl ++ opt_nl z.
Proof.
  intros Hb Hbn He Hx Hy.
  pose proof (match_block_at tb te y z He Hy) as Mb.
  apply js_replace_here; [| | exact nl_no_dollar].
  - intros y0 w -> Hw. rewrite nl_app.
    apply match_block_nl_none.
    + apply match_block_none. rewrite prefixb_junction by (exact Hbn || exact Hw).
      exact (occurrences_zero_prefixb _ y0 w Hx).
    + intros c r Hs _. destruct w as [|c0 w1]; [congruence|].
      rewrite <- app_comm_cons in Hs. injection Hs as <- <-.
      apply match_block_none. destruct w1 as [|c1 w2]; [reflexivity|].
      rewrite prefixb_junction by (exact Hbn || discriminate).
      change (c0 :: c1 :: w2) with ([c0] ++ c1 :: w2) in Hx.
      rewrite app_assoc in Hx. exact (occurrences_zero_prefixb _ _ _ Hx).
  - unfold match_block_nl. rewrite nl_app. cbn [app]. cbn [app] in Mb.
    rewrite Mb. reflexivity.
Qed.

(** Removing the block when no newline precedes it. *)
Lemma remove_block_nonl (tb te x y z : text) :
  ~ In "#"%char tb -> ~ In "#"%char te ->
  (forall x0, x <> x0 ++ nl) ->
  occurrences ("#"%char :: tb) x = 0 -> occurrences ("#"%char :: te) y = 0 ->
  js_replace (match_block_nl ("#"%char :: tb) ("#"%char :: te)) nl
    (x ++ ("#"%char :: tb) ++ y ++ ("#"%char :: te) ++ z) = x ++ nl ++ opt_nl z.
Proof.
  intros Hb He Hn Hx Hy.
  pose proof (match_block_at tb te y z He Hy) as Mb.
  apply js_replace_here; [| | exact nl_no_dollar].
  - intros y0 w -> Hw. cbn [app].
    apply match_block_nl_none.
    + apply match_block_none. rewrite prefixb_junction by (exact Hb || exact Hw).
      exact (occurrences_zero_prefixb _ y0 w Hx).
    + intros c r Hs Hc. destruct w as [|c0 w1]; [congruence|].
      rewrite <- app_comm_cons in Hs. injection Hs as <- <-.
      apply match_block_none. destruct w1 as [|c1 w2].
      * exfalso. apply (Hn y0). apply Ascii.eqb_eq in Hc. subst c0. reflexivity.
      * rewrite prefixb_junction by (exact Hb || discriminate).
        change (c0 :: c1 :: w2) with ([c0] ++ c1 :: w2) in Hx.
        rewrite app_assoc in Hx. exact (occurrences_zero_prefixb _ _ _ Hx).
  - unfold match_block_nl. cbn [app]. cbn [app] in Mb. rewrite Mb. reflexivity.
Qed.

Lemma ends_nl_dec (x : text) : {x0 | x = x0 ++ nl} + {forall x0, x <> x0 ++ nl}.
Proof.
  destruct (rev x) as [|ch rx] eqn:E.
  - right. intros x0 ->. rewrite rev_app_distr in E. discriminate.
  - destruct (Ascii.eqb_spec ch newline) as [->|Hc].
    + left. exists (rev rx). rewrite <- (rev_involutive x), E. reflexivity.
    + right. intros x0 ->. rewrite rev_app_distr in E. injection E as E1 _. congruence.
Qed.

(** *** Normalisation *)

Lemma drop_ws_suffix (l : text) : exists w, l = w ++ drop_ws l.
Proof.
  induction l as [|c l IH]; [exists []; reflexivity|]. simpl.
  destruct (is_ws c); [destruct IH as [w Hw]; exists (c :: w); simpl; congruence | exists []; reflexivity].
Qed.

Lemma trimEnd_prefix (s : text) : exists u, s = trimEnd s ++ u.
Proof.
  destruct (drop_ws_suffix (rev s)) as [w Hw]. exists (rev w).
  unfold trimEnd. rewrite <- rev_app_distr, <- Hw, rev_involutive. reflexivity.
Qed.

Lemma drop_ws_head (l : text) :
  drop_ws l = [] \/ exists ch r, drop_ws l = ch :: r /\ is_ws ch = false.
Proof.
  induction l as [|c l IH]; [left; reflexivity|]. simpl.
  destruct (is_ws c) eqn:E; [exact IH | right; exists c, l; split; [reflexivity | exact E]].
Qed.

Lemma trimEnd_shape (s : text) :
  trimEnd s = [] \/ exists t0 ch, trimEnd s = t0 ++ [ch] /\ is_ws ch = false.
Proof.
  unfold trimEnd. destruct (drop_ws_head (rev s)) as [-> | [ch [r [-> E]]]].
  - left. reflexivity.
  - right. exists (rev r), ch. split; [reflexivity | exact E].
Qed.

Lemma trimEnd_snoc_nl (u : text) (ch : ascii) :
  is_ws ch = false -> trimEnd (u ++ [ch] ++ nl ++ nl) = u ++ [ch].
Proof.
  intros E. unfold trimEnd. rewrite rev_app_distr. simpl. rewrite E.
  simpl. rewrite rev_involutive. reflexivity.
Qed.

Lemma collapse_aux_S (k : nat) (r : text) : exists u, collapse_aux (S k) r = newline :: u.
Proof.
  revert k. induction r as [|c r IH]; intros k; simpl.
  - destruct k as [|[|k]]; eexists; reflexivity.
  - destruct (is_nl c); [apply IH|]. destruct k as [|[|k]]; eexists; reflexivity.
Qed.

Lemma prefixb_collapse (q r : text) :
  ~ In newline q -> prefixb q (collapse_aux 0 r) = prefixb q r.
Proof.
  revert q. induction r as [|c r IH]; intros q Hq; [reflexivity|].
  destruct q as [|a q]; [reflexivity|].
  simpl. destruct (is_nl c) eqn:E.
  - destruct (collapse_aux_S 0 r) as [u ->]. apply Ascii.eqb_eq in E. subst c.
    cbn [prefixb]. destruct (Ascii.eqb_spec a newline) as [->|_];
      [exfalso; apply Hq; left; reflexivity | reflexivity].
  - cbn [prefixb]. rewrite IH; [reflexivity|]. intros I; apply Hq; right; exact I.
Qed.

Lemma occurrences_collapse (a : ascii) (tp s : text) (k : nat) :
  a <> newline -> ~ In newline tp ->
  occurrences (a :: tp) (collapse_aux k s) = occurrences (a :: tp) s.
Proof.
  intros Ha Hn. revert k. induction s as [|c s IH]; intros k.
  - simpl. apply occurrences_free. intros I. apply repeat_spec in I. contradiction.
  - cbn [collapse_aux]. destruct (is_nl c) eqn:E.
    + rewrite IH. apply Ascii.eqb_eq in E. subst c.
      rewrite occurrences_cons_skip by exact Ha. reflexivity.
    + rewrite occurrences_skip by (intros I; apply repeat_spec in I; contradiction).
      rewrite !occurrences_cons, IH. cbn [prefixb]. rewrite prefixb_collapse by exact Hn.
      reflexivity.
Qed.

Lemma collapse_split (k : nat) (x : text) (c : ascii) (y : text) :
  is_nl c = false ->
  collapse_aux k (x ++ c :: y) = collapse_aux k (x ++ [c]) ++ collapse_aux 0 y.
Proof.
  intros Hc. revert k. induction x as [|d x IH]; intros k.
  - simpl. rewrite Hc. simpl. rewrite <- app_assoc. reflexivity.
  - simpl. destruct (is_nl d); [apply IH|]. rewrite IH, <- app_assoc. reflexivity.
Qed.

Lemma collapse_snoc (k : nat) (x : text) (c : ascii) :
  is_nl c = false -> exists u, collapse_aux k (x ++ [c]) = u ++ [c].
Proof.
  intros Hc. revert k. induction x as [|d x IH]; intros k.
  - simpl. rewrite Hc. exists (repeat newline (if Nat.leb 3 k then 2 else k)). reflexivity.
  - simpl. destruct (is_nl d); [apply IH|]. destruct (IH 0) as [u Hu]. rewrite Hu.
    exists (repeat newline (if Nat.leb 3 k then 2 else k) ++ d :: u).
    rewrite <- app_assoc. reflexivity.
Qed.

Lemma normalise_appended (c : text) :
  trimEnd (collapse_newlines (trimEnd c ++ nl ++ nl)) ++ nl = collapse_newlines (trimEnd c) ++ nl.
Proof.
  unfold collapse_newlines.
  destruct (trimEnd_shape c) as [-> | [t0 [ch [-> E]]]]; [reflexivity|].
  assert (N : is_nl ch = false).
  { destruct (is_nl ch) eqn:F; [|reflexivity]. apply Ascii.eqb_eq in F. subst ch. discriminate E. }
  replace ((t0 ++ [ch]) ++ nl ++ nl) with (t0 ++ ch :: nl ++ nl)
    by (rewrite <- app_assoc; reflexivity).
  rewrite (collapse_split 0 t0 ch (nl ++ nl) N).
  destruct (collapse_snoc 0 t0 ch N) as [u ->].
  change (collapse_aux 0 (nl ++ nl)) with (nl ++ nl).
  rewrite <- app_assoc, trimEnd_snoc_nl by exact E. reflexivity.
Qed.

Lemma opt_nl_suffix (z : text) : exists u, z = u ++ opt_nl z.
Proof.
  destruct z as [|c r]; [exists []; reflexivity|]. simpl.
  destruct (is_nl c); [exists [c] | exists []]; reflexivity.
Qed.

(** After a removal no marker is left. *)
Lemma no_block_removed (name : string) (X z : text) :
  valid_rig_name name = true ->
  occurrences (BEGIN_TAG name) X = 0 -> occurrences (END_TAG name) X = 0 ->
  occurrences (BEGIN_TAG name) z = 0 -> occurrences (END_TAG name) z = 0 ->
  no_block name (trimEnd (collapse_newlines (X ++ nl ++ opt_nl z)) ++ nl).
Proof.
  intros V HbX HeX Hbz Hez.
  assert (K : forall p, p = BEGIN_TAG name \/ p = END_TAG name ->
            occurrences p X = 0 -> occurrences p z = 0 ->
            occurrences p (trimEnd (collapse_newlines (X ++ nl ++ opt_nl z)) ++ nl) = 0).
  { intros p Hp H1 H2. destruct (marker_shape name p V Hp) as [tp [-> [_ [Hn _]]]].
    rewrite <- (app_nil_r (_ ++ nl)), <- app_assoc, occurrences_app_nl by exact Hn.
    set (C := collapse_newlines (X ++ nl ++ opt_nl z)).
    destruct (trimEnd_prefix C) as [u Hu].
    pose proof (occurrences_prefix_le ("#"%char :: tp) (trimEnd C) u) as L1.
    rewrite <- Hu in L1. unfold C, collapse_newlines in L1.
    rewrite occurrences_collapse, occurrences_app_nl in L1 by (exact hash_newline || exact Hn).
    destruct (opt_nl_suffix z) as [v Hv].
    pose proof (occurrences_suffix_le ("#"%char :: tp) v (opt_nl z)) as L2.
    rewrite <- Hv in L2. unfold C, collapse_newlines in *. change (occurrences ("#"%char :: tp) []) with 0. lia. }
  split; apply K; auto.
Qed.

(** *** The two operations on a profile *)

Lemma write_append (name : string) (env : list (string * string)) (shell : ShellName) (c : text) :
  includes (BEGIN_TAG name) c = false ->
  writeEnvBlock name env shell (Some c) =
  trimEnd c ++ nl ++ nl ++ formatEnvBlock name env shell ++ nl.
Proof. intros H. unfold writeEnvBlock. cbv zeta. rewrite H. reflexivity. Qed.

Lemma write_replace (name : string) (env : list (string * string)) (shell : ShellName)
    (x y z : text) :
  valid_rig_name name = true -> forallb (plain_env_line name shell) env = true ->
  occurrences (BEGIN_TAG name) x = 0 -> occurrences (END_TAG name) y = 0 ->
  writeEnvBlock name env shell (Some (x ++ BEGIN_TAG name ++ y ++ END_TAG name ++ z)) =
  x ++ formatEnvBlock name env shell ++ z.
Proof.
  intros V P Hx Hy. unfold writeEnvBlock. cbv zeta.
  rewrite includes_of_occurrences by (destruct (block_counts name x y z V) as [B _]; lia).
  destruct (marker_shape name _ V (or_introl eq_refl)) as [tb [Eb [Hb _]]].
  destruct (marker_shape name _ V (or_intror eq_refl)) as [te [Ee [He _]]].
  rewrite Eb, Ee in *. apply replace_block; try assumption.
  exact (block_no_dollar name shell env V P).
Qed.

Lemma block_one (name : string) (env : list (string * string)) (shell : ShellName) (x z : text) :
  valid_rig_name name = true -> forallb (plain_env_line name shell) env = true ->
  occurrences (BEGIN_TAG name) x = 0 -> occurrences (END_TAG name) x = 0 ->
  occurrences (BEGIN_TAG name) z = 0 -> occurrences (END_TAG name) z = 0 ->
  one_block name (x ++ formatEnvBlock name env shell ++ z).
Proof.
  intros V P; intros. rewrite formatEnvBlock_shape.
  set (M := List.concat (map (fun y => y ++ nl) (map (env_line shell) env))).
  replace (x ++ (BEGIN_TAG name ++ nl ++ M ++ END_TAG name) ++ z)
    with (x ++ BEGIN_TAG name ++ (nl ++ M) ++ END_TAG name ++ z)
    by (rewrite <- !app_assoc; reflexivity).
  apply one_block_intro; try assumption;
    apply (body_counts name shell env); auto; intros l Il;
    apply (plain_lines name shell env P l Il).
Qed.

(** The block after the text [x] and before [z] gives [x ++ nl ++ opt_nl z]
    (or one newline less) to the normalisation of [removeEnvBlock]. *)
Lemma remove_one (name : string) (x y z : text) :
  valid_rig_name name = true ->
  occurrences (BEGIN_TAG name) x = 0 -> occurrences (END_TAG name) x = 0 ->
  occurrences (END_TAG name) y = 0 ->
  occurrences (BEGIN_TAG name) z = 0 -> occurrences (END_TAG name) z = 0 ->
  exists X, js_replace (match_block_nl (BEGIN_TAG name) (END_TAG name)) nl
              (x ++ BEGIN_TAG name ++ y ++ END_TAG name ++ z) = X ++ nl ++ opt_nl z /\
            occurrences (BEGIN_TAG name) X = 0 /\ occurrences (END_TAG name) X = 0 /\
            (forall x0, x = x0 ++ nl -> X = x0).
Proof.
  intros V Hbx Hex Hey Hbz Hez.
  destruct (marker_shape name _ V (or_introl eq_refl)) as [tb [Eb [Hb [Hbn _]]]].
  destruct (marker_shape name _ V (or_intror eq_refl)) as [te [Ee [He _]]].
  rewrite Eb, Ee in *.
  destruct (ends_nl_dec x) as [[x0 ->] | Hn].
  - exists x0.
    pose proof (occurrences_prefix_le ("#"%char :: tb) x0 nl).
    pose proof (occurrences_prefix_le ("#"%char :: te) x0 nl).
    assert (occurrences ("#"%char :: tb) x0 = 0) by lia.
    rewrite <- app_assoc, remove_block_nl by assumption.
    split; [reflexivity|]. split; [lia|]. split; [lia|].
    intros x1 E. exact (proj1 (app_inj_tail x0 x1 newline newline E)).
  - exists x. rewrite remove_block_nonl by assumption.
    split; [reflexivity|]. split; [assumption|]. split; [assumption|].
    intros x0 E. exfalso. exact (Hn x0 E).
Qed.

Lemma remove_one_block (name : string) (c : text) :
  valid_rig_name name = true -> one_block name c ->
  exists r, removeEnvBlock name (Some c) = (Some r, true) /\ no_block name r.
Proof.
  intros V Hc. pose proof Hc as [B1 [_ [x [y [z ->]]]]].
  destruct (one_block_parts name x y z V Hc) as [Hbx [Hex [Hby [Hey [Hbz Hez]]]]].
  destruct (remove_one name x y z V Hbx Hex Hey Hbz Hez) as [X [HX [HbX [HeX _]]]].
  eexists. split.
  - unfold removeEnvBlock. cbv zeta.
    rewrite includes_of_occurrences by lia. cbn [negb]. rewrite HX. reflexivity.
  - apply no_block_removed; assumption.
Qed.

(** What a write leaves around the new block. *)
Lemma write_result (name : string) (env : list (string * string)) (shell : ShellName) (c : text) :
  valid_rig_name name = true -> forallb (plain_env_line name shell) env = true ->
  no_block name c \/ one_block name c ->
  exists x z, writeEnvBlock name env shell (Some c) = x ++ formatEnvBlock name env shell ++ z /\
    occurrences (BEGIN_TAG name) x = 0 /\ occurrences (END_TAG name) x = 0 /\
    occurrences (BEGIN_TAG name) z = 0 /\ occurrences (END_TAG name) z = 0.
Proof.
  intros V P [[Hb He] | Hc].
  - exists (trimEnd c ++ nl ++ nl), nl.
    rewrite write_append by (apply includes_occurrences; exact Hb).
    split; [rewrite <- !app_assoc; reflexivity|].
    destruct (trimEnd_prefix c) as [u Hu].
    assert (K : forall p, p = BEGIN_TAG name \/ p = END_TAG name -> occurrences p c = 0 ->
              occurrences p (trimEnd c ++ nl ++ nl) = 0 /\ occurrences p nl = 0).
    { intros p Hp H. destruct (marker_shape name p V Hp) as [tp [-> [_ [Hn _]]]].
      pose proof (occurrences_prefix_le ("#"%char :: tp) (trimEnd c) u) as L.
      rewrite <- Hu in L. rewrite occurrences_app_nl by exact Hn. split; [|reflexivity].
      assert (occurrences ("#"%char :: tp) nl = 0) by reflexivity. lia. }
    destruct (K _ (or_introl eq_refl) Hb), (K _ (or_intror eq_refl) He). tauto.
  - pose proof Hc as [_ [_ [x [y [z ->]]]]].
    destruct (one_block_parts name x y z V Hc) as [Hbx [Hex [Hby [Hey [Hbz Hez]]]]].
    exists x, z. rewrite write_replace by assumption. tauto.
Qed.

End EnvText.

Section EnvClaims.

Import EnvBlock.

(** C6 does not hold as stated: an env value holding the end marker of the
    rig makes the lazy match of [removeEnvBlock] stop inside the block, so a
    quote and the end marker stay in the profile. *)
Lemma env_block_round_trip_counterexample :
  includes (BEGIN_TAG "demo") (txt "a") = false /\
  removeEnvBlock "demo"
    (Some (writeEnvBlock "demo" [("X", "# --- end agent-rig: demo ---")] Bash (Some (txt "a"))))
  = (Some (txt "a" ++ nl ++ nl ++ [dquote] ++ nl ++ END_TAG "demo" ++ nl), true) /\
  txt "a" ++ nl ++ nl ++ [dquote] ++ nl ++ END_TAG "demo" ++ nl
    <> collapse_newlines (trimEnd (txt "a")) ++ nl.
Proof.
  split; [reflexivity|]. split; [vm_compute; reflexivity|].
  intros H. vm_compute in H. discriminate H.
Qed.

(** C6 (amended).  For a rig name allowed by the schema ([^[a-z0-9-]+$]),
    env lines that do not contain the rig's end marker, and a profile
    content [c] without the rig's begin marker, writing the block with
    [writeEnvBlock] and removing it with [removeEnvBlock] leaves [c] with
    its trailing whitespace trimmed, its runs of three or more newlines
    collapsed to two, and one final newline; the removal reports [true]. *)
Theorem env_block_round_trip (name : string) (env : list (string * string))
    (shell : ShellName) (c : text) :
  valid_rig_name name = true ->
  includes (BEGIN_TAG name) c = false ->
  (forall kv, In kv env -> includes (END_TAG name) (env_line shell kv) = false) ->
  removeEnvBlock name (Some (writeEnvBlock name env shell (Some c))) =
  (Some (collapse_newlines (trimEnd c) ++ nl), true).
Proof.
  intros V Hc Henv.
  rewrite write_append by exact Hc. rewrite formatEnvBlock_shape.
  set (M := List.concat (map (fun y => y ++ nl) (map (env_line shell) env))).
  set (R := BEGIN_TAG name ++ (nl ++ M) ++ END_TAG name ++ nl).
  replace (trimEnd c ++ nl ++ nl ++ (BEGIN_TAG name ++ nl ++ M ++ END_TAG name) ++ nl)
    with ((trimEnd c ++ nl) ++ nl ++ R)
    by (unfold R; rewrite <- !app_assoc; reflexivity).
  assert (Hey : occurrences (END_TAG name) (nl ++ M) = 0).
  { apply (body_counts name shell env); [exact V | right; reflexivity |].
    intros l Il. apply in_map_iff in Il as [kv [<- Ikv]].
    apply includes_occurrences. exact (Henv kv Ikv). }
  destruct (marker_shape name _ V (or_introl eq_refl)) as [tb [Eb [Hb [Hbn _]]]].
  destruct (marker_shape name _ V (or_intror eq_refl)) as [te [Ee [He _]]].
  assert (Hbt : occurrences (BEGIN_TAG name) (trimEnd c ++ nl) = 0).
  { apply includes_occurrences in Hc. destruct (trimEnd_prefix c) as [u Hu].
    pose proof (occurrences_prefix_le (BEGIN_TAG name) (trimEnd c) u) as L.
    rewrite <- Hu in L. rewrite Eb in *.
    rewrite <- (app_nil_r nl), occurrences_app_nl by exact Hbn.
    change (occurrences ("#"%char :: tb) []) with 0. lia. }
  assert (Hin : includes (BEGIN_TAG name) ((trimEnd c ++ nl) ++ nl ++ R) = true).
  { apply includes_of_occurrences.
    pose proof (prefixb_occurrences _ _ (prefixb_self (BEGIN_TAG name) ((nl ++ M) ++ END_TAG name ++ nl))).
    pose proof (occurrences_suffix_le (BEGIN_TAG name) ((trimEnd c ++ nl) ++ nl) R).
    rewrite <- app_assoc in H0. unfold R in *. lia. }
  unfold removeEnvBlock. cbv zeta. rewrite Hin. cbn [negb].
  unfold R. rewrite Eb, Ee in *. rewrite remove_block_nl by assumption.
  change (opt_nl nl) with (@nil ascii).
  rewrite app_nil_r, <- app_assoc, normalise_appended. reflexivity.
Qed.

(** A witness: the profile "a" and the env [X=1] of the rig "demo" give
    back "a" and a newline. *)
Lemma env_block_round_trip_witness :
  valid_rig_name "demo" = true /\ includes (BEGIN_TAG "demo") (txt "a") = false /\
  removeEnvBlock "demo" (Some (writeEnvBlock "demo" [("X", "1")] Bash (Some (txt "a")))) =
  (Some (txt "a" ++ nl), true).
Proof.
  split; [reflexivity|]. split; [reflexivity|].
  refine (env_block_round_trip "demo" [("X", "1")] Bash (txt "a") eq_refl eq_refl _).
  intros kv [<- | []]. reflexivity.
Defined.

(** C9 does not hold as stated: an env value holding the begin marker of
    the rig puts a second begin marker into the profile, which had no
    block before. *)
Lemma env_block_single_counterexample :
  no_block "demo" (txt "a") /\
  occurrences (BEGIN_TAG "demo")
    (writeEnvBlock "demo" [("X", "# --- agent-rig: demo ---")] Bash (Some (txt "a"))) = 2 /\
  ~ one_block "demo"
      (writeEnvBlock "demo" [("X", "# --- agent-rig: demo ---")] Bash (Some (txt "a"))).
Proof.
  split; [split; reflexivity|]. split; [vm_compute; reflexivity|].
  intros [H _]. vm_compute in H. discriminate H.
Qed.

(** The replacement text of [writeEnvBlock] goes through the [$] patterns
    of [String.prototype.replace]: a value ["$&"] re-inserts the old block
    into the new one. *)
Lemma env_block_dollar_pattern :
  occurrences (BEGIN_TAG "demo")
    (writeEnvBlock "demo" [("X", "$&")] Bash
       (Some (writeEnvBlock "demo" [("X", "1")] Bash None))) = 2.
Proof. vm_compute. reflexivity. Qed.

(** C9 (amended).  For a rig name allowed by the schema, env lines (of
    [env] and of a second [env2]) that contain neither marker of the rig
    nor [$], and a profile content [c] with either no marker of the rig or
    exactly one begin and one end marker with the begin marker first:
    - writing into a missing file and writing into [c] each give a text with
      exactly one block;
    - without a block, [c] gets the block appended after its trimmed
      content and a blank line;
    - with a block [c = x ++ begin ++ y ++ end ++ z], the block is replaced
      in place by the new one: [x ++ block ++ z];
    - removing from [c] leaves a text with no marker of the rig;
    - a second write with [env2] replaces the block just written in place,
      and the result again has exactly one block. *)
Theorem env_block_single (name : string) (shell : ShellName)
    (env : list (string * string)) (c : text) :
  valid_rig_name name = true ->
  forallb (plain_env_line name shell) env = true ->
  no_block name c \/ one_block name c ->
  one_block name (writeEnvBlock name env shell None) /\
  one_block name (writeEnvBlock name env shell (Some c)) /\
  (no_block name c ->
     writeEnvBlock name env shell (Some c) =
     trimEnd c ++ nl ++ nl ++ formatEnvBlock name env shell ++ nl) /\
  (forall x y z, one_block name c -> c = x ++ BEGIN_TAG name ++ y ++ END_TAG name ++ z ->
     writeEnvBlock name env shell (Some c) = x ++ formatEnvBlock name env shell ++ z) /\
  (exists r, fst (removeEnvBlock name (Some c)) = Some r /\ no_block name r) /\
  (forall env2, forallb (plain_env_line name shell) env2 = true ->
     exists x z,
       writeEnvBlock name env shell (Some c) = x ++ formatEnvBlock name env shell ++ z /\
       writeEnvBlock name env2 shell (Some (writeEnvBlock name env shell (Some c))) =
         x ++ formatEnvBlock name env2 shell ++ z /\
       one_block name
         (writeEnvBlock name env2 shell (Some (writeEnvBlock name env shell (Some c))))).
Proof.
  intros V P Hc.
  destruct (write_result name env shell c V P Hc) as [x [z [Hw [Hbx [Hex [Hbz Hez]]]]]].
  destruct (marker_shape name _ V (or_introl eq_refl)) as [tb [Eb _]].
  destruct (marker_shape name _ V (or_intror eq_refl)) as [te [Ee _]].
  split.
  { change (writeEnvBlock name env shell None) with ([] ++ formatEnvBlock name env shell ++ nl).
    apply block_one; try assumption; rewrite ?Eb, ?Ee; reflexivity. }
  split; [rewrite Hw; apply block_one; assumption|].
  split; [intros [Hb _]; apply write_append, includes_occurrences, Hb|].
  split.
  { intros x' y' z' Hc1 ->.
    destruct (one_block_parts name x' y' z' V Hc1) as [H1 [_ [_ [H4 _]]]].
    apply write_replace; assumption. }
  split.
  { destruct Hc as [[Hb He] | Hc].
    - exists c. unfold removeEnvBlock. cbv zeta.
      rewrite (proj2 (includes_occurrences _ _) Hb).
      split; [reflexivity | split; assumption].
    - destruct (remove_one_block name c V Hc) as [r [Hr Hn]].
      exists r. rewrite Hr. split; [reflexivity | exact Hn]. }
  intros env2 P2. exists x, z.
  assert (H2 : writeEnvBlock name env2 shell (@Some text (x ++ formatEnvBlock name env shell ++ z)) =
               x ++ formatEnvBlock name env2 shell ++ z).
  { rewrite (formatEnvBlock_shape name env shell).
    set (M := List.concat (map (fun y => y ++ nl) (map (env_line shell) env))).
    replace (x ++ (BEGIN_TAG name ++ nl ++ M ++ END_TAG name) ++ z)
      with (x ++ BEGIN_TAG name ++ (nl ++ M) ++ END_TAG name ++ z)
      by (rewrite <- !app_assoc; reflexivity).
    apply write_replace; try assumption.
    apply (body_counts name shell env); auto.
    intros l Il. apply (plain_lines name shell env P l Il). }
  rewrite Hw, H2. split; [reflexivity|]. split; [reflexivity|].
  apply block_one; assumption.
Qed.

(** A witness: the profile "a" of the rig "demo", with no block, gets
    exactly one block from the env [X=1]. *)
Lemma env_block_single_witness :
  valid_rig_name "demo" = true /\ forallb (plain_env_line "demo" Bash) [("X", "1")] = true /\
  no_block "demo" (txt "a") /\
  one_block "demo" (writeEnvBlock "demo" [("X", "1")] Bash (Some (txt "a"))).
Proof.
  assert (N : no_block "demo" (txt "a")) by (split; reflexivity).
  split; [reflexivity|]. split; [reflexivity|]. split; [exact N|].
  exact (proj1 (proj2 (env_block_single "demo" Bash [("X", "1")] (txt "a")
                         eq_refl eq_refl (or_introl N)))).
Defined.

End EnvClaims.

(* ================================================================== *)
(** * Further properties of the embedded code *)

(** ** [topoSortPlugins] on any input *)

Section TopoTotal.

Import Topo.

Variable plugins : list PluginEntry.

Lemma bySource_none (s : string) : bySource plugins s = None -> ~ In s (srcs plugins).
Proof.
  unfold bySource. intros F I. unfold srcs in I. apply in_map_iff in I as (p & <- & I).
  apply in_rev in I. eapply find_none in F; [|exact I]. simpl in F.
  rewrite String.eqb_refl in F. discriminate.
Qed.

Lemma srcs_app (l r : list PluginEntry) : srcs (l ++ r) = srcs l ++ srcs r.
Proof. apply map_app. Qed.

Lemma fold_good_gen (f : nat) :
  (forall x V O V' O',
     visit plugins f x (V, O) = (V', O') ->
     (forall e, In e O -> In (pe_source e) V) -> topo_good plugins O -> topo_good plugins O') ->
  forall l V O V' O',
    incl l (all_deps plugins) ->
    fold_left (fun acc dep => visit plugins f dep acc) l (V, O) = (V', O') ->
    (forall e, In e O -> In (pe_source e) V) -> topo_good plugins O -> topo_good plugins O'.
Proof.
  intros IH l. induction l as [|d l IHl]; intros V O V2 O2 Hl Hf Hi Hg; simpl in Hf.
  - injection Hf as <- <-. exact Hg.
  - destruct (visit plugins f d (V, O)) as [Va Oa] eqn:Ev.
    destruct (visit_basic plugins f d V O Va Oa Ev Hi) as (_ & _ & _ & Hia).
    exact (IHl Va Oa V2 O2 (proj2 (incl_cons_inv Hl)) Hf Hia (IH d V O Va Oa Ev Hi Hg)).
Qed.

Lemma visit_good (f : nat) :
  forall x V O V' O',
    visit plugins f x (V, O) = (V', O') ->
    (forall e, In e O -> In (pe_source e) V) -> topo_good plugins O -> topo_good plugins O'.
Proof.
  induction f as [|f IH]; intros x V O V' O' Hv Hi Hg.
  - simpl in Hv. injection Hv as _ <-. exact Hg.
  - simpl in Hv. destruct (mem x V) eqn:M; [injection Hv as _ <-; exact Hg|].
    apply mem_false_notin in M.
    destruct (bySource plugins x) as [p|] eqn:B; [|injection Hv as _ <-; exact Hg].
    pose proof B as B'. apply bySource_In in B' as [Ip Sp].
    destruct (fold_left (fun acc dep => visit plugins f dep acc) (deps p) (x :: V, O))
      as [V1 O1] eqn:F.
    injection Hv as _ <-.
    assert (Hd : incl (deps p) (all_deps plugins)).
    { intros d Id. unfold all_deps. apply in_flat_map. exists p. tauto. }
    assert (Hi0 : forall e, In e O -> In (pe_source e) (x :: V)).
    { intros e I. right. apply Hi, I. }
    destruct (fold_good_gen f IH (deps p) (x :: V) O V1 O1 Hd F Hi0 Hg) as [N1 B1].
    destruct (fold_visit_basic plugins f (deps p) (x :: V) O V1 O1 Hd F Hi0)
      as ([E [-> HE]] & _).
    split.
    + rewrite srcs_app. apply nodup_snoc; [exact N1|]. rewrite Sp. intros I.
      unfold srcs in I. rewrite map_app in I. apply in_app_iff in I as [I|I].
      * apply in_map_iff in I as (e & Ee & Ie). apply M. rewrite <- Ee. apply Hi, Ie.
      * apply in_map_iff in I as (e & Ee & Ie). apply (proj2 (HE e Ie)). rewrite Ee. left.
        reflexivity.
    + intros e I. apply in_app_iff in I as [I|[<-|[]]]; [apply B1, I|]. rewrite Sp. exact B.
Qed.

Lemma covered_grow (P V : list string) (O E : list PluginEntry) :
  topo_covered plugins P V O -> topo_covered plugins P V (O ++ E).
Proof.
  intros H s I Is. destruct (H s I Is) as [J|J]; [left|right; exact J].
  rewrite srcs_app. apply in_or_app. left. exact J.
Qed.

Lemma fold_cover_gen (f : nat) (P : list string) :
  (forall x V O V' O',
     visit plugins f x (V, O) = (V', O') ->
     (forall e, In e O -> In (pe_source e) V) -> topo_covered plugins P V O -> topo_covered plugins P V' O') ->
  forall l V O V' O',
    incl l (all_deps plugins) ->
    fold_left (fun acc dep => visit plugins f dep acc) l (V, O) = (V', O') ->
    (forall e, In e O -> In (pe_source e) V) -> topo_covered plugins P V O -> topo_covered plugins P V' O'.
Proof.
  intros IH l. induction l as [|d l IHl]; intros V O V2 O2 Hl Hf Hi Hc; simpl in Hf.
  - injection Hf as <- <-. exact Hc.
  - destruct (visit plugins f d (V, O)) as [Va Oa] eqn:Ev.
    destruct (visit_basic plugins f d V O Va Oa Ev Hi) as (_ & _ & _ & Hia).
    exact (IHl Va Oa V2 O2 (proj2 (incl_cons_inv Hl)) Hf Hia (IH d V O Va Oa Ev Hi Hc)).
Qed.

Lemma visit_cover (f : nat) :
  forall P x V O V' O',
    visit plugins f x (V, O) = (V', O') ->
    (forall e, In e O -> In (pe_source e) V) -> topo_covered plugins P V O -> topo_covered plugins P V' O'.
Proof.
  induction f as [|f IH]; intros P x V O V' O' Hv Hi Hc.
  - simpl in Hv. injection Hv as <- <-. exact Hc.
  - simpl in Hv. destruct (mem x V) eqn:M; [injection Hv as <- <-; exact Hc|].
    destruct (bySource plugins x) as [p|] eqn:B.
    2:{ injection Hv as <- <-.
        intros s [<-|I] Is; [exfalso; exact (bySource_none _ B Is) | exact (Hc s I Is)]. }
    apply bySource_In in B as [Ip Sp].
    destruct (fold_left (fun acc dep => visit plugins f dep acc) (deps p) (x :: V, O))
      as [V1 O1] eqn:F.
    injection Hv as <- <-.
    assert (Hd : incl (deps p) (all_deps plugins)).
    { intros d Id. unfold all_deps. apply in_flat_map. exists p. tauto. }
    assert (Hi0 : forall e, In e O -> In (pe_source e) (x :: V)).
    { intros e I. right. apply Hi, I. }
    assert (Hc0 : topo_covered plugins (x :: P) (x :: V) O).
    { intros s [<-|I] Is; [right; left; reflexivity|].
      destruct (Hc s I Is) as [J|J]; [left; exact J | right; right; exact J]. }
    pose proof (fold_cover_gen f (x :: P) (IH (x :: P)) (deps p) (x :: V) O V1 O1 Hd F Hi0 Hc0)
      as Hc1.
    intros s I Is. destruct (Hc1 s I Is) as [J|[<-|J]].
    + left. rewrite srcs_app. apply in_or_app. left. exact J.
    + left. rewrite srcs_app. apply in_or_app. right. left. exact Sp.
    + right. exact J.
Qed.

Lemma fold_incl (f : nat) :
  forall l V O, incl V (fst (fold_left (fun acc dep => visit plugins f dep acc) l (V, O))).
Proof.
  induction l as [|d l IHl]; intros V O; simpl; [apply incl_refl|].
  pose proof (visit_incl plugins f d V O) as H.
  destruct (visit plugins f d (V, O)) as [V2 O2]. simpl in H. exact (incl_tran H (IHl V2 O2)).
Qed.

Lemma top_fold_incl (f : nat) :
  forall l V O,
    incl V (fst (fold_left (fun acc p => visit plugins f (pe_source p) acc) l (V, O))).
Proof.
  induction l as [|q l IHl]; intros V O; simpl; [apply incl_refl|].
  pose proof (visit_incl plugins f (pe_source q) V O) as H.
  destruct (visit plugins f (pe_source q) (V, O)) as [V2 O2]. simpl in H.
  exact (incl_tran H (IHl V2 O2)).
Qed.

Lemma visit_mem (n : nat) (x : string) (V : list string) (O : list PluginEntry) :
  In x (fst (visit plugins (S n) x (V, O))).
Proof.
  simpl. destruct (mem x V) eqn:M; [apply mem_In; exact M|].
  destruct (bySource plugins x) as [p|]; [|left; reflexivity].
  pose proof (fold_incl n (deps p) (x :: V) O) as H.
  destruct (fold_left (fun acc dep => visit plugins n dep acc) (deps p) (x :: V, O))
    as [V1 O1].
  simpl in *. apply H. left. reflexivity.
Qed.

(** The outer loop keeps the pushed entries good and every visited input
    source pushed, and visits every source of the list it runs over. *)
Lemma top_total (n : nat) :
  forall l V O V' O',
    fold_left (fun acc p => visit plugins (S n) (pe_source p) acc) l (V, O) = (V', O') ->
    (forall e, In e O -> In (pe_source e) V) -> topo_good plugins O -> topo_covered plugins [] V O ->
    topo_good plugins O' /\ topo_covered plugins [] V' O' /\ incl (srcs l) V'.
Proof.
  induction l as [|q l IHl]; intros V O V2 O2 Hf Hi Hg Hc; cbn [fold_left] in Hf.
  - injection Hf as <- <-. split; [exact Hg|]. split; [exact Hc|]. intros s [].
  - destruct (visit plugins (S n) (pe_source q) (V, O)) as [Va Oa] eqn:Ev.
    pose proof (visit_mem n (pe_source q) V O) as Hm. rewrite Ev in Hm. simpl in Hm.
    destruct (visit_basic plugins (S n) _ V O Va Oa Ev Hi) as (_ & _ & _ & Hia).
    destruct (IHl Va Oa V2 O2 Hf Hia (visit_good _ _ V O Va Oa Ev Hi Hg)
                (visit_cover _ [] _ V O Va Oa Ev Hi Hc)) as (G & C & I).
    split; [exact G|]. split; [exact C|].
    intros s [<-|J]; [|apply I, J].
    pose proof (top_fold_incl (S n) l Va Oa) as H. rewrite Hf in H. apply H, Hm.
Qed.

End TopoTotal.

Section TopoTotalProps.

Import Topo.

Lemma topo_sort_total (plugins : list PluginEntry) :
  NoDup (srcs (topoSortPlugins plugins)) /\
  (forall e, In e (topoSortPlugins plugins) -> bySource plugins (pe_source e) = Some e) /\
  (forall s, In s (srcs (topoSortPlugins plugins)) <-> In s (srcs plugins)).
Proof.
  unfold topoSortPlugins.
  destruct (fold_left (fun acc p => visit plugins (S (List.length plugins)) (pe_source p) acc)
              plugins ([], [])) as [V O] eqn:F. simpl.
  destruct (top_total plugins (List.length plugins) plugins [] [] V O F) as ([N B] & C & I).
  - intros e [].
  - split; [constructor | intros e []].
  - intros s [].
  - split; [exact N|]. split; [exact B|]. intros s. split.
    + intros J. unfold srcs in J. apply in_map_iff in J as (e & <- & Ie).
      apply B in Ie. apply bySource_In in Ie as [Ie _]. apply in_map, Ie.
    + intros J. destruct (C s (I s J) J) as [K|[]]. exact K.
Qed.

(** X1. For every input, also one with repeated sources, dependencies that
    name no input entry, or dependency cycles, [topoSortPlugins] outputs
    each source of the input exactly once and nothing else; the entry
    output for a source is the one [new Map(...)] keeps, the last input
    entry with that source. *)
Theorem topoSort_each_source_once (plugins : list PluginEntry) :
  NoDup (srcs (topoSortPlugins plugins)) /\
  (forall e, In e (topoSortPlugins plugins) -> bySource plugins (pe_source e) = Some e) /\
  (forall s, In s (srcs (topoSortPlugins plugins)) <-> In s (srcs plugins)).
Proof. exact (topo_sort_total plugins). Qed.

End TopoTotalProps.

(** ** [installPlugins] and the plugin phase of [applyDiff] *)

Section AdapterProps.

Import Topo Adapter.

Lemma substring_all (s : string) : substring 0 (String.length s) s = s.
Proof. induction s as [|c s IH]; simpl; [reflexivity|]. rewrite IH. reflexivity. Qed.

Lemma replace_plugin_prefix (s : string) : str_replace_first "plugin:" "" ("plugin:" ++ s) = s.
Proof.
  assert (E : String.prefix "" s = true) by (destruct s; reflexivity).
  cbn. rewrite E. replace (String.length s - 0) with (String.length s) by lia.
  apply substring_all.
Qed.

Lemma nodup_map_filter {A B} (g : A -> B) (f : A -> bool) (l : list A) :
  NoDup (map g l) -> NoDup (map g (filter f l)).
Proof.
  induction l as [|a l IH]; simpl; intros N; [constructor|].
  inversion N as [|? ? Na Nl]; subst.
  destruct (f a); simpl; [|apply IH, Nl].
  constructor; [|apply IH, Nl].
  intros I. apply Na. apply in_map_iff in I as (b & Eb & Ib). apply filter_In in Ib as [Ib _].
  rewrite <- Eb. apply in_map, Ib.
Qed.

Lemma getAllPluginSources_srcs (rig : AgentRig) :
  Diff.getAllPluginSources rig = srcs (rig_plugins rig).
Proof.
  unfold Diff.getAllPluginSources, rig_plugins, srcs. rewrite !map_app.
  destruct (rig_core rig); reflexivity.
Qed.

(** The calls and results of [installPlugins] follow the output of the
    sort. *)
Lemma installPlugins_calls (run : list string -> bool * string) (rig : AgentRig) :
  let ordered := topoSortPlugins (rig_plugins rig) in
  fst (installPlugins run rig) = map install_args (srcs ordered) /\
  snd (installPlugins run rig) = map (plugin_result run) ordered /\
  map ir_component (snd (installPlugins run rig)) =
    map (fun s => ("plugin:" ++ s)%string) (srcs ordered) /\
  NoDup (srcs ordered) /\
  (forall s, In s (srcs ordered) <-> In s (Diff.getAllPluginSources rig)).
Proof.
  intros ordered. unfold installPlugins. cbv zeta. fold ordered.
  destruct (topo_sort_total (rig_plugins rig)) as (N & _ & S).
  fold ordered in N, S.
  split; [unfold srcs; rewrite map_map; reflexivity|].
  split; [reflexivity|].
  split.
  { cbn [snd]. unfold srcs. rewrite !map_map. apply map_ext. intros p.
    unfold plugin_result. destruct (run _). reflexivity. }
  split; [exact N|]. intros s. rewrite S, getAllPluginSources_srcs. reflexivity.
Qed.

Lemma filter_map_comm {A B} (f : B -> bool) (g : A -> B) (l : list A) :
  filter f (map g l) = map g (filter (fun x => f (g x)) l).
Proof. induction l as [|a l IH]; simpl; [reflexivity|]. destruct (f (g a)); simpl; congruence. Qed.

Lemma rig_plugins_partial (d : Diff.RigDiff) (rig : AgentRig) :
  rig_plugins (partial_plugins_rig d rig) =
  filter (fun p => mem (pe_source p) (Diff.pluginsAdded d)) (rig_plugins rig).
Proof.
  unfold rig_plugins, partial_plugins_rig. cbn [rig_core rig_required rig_recommended
    rig_infrastructure]. rewrite !filter_app.
  destruct (rig_core rig) as [c|]; simpl; [destruct (mem (pe_source c) _)|]; reflexivity.
Qed.

Lemma pluginsAdded_sources (state : RigState) (rig : AgentRig) (s : string) :
  In s (Diff.pluginsAdded (Diff.computeDiff state rig)) -> In s (Diff.getAllPluginSources rig).
Proof.
  unfold Diff.computeDiff. cbn [Diff.pluginsAdded]. intros I.
  apply filter_In in I as [I _]. apply js_set_In, I.
Qed.

Lemma js_set_aux_nodup (seen l : list string) : NoDup (js_set_aux seen l).
Proof.
  revert seen. induction l as [|x l IH]; intros seen; simpl; [constructor|].
  destruct (mem x seen); [apply IH|]. constructor; [|apply IH].
  rewrite js_set_aux_In. intros [_ N]. apply N. left. reflexivity.
Qed.

Lemma js_set_nodup (l : list string) : NoDup (js_set l).
Proof. apply js_set_aux_nodup. Qed.

(** X2. [installPlugins] calls [claude plugin install] once for each
    distinct source listed in the core, required, recommended and
    infrastructure tiers, whatever repetitions or dependency cycles the
    manifest has, and reports one result [plugin:<source>] per call, in
    the order of the calls. *)
Theorem installPlugins_one_call_per_source (run : list string -> bool * string) (rig : AgentRig) :
  exists ss,
    fst (installPlugins run rig) = map install_args ss /\ NoDup ss /\
    (forall s, In s ss <-> In s (Diff.getAllPluginSources rig)) /\
    map ir_component (snd (installPlugins run rig)) = map (fun s => ("plugin:" ++ s)%string) ss.
Proof.
  destruct (installPlugins_calls run rig) as (A & _ & C & N & S).
  eexists. split; [exact A|]. split; [exact N|]. split; [exact S | exact C].
Qed.

(** X3. The [plugins] list of the rig record that [installCommand] saves
    from the plugin results of the Claude Code adapter has no duplicate and
    names only sources listed in the manifest's plugin tiers. *)
Theorem install_record_plugins_distinct (run : list string -> bool * string) (rig : AgentRig)
    (sourceArg installedAt : string)
    (conflictResults mcpResults behavioralResults marketplaceResults : list InstallResult)
    (envProfilePath : option string) :
  let st := InstallState.assemble rig sourceArg installedAt (snd (installPlugins run rig))
              conflictResults mcpResults behavioralResults marketplaceResults envProfilePath in
  NoDup (rs_plugins st) /\ incl (rs_plugins st) (Diff.getAllPluginSources rig).
Proof.
  intros st. destruct (installPlugins_calls run rig) as (_ & R & _ & N & S).
  set (ordered := topoSortPlugins (rig_plugins rig)) in *.
  assert (E : rs_plugins st =
              map pe_source (filter (fun p => has_status Installed (plugin_result run p)) ordered)).
  { subst st. unfold InstallState.assemble. cbn [rs_plugins]. rewrite R, filter_map_comm, map_map.
    apply map_ext. intros p. unfold plugin_result. destruct (run _). cbn [ir_component].
    apply replace_plugin_prefix. }
  rewrite E. split; [apply nodup_map_filter, N|].
  intros s I. apply S. apply in_map_iff in I as (p & <- & I). apply filter_In in I as [I _].
  apply in_map, I.
Qed.

(** X4. The plugin phase of [applyDiff] (Claude Code adapter) calls
    [claude plugin install] exactly once for each source in
    [diff.pluginsAdded] and for no other source: the entries kept in the
    partial rig are sorted, their dependencies already installed are not
    installed again. *)
Theorem update_installs_exactly_added (run : list string -> bool * string)
    (state : RigState) (rig : AgentRig) :
  let d := Diff.computeDiff state rig in
  exists ss,
    fst (update_plugin_phase run d rig) = map install_args ss /\ NoDup ss /\
    (forall s, In s ss <-> In s (Diff.pluginsAdded d)).
Proof.
  intros d. unfold update_plugin_phase.
  destruct (Diff.nonempty (Diff.pluginsAdded d)) eqn:E.
  - destruct (installPlugins_calls run (partial_plugins_rig d rig)) as (A & _ & _ & N & S).
    eexists. split; [exact A|]. split; [exact N|]. intros s. rewrite S.
    rewrite getAllPluginSources_srcs, rig_plugins_partial. unfold srcs.
    rewrite in_map_iff. split.
    + intros (p & <- & I). apply filter_In in I as [_ I]. apply mem_In, I.
    + intros I. pose proof (pluginsAdded_sources state rig s I) as J.
      rewrite getAllPluginSources_srcs in J. unfold srcs in J.
      apply in_map_iff in J as (p & <- & J). exists p. split; [reflexivity|].
      apply filter_In. split; [exact J | apply mem_In, I].
  - exists []. split; [reflexivity|]. split; [constructor|].
    destruct (Diff.pluginsAdded d); [simpl; tauto | discriminate].
Qed.

(** X5. The lists of [computeDiff] built from sets have no duplicate even
    when the manifest or the stored record repeats a source, and no plugin
    or MCP server is both added and removed. *)
Theorem computeDiff_lists_distinct (state : RigState) (rig : AgentRig) :
  let d := Diff.computeDiff state rig in
  NoDup (Diff.pluginsAdded d) /\ NoDup (Diff.pluginsRemoved d) /\
  NoDup (Diff.conflictsRemoved d) /\
  NoDup (Diff.mcpAdded d) /\ NoDup (Diff.mcpRemoved d) /\
  (forall s, In s (Diff.pluginsAdded d) -> ~ In s (Diff.pluginsRemoved d)) /\
  (forall s, In s (Diff.mcpAdded d) -> ~ In s (Diff.mcpRemoved d)).
Proof.
  intros d. subst d. unfold Diff.computeDiff.
  cbn [Diff.pluginsAdded Diff.pluginsRemoved Diff.conflictsRemoved Diff.mcpAdded Diff.mcpRemoved].
  repeat split; try (apply NoDup_filter, js_set_nodup);
    intros s I J; apply filter_In in I as [I1 I2]; apply filter_In in J as [J1 J2];
    apply negb_true_iff, mem_false_notin in I2; apply I2; exact J1.
Qed.

End AdapterProps.

(** ** [resolveSource] *)

Section SourceProps.

Import Source.


Lemma span_fst_all (f : ascii -> bool) (s : string) : all_chars f (fst (span f s)) = true.
Proof.
  induction s as [|c s IH]; simpl; [reflexivity|].
  destruct (f c) eqn:E; [|reflexivity].
  destruct (span f s) as [a b]. simpl in *. unfold all_chars in *. simpl. rewrite E. exact IH.
Qed.

Lemma span_full (f : ascii -> bool) (s : string) : all_chars f s = true -> span f s = (s, ""%string).
Proof.
  induction s as [|c s IH]; simpl; [reflexivity|]. unfold all_chars. simpl.
  intros H. apply andb_prop in H as [H1 H2]. rewrite H1, IH by exact H2. reflexivity.
Qed.

Lemma span_app (f : ascii -> bool) (r t : string) :
  match t with EmptyString => True | String c _ => f c = false end ->
  span f (r ++ t) = (fst (span f r), (snd (span f r) ++ t)%string).
Proof.
  intros Ht. induction r as [|c r IH]; simpl.
  - destruct t as [|c t]; [reflexivity|]. simpl. rewrite Ht. reflexivity.
  - destruct (f c); [|reflexivity]. rewrite IH. destruct (span f r). reflexivity.
Qed.

Lemma strip_prefix_app (p s : string) : strip_prefix p (p ++ s) = Some s.
Proof. induction p as [|c p IH]; simpl; [destruct s; reflexivity|]. rewrite Ascii.eqb_refl. exact IH. Qed.

Lemma short_not_slash (s : string) : all_chars short_char s = true -> all_chars not_slash s = true.
Proof.
  unfold all_chars. rewrite !forallb_forall. intros H c I. specialize (H c I).
  unfold not_slash. destruct (Ascii.eqb_spec c "/"%char) as [->|_]; [discriminate H | reflexivity].
Qed.

Lemma nsd_not_slash (s : string) : all_chars not_slash_dot s = true -> all_chars not_slash s = true.
Proof.
  unfold all_chars. rewrite !forallb_forall. intros H c I. specialize (H c I).
  unfold not_slash_dot in H. unfold not_slash. destruct (Ascii.eqb c "/"%char); [discriminate H|].
  reflexivity.
Qed.

Lemma gh_url_match_facts (s o r : string) :
  gh_url_match s = Some (o, r) ->
  o <> ""%string /\ all_chars not_slash o = true /\ r <> ""%string /\ all_chars not_slash r = true.
Proof.
  unfold gh_url_match. intros G.
  destruct (match strip_prefix "https://github.com/" s with Some r => Some r
            | None => strip_prefix "http://github.com/" s end) as [r0|]; [|discriminate].
  destruct (span not_slash r0) as [ow r1] eqn:S1.
  destruct r1 as [|c r2]; [discriminate|].
  destruct (span not_slash_dot r2) as [rp x] eqn:S2.
  destruct (negb (String.eqb ow "") && negb (String.eqb rp "")) eqn:B; [|discriminate].
  injection G as <- <-. apply andb_prop in B as [B1 B2].
  apply negb_true_iff, String.eqb_neq in B1, B2.
  pose proof (span_fst_all not_slash r0) as A1. rewrite S1 in A1.
  pose proof (span_fst_all not_slash_dot r2) as A2. rewrite S2 in A2.
  split; [exact B1|]. split; [exact A1|]. split; [exact B2|]. apply nsd_not_slash, A2.
Qed.

Lemma short_match_facts (s o r : string) :
  short_match s = Some (o, r) ->
  o <> ""%string /\ all_chars not_slash o = true /\ r <> ""%string /\ all_chars not_slash r = true.
Proof.
  unfold short_match. intros G.
  destruct (span short_char s) as [ow r1] eqn:S1.
  destruct r1 as [|c r2]; [discriminate|].
  destruct (Ascii.eqb c "/"%char && negb (String.eqb ow "") && negb (String.eqb r2 "")
            && forallb short_char (list_ascii_of_string r2)) eqn:B; [|discriminate].
  injection G as <- <-. apply andb_prop in B as [B B4]. apply andb_prop in B as [B B3].
  apply andb_prop in B as [_ B2]. apply negb_true_iff, String.eqb_neq in B2, B3.
  pose proof (span_fst_all short_char s) as A1. rewrite S1 in A1.
  split; [exact B2|]. split; [apply short_not_slash, A1|]. split; [exact B3|].
  apply short_not_slash, B4.
Qed.

Lemma resolveSource_github_facts (existsSync : string -> bool) (input o r u : string) :
  resolveSource existsSync input = GitHubSource o r u ->
  u = github_url o r /\ o <> ""%string /\ all_chars not_slash o = true /\
  all_chars not_slash r = true.
Proof.
  unfold resolveSource. intros H.
  destruct (String.prefix "/" input || String.prefix "./" input || String.prefix "../" input);
    [discriminate|].
  destruct (gh_url_match input) as [[o' r']|] eqn:G.
  - injection H as <- <- <-. destruct (gh_url_match_facts _ _ _ G) as (A & B & _ & D). tauto.
  - destruct (existsSync input); [discriminate|].
    destruct (short_match input) as [[o' r']|] eqn:S; [|discriminate].
    injection H as <- <- <-. destruct (short_match_facts _ _ _ S) as (A & B & _ & D). tauto.
Qed.

(** The URL of a GitHub source is matched by the URL pattern: the owner
    back, the repository name cut at its first dot. *)
Lemma gh_url_match_url (o r : string) :
  o <> ""%string -> all_chars not_slash o = true ->
  gh_url_match (github_url o r) =
  (let r' := fst (span not_slash_dot r) in
   if String.eqb r' "" then None else Some (o, r')).
Proof.
  intros Ho Ao. unfold gh_url_match, github_url. rewrite strip_prefix_app.
  rewrite span_app by reflexivity. rewrite span_full by exact Ao. cbn [fst snd append].
  rewrite span_app by reflexivity.
  destruct (span not_slash_dot r) as [r' x]. cbn [fst snd].
  apply String.eqb_neq in Ho. rewrite Ho. simpl.
  destruct (String.eqb r' ""); reflexivity.
Qed.

(** X6. Resolving again the URL of a GitHub source gives the same owner and
    the repository name cut at its first dot, whatever is on disk: a
    shorthand [owner/my.repo] comes back as repository [my], and one whose
    repository name starts with a dot comes back as a local path. *)
Theorem resolveSource_url_round_trip (existsSync existsSync' : string -> bool)
    (input owner repo url : string) :
  resolveSource existsSync input = GitHubSource owner repo url ->
  url = github_url owner repo /\
  resolveSource existsSync' url =
    (let repo' := fst (span not_slash_dot repo) in
     if String.eqb repo' "" then LocalSource url
     else GitHubSource owner repo' (github_url owner repo')).
Proof.
  intros H. destruct (resolveSource_github_facts _ _ _ _ _ H) as (-> & Ho & Ao & _).
  split; [reflexivity|]. unfold resolveSource.
  change (String.prefix "/" (github_url owner repo) || String.prefix "./" (github_url owner repo)
          || String.prefix "../" (github_url owner repo)) with false.
  cbv iota. rewrite (gh_url_match_url owner repo Ho Ao). cbv zeta.
  destruct (String.eqb (fst (span not_slash_dot repo)) "").
  - destruct (existsSync' (github_url owner repo)); reflexivity.
  - reflexivity.
Qed.

Lemma resolveSource_url_round_trip_witness :
  resolveSource (fun _ => false) "user/my.repo" =
    GitHubSource "user" "my.repo" (github_url "user" "my.repo") /\
  resolveSource (fun _ => false) (github_url "user" "my.repo") =
    GitHubSource "user" "my" (github_url "user" "my").
Proof.
  split; [reflexivity|].
  exact (proj2 (resolveSource_url_round_trip (fun _ => false) (fun _ => false)
                  "user/my.repo" "user" "my.repo" (github_url "user" "my.repo") eq_refl)).
Defined.

End SourceProps.

(** ** The env block of a shell profile *)

Section EnvMore.

Import EnvBlock.

Lemma prefixb_split (p s : text) : prefixb p s = true -> s = p ++ skipn (List.length p) s.
Proof.
  revert s. induction p as [|a p IH]; intros s H; [reflexivity|].
  destruct s as [|c s]; [discriminate|]. cbn [prefixb] in H. apply andb_prop in H as [H1 H2].
  apply Ascii.eqb_eq in H1. subst c. simpl. f_equal. exact (IH s H2).
Qed.

(** The first occurrence of a non-empty [p] in [s]. *)
Lemma first_occ (p s : text) :
  p <> [] -> includes p s = true ->
  exists x r, s = x ++ p ++ r /\ occurrences p x = 0.
Proof.
  intros Hp. induction s as [|c s IH]; intros H.
  - cbn [includes] in H. rewrite orb_false_r in H.
    exists [], (skipn (List.length p) []). split; [exact (prefixb_split p [] H)|].
    destruct p; [congruence | reflexivity].
  - cbn [includes] in H. destruct (prefixb p (c :: s)) eqn:E.
    + exists [], (skipn (List.length p) (c :: s)). split; [exact (prefixb_split _ _ E)|].
      destruct p; [congruence | reflexivity].
    + destruct (IH H) as [x [r [-> Hx]]]. exists (c :: x), r. split; [reflexivity|].
      rewrite occurrences_cons, Hx.
      destruct (prefixb p (c :: x)) eqn:F; [|reflexivity].
      pose proof (prefixb_app_l _ _ (p ++ r) F) as G. cbn [app] in G. congruence.
Qed.

Lemma lazy_until_none (e s : text) : occurrences e s = 0 -> lazy_until e s = None.
Proof.
  induction s as [|c s IH]; intros H.
  - cbn [lazy_until]. rewrite (occurrences_zero_prefixb e [] [] H). reflexivity.
  - cbn [lazy_until]. rewrite (occurrences_zero_prefixb e [] (c :: s) H).
    apply IH. pose proof (occurrences_suffix_le e [c] s). cbn [app] in H0. lia.
Qed.

Lemma skipn_occurrences (p s : text) (n : nat) : occurrences p (skipn n s) <= occurrences p s.
Proof.
  rewrite <- (firstn_skipn n s) at 2. apply occurrences_suffix_le.
Qed.

Lemma search_none (m : text -> option text) (s : text) :
  (forall y w, s = y ++ w -> m w = None) -> search m s = None.
Proof.
  induction s as [|c s IH]; intros H.
  - cbn [search]. rewrite (H [] [] eq_refl). reflexivity.
  - cbn [search]. rewrite (H [] (c :: s) eq_refl).
    rewrite IH; [reflexivity|]. intros y w E. apply (H (c :: y) w). rewrite E. reflexivity.
Qed.

Lemma js_replace_none (m : text -> option text) (rep s : text) :
  search m s = None -> js_replace m rep s = s.
Proof. intros H. unfold js_replace. rewrite H. reflexivity. Qed.

Lemma get_substitution_prefix (p r bf mt af : text) :
  ~ In "$"%char p -> get_substitution (p ++ r) bf mt af = p ++ get_substitution r bf mt af.
Proof.
  induction p as [|c p IH]; intros Hp; [reflexivity|].
  assert (E : Ascii.eqb c "$"%char = false)
    by (apply Ascii.eqb_neq; intros ->; apply Hp; left; reflexivity).
  rewrite <- app_comm_cons. destruct (p ++ r) as [|c2 t] eqn:Ept.
  - apply app_eq_nil in Ept as [-> ->]. reflexivity.
  - transitivity (c :: get_substitution (c2 :: t) bf mt af).
    + cbn [get_substitution]. rewrite E. reflexivity.
    + rewrite IH; [reflexivity|]. intros I; apply Hp; right; exact I.
Qed.

(** No match of the block pattern in a text without the end marker. *)
Lemma match_block_no_end (b e s : text) : occurrences e s = 0 -> match_block b e s = None.
Proof.
  intros H. unfold match_block. destruct (prefixb b s); [|reflexivity].
  apply lazy_until_none. pose proof (skipn_occurrences e s (List.length b)). lia.
Qed.

(** The first begin marker of [x ++ begin ++ r] with no end marker after it
    is never matched by the pattern of [writeEnvBlock]. *)
Lemma search_stuck (tb te x r : text) :
  ~ In "#"%char tb ->
  occurrences ("#"%char :: tb) x = 0 -> occurrences ("#"%char :: te) r = 0 ->
  search (match_block ("#"%char :: tb) ("#"%char :: te)) (x ++ ("#"%char :: tb) ++ r) = None.
Proof.
  intros Hb Hx Hr. set (m := match_block ("#"%char :: tb) ("#"%char :: te)).
  rewrite search_skip.
  2:{ intros y0 w -> Hw. apply match_block_none. cbn [app].
      rewrite prefixb_junction by (exact Hb || exact Hw).
      exact (occurrences_zero_prefixb _ y0 w Hx). }
  assert (Here : m (("#"%char :: tb) ++ r) = None).
  { unfold m, match_block. rewrite prefixb_self, skipn_length_app.
    apply lazy_until_none, Hr. }
  cbn [app search]. cbn [app] in Here. rewrite Here.
  rewrite search_skip.
  2:{ intros y0 w -> Hw. destruct w as [|d w]; [congruence|].
      apply match_block_none. cbn [app prefixb].
      destruct (Ascii.eqb_spec "#"%char d) as [<-|_]; [|reflexivity].
      exfalso. apply Hb. apply in_app_iff. right. left. reflexivity. }
  rewrite search_none; [reflexivity|].
  intros y w ->. apply match_block_no_end.
  pose proof (occurrences_suffix_le ("#"%char :: te) y w). lia.
Qed.

(** A profile [x ++ begin ++ r] whose first begin marker has no end marker
    after it is written back unchanged. *)
Lemma write_stuck (name : string) (env : list (string * string)) (shell : ShellName)
    (x r : text) :
  valid_rig_name name = true ->
  occurrences (BEGIN_TAG name) x = 0 -> occurrences (END_TAG name) r = 0 ->
  writeEnvBlock name env shell (Some (x ++ BEGIN_TAG name ++ r)) = x ++ BEGIN_TAG name ++ r.
Proof.
  intros V Hx Hr. unfold writeEnvBlock. cbv zeta.
  rewrite includes_of_occurrences.
  2:{ pose proof (prefixb_occurrences _ _ (prefixb_self (BEGIN_TAG name) r)).
      pose proof (occurrences_suffix_le (BEGIN_TAG name) x (BEGIN_TAG name ++ r)). lia. }
  destruct (marker_shape name _ V (or_introl eq_refl)) as [tb [Eb [Hb _]]].
  destruct (marker_shape name _ V (or_intror eq_refl)) as [te [Ee _]].
  apply js_replace_none. rewrite Eb, Ee in *. apply search_stuck; assumption.
Qed.

(** A block just written, [x ++ block ++ z] with no begin marker in [x], is
    replaced by itself. *)
Lemma write_block_again (name : string) (env : list (string * string)) (shell : ShellName)
    (x z : text) :
  valid_rig_name name = true -> forallb (plain_env_line name shell) env = true ->
  occurrences (BEGIN_TAG name) x = 0 ->
  writeEnvBlock name env shell (Some (x ++ formatEnvBlock name env shell ++ z)) =
  x ++ formatEnvBlock name env shell ++ z.
Proof.
  intros V P Hx.
  set (M := List.concat (map (fun y => y ++ nl) (map (env_line shell) env))).
  assert (R : x ++ formatEnvBlock name env shell ++ z =
              x ++ BEGIN_TAG name ++ (nl ++ M) ++ END_TAG name ++ z)
    by (unfold M; rewrite formatEnvBlock_shape, <- !app_assoc; reflexivity).
  rewrite R at 1.
  apply write_replace; try assumption.
  apply (body_counts name shell env); auto.
  intros l Il. apply (plain_lines name shell env P l Il).
Qed.

(** X7. For a rig name allowed by the schema and env lines with neither
    marker of the rig nor [$], writing the same env a second time leaves the
    profile as the first write made it, whatever the profile was before
    (missing, without a block, with a block, or with a begin marker and no
    end marker after it). *)
Theorem writeEnvBlock_idempotent (name : string) (env : list (string * string)) (shell : ShellName)
    (p : option text) :
  valid_rig_name name = true -> forallb (plain_env_line name shell) env = true ->
  writeEnvBlock name env shell (Some (writeEnvBlock name env shell p)) =
  writeEnvBlock name env shell p.
Proof.
  intros V P.
  destruct (marker_shape name _ V (or_introl eq_refl)) as [tb [Eb [_ [Hbn _]]]].
  destruct p as [c|].
  2:{ change (writeEnvBlock name env shell None) with ([] ++ formatEnvBlock name env shell ++ nl).
      apply write_block_again; [exact V | exact P | rewrite Eb; reflexivity]. }
  destruct (includes (BEGIN_TAG name) c) eqn:Hc.
  - destruct (first_occ (BEGIN_TAG name) c ltac:(rewrite Eb; discriminate) Hc) as [x [r [-> Hx]]].
    destruct (includes (END_TAG name) r) eqn:Hr.
    + assert (HE : END_TAG name <> []) by (unfold END_TAG; discriminate).
      destruct (first_occ _ _ HE Hr) as [y [z [-> Hy]]].
      rewrite write_replace by assumption. apply write_block_again; assumption.
    + apply includes_occurrences in Hr. rewrite !write_stuck by assumption. reflexivity.
  - rewrite (write_append name env shell c Hc).
    replace (trimEnd c ++ nl ++ nl ++ formatEnvBlock name env shell ++ nl)
      with ((trimEnd c ++ nl ++ nl) ++ formatEnvBlock name env shell ++ nl)
      by (rewrite <- !app_assoc; reflexivity).
    apply write_block_again; [exact V | exact P|].
    apply includes_occurrences in Hc. destruct (trimEnd_prefix c) as [u Hu].
    pose proof (occurrences_prefix_le (BEGIN_TAG name) (trimEnd c) u) as L.
    rewrite <- Hu in L. rewrite Eb in *.
    rewrite occurrences_app_nl by exact Hbn. change (occurrences ("#"%char :: tb) nl) with 0. lia.
Qed.


Lemma writeEnvBlock_idempotent_witness :
  valid_rig_name "demo" = true /\ forallb (plain_env_line "demo" Bash) [("X", "1")] = true /\
  writeEnvBlock "demo" [("X", "1")] Bash
    (Some (writeEnvBlock "demo" [("X", "1")] Bash (Some (txt "a")))) =
  writeEnvBlock "demo" [("X", "1")] Bash (Some (txt "a")).
Proof.
  split; [reflexivity|]. split; [reflexivity|].
  exact (writeEnvBlock_idempotent "demo" [("X", "1")] Bash (Some (txt "a")) eq_refl eq_refl).
Defined.

Lemma includes_here (p s : text) : prefixb p s = true -> includes p s = true.
Proof. intros H. destruct s; cbn [includes]; rewrite H; reflexivity. Qed.

Lemma includes_suffix (p y s : text) : includes p s = true -> includes p (y ++ s) = true.
Proof.
  induction y as [|c y IH]; intros H; [exact H|].
  rewrite <- app_comm_cons. cbn [includes]. rewrite IH by exact H. apply orb_true_r.
Qed.

Lemma includes_block (name : string) (env : list (string * string)) (shell : ShellName) (y z : text) :
  includes (BEGIN_TAG name) (y ++ formatEnvBlock name env shell ++ z) = true.
Proof.
  apply includes_suffix, includes_here. rewrite formatEnvBlock_shape, <- app_assoc.
  apply prefixb_self.
Qed.

(** X8. For a rig name allowed by the schema, [hasEnvBlock] finds the block
    in what [writeEnvBlock] wrote, for any env values (also ones holding a
    marker or [$] patterns) and any profile before the write. *)
Theorem hasEnvBlock_after_write (name : string) (env : list (string * string))
    (shell : ShellName) (p : option text) :
  valid_rig_name name = true ->
  hasEnvBlock name (Some (writeEnvBlock name env shell p)) = true.
Proof.
  intros V. unfold hasEnvBlock.
  destruct p as [c|].
  - unfold writeEnvBlock. cbv zeta. destruct (includes (BEGIN_TAG name) c) eqn:Hc.
    + unfold js_replace. destruct (search _ c) as [[[b mt] a]|]; [|exact Hc].
      destruct (marker_shape name _ V (or_introl eq_refl)) as [tb [Eb [_ [_ Hbd]]]].
      rewrite formatEnvBlock_shape, get_substitution_prefix.
      * apply includes_suffix, includes_here. rewrite <- app_assoc. apply prefixb_self.
      * rewrite Eb. intros [I|I]; [discriminate I | exact (Hbd I)].
    + rewrite !app_assoc. rewrite <- (app_assoc _ (formatEnvBlock name env shell) nl).
      apply includes_block.
  - exact (includes_block name env shell [] nl).
Qed.

Lemma hasEnvBlock_after_write_witness :
  valid_rig_name "demo" = true /\
  hasEnvBlock "demo" (Some (writeEnvBlock "demo" [("X", "$&")] Bash (Some (txt "a")))) = true.
Proof.
  split; [reflexivity|].
  exact (hasEnvBlock_after_write "demo" [("X", "$&")] Bash (Some (txt "a")) eq_refl).
Defined.

(** X9. For a rig name allowed by the schema, a profile holding the begin
    marker of the rig but no end marker is left unchanged by
    [writeEnvBlock] (the env is not written), and [removeEnvBlock] removes
    nothing from it but still normalises its newlines and returns [true]. *)
Theorem envBlock_begin_without_end (name : string) (env : list (string * string))
    (shell : ShellName) (c : text) :
  valid_rig_name name = true ->
  includes (BEGIN_TAG name) c = true -> occurrences (END_TAG name) c = 0 ->
  writeEnvBlock name env shell (Some c) = c /\
  removeEnvBlock name (Some c) = (Some (trimEnd (collapse_newlines c) ++ nl), true).
Proof.
  intros V Hc He. split.
  - assert (HB : BEGIN_TAG name <> []) by (unfold BEGIN_TAG; discriminate).
    destruct (first_occ _ _ HB Hc) as [x [r [E Hx]]].
    rewrite E in He |- *. apply write_stuck; [exact V | exact Hx|].
    pose proof (occurrences_suffix_le (END_TAG name) x (BEGIN_TAG name ++ r)).
    pose proof (occurrences_suffix_le (END_TAG name) (BEGIN_TAG name) r). lia.
  - unfold removeEnvBlock. cbv zeta. rewrite Hc. cbn [negb].
    rewrite js_replace_none; [reflexivity|].
    apply search_none. intros y w ->.
    pose proof (occurrences_suffix_le (END_TAG name) y w).
    apply match_block_nl_none.
    + apply match_block_no_end. lia.
    + intros d r -> _. apply match_block_no_end.
      pose proof (occurrences_suffix_le (END_TAG name) [d] r). cbn [app] in *. lia.
Qed.

Lemma envBlock_begin_without_end_witness :
  writeEnvBlock "demo" [("X", "1")] Bash (Some (BEGIN_TAG "demo" ++ txt "x")) =
    BEGIN_TAG "demo" ++ txt "x" /\
  removeEnvBlock "demo" (Some (BEGIN_TAG "demo" ++ txt "x")) =
    (Some (BEGIN_TAG "demo" ++ txt "x" ++ nl), true).
Proof.
  exact (envBlock_begin_without_end "demo" [("X", "1")] Bash (BEGIN_TAG "demo" ++ txt "x")
           eq_refl eq_refl eq_refl).
Defined.

(** X10. For a rig name allowed by the schema and env lines without the end
    marker of the rig, removing the block from a profile that
    [writeEnvBlock] created leaves a profile holding one newline, and
    [removeEnvBlock] returns [true]. *)
Theorem envBlock_create_then_remove (name : string) (env : list (string * string))
    (shell : ShellName) :
  valid_rig_name name = true ->
  (forall kv, In kv env -> includes (END_TAG name) (env_line shell kv) = false) ->
  removeEnvBlock name (Some (writeEnvBlock name env shell None)) = (Some nl, true).
Proof.
  intros V Henv.
  destruct (marker_shape name _ V (or_introl eq_refl)) as [tb [Eb [Hb _]]].
  destruct (marker_shape name _ V (or_intror eq_refl)) as [te [Ee [He _]]].
  set (M := List.concat (map (fun y => y ++ nl) (map (env_line shell) env))).
  assert (Hey : occurrences (END_TAG name) (nl ++ M) = 0).
  { apply (body_counts name shell env); [exact V | right; reflexivity |].
    intros l Il. apply in_map_iff in Il as [kv [<- Ikv]].
    apply includes_occurrences. exact (Henv kv Ikv). }
  unfold removeEnvBlock. cbv zeta.
  replace (includes (BEGIN_TAG name) (writeEnvBlock name env shell None)) with true
    by (symmetry; exact (includes_block name env shell [] nl)).
  cbn [negb].
  change (writeEnvBlock name env shell None) with (formatEnvBlock name env shell ++ nl).
  replace (formatEnvBlock name env shell ++ nl)
    with ([] ++ BEGIN_TAG name ++ (nl ++ M) ++ END_TAG name ++ nl)
    by (unfold M; rewrite formatEnvBlock_shape, <- !app_assoc; reflexivity).
  rewrite Eb, Ee in *. rewrite remove_block_nonl.
  - reflexivity.
  - exact Hb.
  - exact He.
  - intros x0 E. exact (app_cons_not_nil x0 [] newline E).
  - reflexivity.
  - exact Hey.
Qed.

Lemma envBlock_create_then_remove_witness :
  valid_rig_name "demo" = true /\
  removeEnvBlock "demo" (Some (writeEnvBlock "demo" [("X", "1")] Bash None)) = (Some nl, true).
Proof.
  split; [reflexivity|].
  refine (envBlock_create_then_remove "demo" [("X", "1")] Bash eq_refl _).
  intros kv [<- | []]. reflexivity.
Defined.

End EnvMore.

(** ** [installBehavioral] and the pointer removal of [uninstallCommand] *)

Section BehavioralMore.

Import EnvBlock BehavioralInstall Pointer.

Lemma root_ne_dest (rigName : string) (a a' : Asset) :
  In a assets -> In a' assets -> String.eqb (dest_path rigName a') (a_targetFilename a) = false.
Proof. intros [<-|[<-|[]]] [<-|[<-|[]]]; reflexivity. Qed.

Lemma assoc_set_In (k v p h : string) (l : list (string * string)) :
  NoDup (map fst l) -> In (p, h) (assoc_set k v l) ->
  (p = k /\ h = v) \/ (In (p, h) l /\ p <> k).
Proof.
  induction l as [|[k' v'] r IH]; simpl; intros Nd I.
  - destruct I as [E|[]]. injection E as <- <-. left; tauto.
  - inversion Nd as [|? ? Nk Nr]; subst.
    destruct (String.eqb_spec k k') as [<-|D].
    + destruct I as [E|I]; [injection E as <- <-; left; tauto|].
      right. split; [right; exact I|]. intros E. apply Nk. apply in_map_iff.
      exists (p, h). split; [exact E | exact I].
    + destruct I as [E|I].
      * injection E as <- <-. right. split; [left; reflexivity | intros ->; apply D; reflexivity].
      * destruct (IH Nr I) as [H|[H1 H2]]; [left; exact H | right; tauto].
Qed.

Lemma assoc_set_nodup (k v : string) (l : list (string * string)) :
  NoDup (map fst l) -> NoDup (map fst (assoc_set k v l)).
Proof.
  induction l as [|[k' v'] r IH]; simpl; intros Nd.
  - constructor; [intros []|constructor].
  - inversion Nd as [|? ? Nk Nr]; subst.
    destruct (String.eqb_spec k k') as [<-|D]; simpl; [exact Nd|].
    constructor; [|exact (IH Nr)].
    rewrite keys_assoc_set. intros [E|I]; [apply D; symmetry; exact E | exact (Nk I)].
Qed.

(** What one iteration does to the files, the hashes and the pointers: either
    nothing, or it writes the destination, records its hash, and prepends the
    pointer line to the root file unless the tag is already there. *)
Lemma asset_step_effect (sha256 : text -> string) beh rigName rigDir hashes acc asset :
  In asset assets ->
  let acc' := asset_step sha256 beh rigName rigDir hashes acc asset in
  let dest := dest_path rigName asset in
  let root := a_targetFilename asset in
  (acc_files acc' = acc_files acc /\ acc_fileHashes acc' = acc_fileHashes acc) \/
  (exists content,
     acc_fileHashes acc' = assoc_set dest (sha256 content) (acc_fileHashes acc) /\
     acc_files acc' dest = Some content /\
     (forall p, p <> dest -> p <> root -> acc_files acc' p = acc_files acc p) /\
     ((includes (txt (pointer_tag rigName)) (root_content (acc_files acc) root) = true /\
       acc_files acc' root = acc_files acc root) \/
      (includes (txt (pointer_tag rigName)) (root_content (acc_files acc) root) = false /\
       acc_files acc' root =
         Some (txt (pointer_line rigName asset) ++ nl ++ nl ++ root_content (acc_files acc) root)))).
Proof.
  intros Ha acc' dest root. subst acc' dest root.
  pose proof (root_not_dest rigName asset Ha) as Rd.
  assert (Nd : forall p, p <> dest_path rigName asset -> String.eqb p (dest_path rigName asset) = false)
    by (intros p D; apply String.eqb_neq; exact D).
  assert (Nr : forall p, p <> a_targetFilename asset -> String.eqb p (a_targetFilename asset) = false)
    by (intros p D; apply String.eqb_neq; exact D).
  unfold root_content, pointer_line, pointer_tag, asset_step.
  destruct (config_of beh (a_key asset)) as [config|]; [|left; tauto].
  destruct (acc_files acc (path_join rigDir (bc_source config))) as [content|]; [|left; simpl; tauto].
  destruct (locally_modified _ _ _ _ _); [left; simpl; tauto|].
  right. exists content. cbv zeta.
  assert (Rc : update_file (acc_files acc) (dest_path rigName asset) content (a_targetFilename asset)
               = acc_files acc (a_targetFilename asset)).
  { unfold update_file. rewrite String.eqb_sym, Rd. reflexivity. }
  rewrite Rc.
  destruct (includes _ (match acc_files acc (a_targetFilename asset) with
                        | Some c => c | None => [] end)) eqn:Hi;
    destruct (bc_dependedOnBy config); cbn [acc_files acc_fileHashes]; unfold update_file;
    rewrite ?String.eqb_refl, ?Rd;
    (split; [reflexivity|]); (split; [reflexivity|]);
    (split; [intros p D1 D2; rewrite ?Nd, ?Nr by assumption; reflexivity|]);
    [left | left | right | right]; rewrite ?String.eqb_refl, ?Rd, ?(String.eqb_sym (a_targetFilename asset)), ?Rd;
    (split; reflexivity).
Qed.


Lemma asset_step_hashes (sha256 : text -> string) beh rigName rigDir hashes acc asset :
  In asset assets -> hashes_on_disk sha256 rigName acc ->
  hashes_on_disk sha256 rigName (asset_step sha256 beh rigName rigDir hashes acc asset).
Proof.
  intros Ha [Nd H].
  destruct (asset_step_effect sha256 beh rigName rigDir hashes acc asset Ha)
    as [[F E] | (content & E & Fd & Fo & _)].
  - split; rewrite ?E; [exact Nd|]. intros p h I. rewrite F. exact (H p h I).
  - split; rewrite E; [apply assoc_set_nodup, Nd|].
    intros p h I. apply (assoc_set_In _ _ _ _ _ Nd) in I as [[-> ->] | [I D]].
    + split; [exists content; tauto | exists asset; tauto].
    + destruct (H p h I) as [[c [Fc Sc]] [a' [Ia' ->]]].
      split; [|exists a'; tauto]. exists c. split; [|exact Sc].
      rewrite Fo; [exact Fc | exact D|].
      intros R. pose proof (root_ne_dest rigName asset a' Ha Ia') as Q.
      rewrite R, String.eqb_refl in Q. discriminate Q.
Qed.

Lemma fold_hashes (sha256 : text -> string) beh rigName rigDir hashes (l : list Asset) acc :
  incl l assets -> hashes_on_disk sha256 rigName acc ->
  hashes_on_disk sha256 rigName
    (fold_left (asset_step sha256 beh rigName rigDir hashes) l acc).
Proof.
  revert acc. induction l as [|a l IH]; intros acc Hl H; [exact H|].
  simpl. apply IH; [exact (proj2 (incl_cons_inv Hl))|].
  apply asset_step_hashes; [exact (proj1 (incl_cons_inv Hl)) | exact H].
Qed.

(** X11. After [installBehavioral] for a rig with behavioral assets, the
    [fileHashes] of the sidecar it writes has no repeated path, every path
    in it is the destination of an asset, and the hash recorded for a path
    is the hash of the content that path holds after the call. *)
Theorem installBehavioral_hashes_match_files (sha256 : text -> string) rig beh rigDir now w :
  rig_behavioral rig = Some beh ->
  let w' := fst (installBehavioral sha256 rig rigDir now w) in
  let hs := load_manifest_hashes (w_sidecars w') (manifest_path (rig_name rig)) in
  NoDup (map fst hs) /\
  forall p h, In (p, h) hs ->
    (exists a, In a assets /\ p = dest_path (rig_name rig) a) /\
    exists c, w_files w' p = Some c /\ sha256 c = h.
Proof.
  intros Hb w' hs. subst w' hs. unfold installBehavioral. rewrite Hb. cbv zeta.
  cbn [fst w_sidecars w_files]. unfold load_manifest_hashes. rewrite String.eqb_refl.
  cbn [sc_fileHashes].
  match goal with |- context [fold_left ?f assets ?i] =>
    destruct (fold_hashes sha256 beh (rig_name rig) rigDir
                (load_manifest_hashes (w_sidecars w) (manifest_path (rig_name rig)))
                assets i (incl_refl _)) as [Nd H] end.
  - split; [constructor | intros p h []].
  - split; [exact Nd|]. intros p h I. destruct (H p h I) as [A B]. tauto.
Qed.

Lemma installBehavioral_hashes_match_files_witness :
  let w' := fst (installBehavioral BehavioralSample.demo_sha BehavioralSample.demo_rig "clone" "t1"
                   BehavioralSample.demo_world) in
  let hs := load_manifest_hashes (w_sidecars w') (manifest_path "demo") in
  NoDup (map fst hs) /\
  forall p h, In (p, h) hs ->
    (exists a, In a assets /\ p = dest_path "demo" a) /\
    exists c, w_files w' p = Some c /\ BehavioralSample.demo_sha c = h.
Proof.
  exact (installBehavioral_hashes_match_files BehavioralSample.demo_sha BehavioralSample.demo_rig
           BehavioralSample.demo_beh "clone" "t1" BehavioralSample.demo_world eq_refl).
Defined.


Lemma asset_step_other (sha256 : text -> string) beh rigName rigDir hashes acc asset (p : string) :
  In asset assets -> p <> dest_path rigName asset -> p <> a_targetFilename asset ->
  acc_files (asset_step sha256 beh rigName rigDir hashes acc asset) p = acc_files acc p.
Proof.
  intros Ha D1 D2.
  destruct (asset_step_effect sha256 beh rigName rigDir hashes acc asset Ha)
    as [[F _] | (content & _ & _ & Fo & _)]; [rewrite F; reflexivity | exact (Fo p D1 D2)].
Qed.

Lemma asset_step_root (sha256 : text -> string) beh rigName rigDir hashes acc asset :
  In asset assets ->
  let f := a_targetFilename asset in
  acc_files (asset_step sha256 beh rigName rigDir hashes acc asset) f = acc_files acc f \/
  (includes (txt (pointer_tag rigName)) (root_content (acc_files acc) f) = false /\
   acc_files (asset_step sha256 beh rigName rigDir hashes acc asset) f =
     Some (txt (pointer_line rigName asset) ++ nl ++ nl ++ root_content (acc_files acc) f)).
Proof.
  intros Ha f. subst f.
  destruct (asset_step_effect sha256 beh rigName rigDir hashes acc asset Ha)
    as [[F _] | (content & _ & _ & _ & [[_ R] | R])]; [rewrite F | | ]; tauto.
Qed.

Lemma root_after_two (sha256 : text -> string) beh rigName rigDir hashes acc (a b : Asset) :
  In a assets -> In b assets -> a_targetFilename a <> a_targetFilename b ->
  let step := asset_step sha256 beh rigName rigDir hashes in
  let acc2 := step (step acc a) b in
  forall x, x = a \/ x = b ->
    acc_files acc2 (a_targetFilename x) = acc_files acc (a_targetFilename x) \/
    (includes (txt (pointer_tag rigName)) (root_content (acc_files acc) (a_targetFilename x)) = false /\
     acc_files acc2 (a_targetFilename x) =
       Some (txt (pointer_line rigName x) ++ nl ++ nl ++ root_content (acc_files acc) (a_targetFilename x))).
Proof.
  intros Ia Ib Dab step acc2 x Hx. subst step acc2.
  assert (Nd : forall c d, In c assets -> In d assets -> a_targetFilename c <> dest_path rigName d).
  { intros c d Ic Id E. pose proof (root_ne_dest rigName c d Ic Id) as Q.
    rewrite E, String.eqb_refl in Q. discriminate Q. }
  destruct Hx as [-> | ->].
  - rewrite (asset_step_other _ _ _ _ _ _ b _ Ib (Nd a b Ia Ib) Dab).
    exact (asset_step_root sha256 beh rigName rigDir hashes acc a Ia).
  - assert (E1 : acc_files (asset_step sha256 beh rigName rigDir hashes acc a) (a_targetFilename b)
                 = acc_files acc (a_targetFilename b))
      by (apply (asset_step_other _ _ _ _ _ _ a _ Ia (Nd b a Ib Ia)); intros E; apply Dab; symmetry; exact E).
    destruct (asset_step_root sha256 beh rigName rigDir hashes
                (asset_step sha256 beh rigName rigDir hashes acc a) b Ib) as [R|[R1 R2]].
    + left. rewrite <- E1. exact R.
    + right. unfold root_content in *. rewrite E1 in R1, R2. split; [exact R1 | exact R2].
Qed.

(** X12. After [installBehavioral] for a rig with behavioral assets, each
    root file ([CLAUDE.md], [AGENTS.md]) either holds what it held before,
    or did not contain the rig's pointer tag before and now holds the
    asset's pointer line, a blank line, and its previous content (the empty string
    for a missing file). *)
Theorem installBehavioral_root_files (sha256 : text -> string) rig beh rigDir now w :
  rig_behavioral rig = Some beh ->
  let w' := fst (installBehavioral sha256 rig rigDir now w) in
  forall asset, In asset assets ->
    let f := a_targetFilename asset in
    w_files w' f = w_files w f \/
    (includes (txt (pointer_tag (rig_name rig))) (root_content (w_files w) f) = false /\
     w_files w' f =
       Some (txt (pointer_line (rig_name rig) asset) ++ nl ++ nl ++ root_content (w_files w) f)).
Proof.
  intros Hb w' asset Ha f. subst w' f. unfold installBehavioral. rewrite Hb. cbv zeta.
  cbn [fst w_files].
  assert (I1 : In (nth 0 assets asset) assets) by (left; reflexivity).
  assert (I2 : In (nth 1 assets asset) assets) by (right; left; reflexivity).
  pose proof (root_after_two sha256 beh (rig_name rig) rigDir
                (load_manifest_hashes (w_sidecars w) (manifest_path (rig_name rig)))
                {| acc_files := w_files w; acc_results := []; acc_manifestFiles := [];
                   acc_pointers := []; acc_fileHashes := [] |}
                (nth 0 assets asset) (nth 1 assets asset) I1 I2 ltac:(discriminate)) as P.
  destruct Ha as [<-|[<-|[]]]; [exact (P _ (or_introl eq_refl)) | exact (P _ (or_intror eq_refl))].
Qed.

Lemma installBehavioral_root_files_witness :
  let w' := fst (installBehavioral BehavioralSample.demo_sha BehavioralSample.demo_rig "clone" "t1"
                   BehavioralSample.demo_world) in
  w_files w' "CLAUDE.md" = w_files BehavioralSample.demo_world "CLAUDE.md" \/
  (includes (txt (pointer_tag "demo")) (root_content (w_files BehavioralSample.demo_world) "CLAUDE.md")
     = false /\
   w_files w' "CLAUDE.md" =
     Some (txt (pointer_line "demo" BehavioralSample.demo_asset) ++ nl ++ nl ++
           root_content (w_files BehavioralSample.demo_world) "CLAUDE.md")).
Proof.
  exact (installBehavioral_root_files BehavioralSample.demo_sha BehavioralSample.demo_rig
           BehavioralSample.demo_beh "clone" "t1" BehavioralSample.demo_world eq_refl
           BehavioralSample.demo_asset (or_introl eq_refl)).
Defined.


Lemma split_nl_nonempty (s : text) : exists l ls, split_nl s = l :: ls.
Proof.
  induction s as [|c s IH]; [eexists _, _; reflexivity|]. simpl.
  destruct (is_nl c); [eexists _, _; reflexivity|].
  destruct IH as [l [ls ->]]. eexists _, _. reflexivity.
Qed.

Lemma split_nl_line (p s : text) : ~ In newline p -> split_nl (p ++ nl ++ s) = p :: split_nl s.
Proof.
  induction p as [|c p IH]; intros Hp; [reflexivity|].
  rewrite <- app_comm_cons. cbn [split_nl].
  assert (E : is_nl c = false)
    by (apply Ascii.eqb_neq; intros ->; apply Hp; left; reflexivity).
  rewrite E, IH by (intros I; apply Hp; right; exact I). reflexivity.
Qed.

Lemma join_lines_cons_head (c : ascii) (l : text) (ls : list text) :
  join_lines ((c :: l) :: ls) = c :: join_lines (l :: ls).
Proof. destruct ls; reflexivity. Qed.

(** [content.split("\n").join("\n")] gives [content] back. *)
Lemma join_split (s : text) : join_lines (split_nl s) = s.
Proof.
  induction s as [|c s IH]; [reflexivity|]. cbn [split_nl].
  destruct (is_nl c) eqn:E.
  - apply Ascii.eqb_eq in E. subst c. destruct (split_nl_nonempty s) as [l [ls Hs]].
    rewrite Hs in *. change (join_lines ([] :: l :: ls)) with (nl ++ join_lines (l :: ls)).
    rewrite IH. reflexivity.
  - destruct (split_nl_nonempty s) as [l [ls Hs]]. rewrite Hs in *.
    rewrite join_lines_cons_head, IH. reflexivity.
Qed.

Lemma split_nl_first (s l : text) (ls : list text) : split_nl s = l :: ls -> exists z, s = l ++ z.
Proof.
  revert l ls. induction s as [|c s IH]; intros l ls H.
  - injection H as <- _. exists []. reflexivity.
  - cbn [split_nl] in H. destruct (is_nl c).
    + injection H as <- _. exists (c :: s). reflexivity.
    + destruct (split_nl s) as [|l' ls'] eqn:Hs.
      * injection H as <- _. exists s. reflexivity.
      * injection H as <- _. destruct (IH l' ls' eq_refl) as [z ->]. exists z. reflexivity.
Qed.

(** Every line of [split_nl s] is a piece of [s]. *)
Lemma split_nl_piece (s line : text) : In line (split_nl s) -> exists y z, s = y ++ line ++ z.
Proof.
  induction s as [|c s IH]; intros I.
  - destruct I as [<-|[]]. exists [], []. reflexivity.
  - cbn [split_nl] in I. destruct (is_nl c).
    + destruct I as [<-|I]; [exists [], (c :: s); reflexivity|].
      destruct (IH I) as [y [z ->]]. exists (c :: y), z. reflexivity.
    + destruct (split_nl s) as [|l ls] eqn:Hs.
      * destruct I as [<-|[]]. exists [], []. rewrite app_nil_r.
        destruct s as [|d s]; [reflexivity|]. cbn [split_nl] in Hs.
        destruct (is_nl d); [discriminate|]. destruct (split_nl s); discriminate.
      * destruct I as [<-|I].
        -- destruct (split_nl_first s l ls Hs) as [z ->]. exists [], z. reflexivity.
        -- destruct (IH (or_intror I)) as [y [z ->]]. exists (c :: y), z. reflexivity.
Qed.

Lemma includes_prefix (p u v : text) : includes p u = true -> includes p (u ++ v) = true.
Proof.
  induction u as [|c u IH]; intros H.
  - cbn [includes] in H. rewrite orb_false_r in H. apply includes_here.
    exact (prefixb_app_l p [] v H).
  - rewrite <- app_comm_cons. cbn [includes] in H |- *. apply orb_true_iff in H as [H|H].
    + pose proof (prefixb_app_l p (c :: u) v H) as H'. cbn [app] in H'. rewrite H'. reflexivity.
    + rewrite (IH H). apply orb_true_r.
Qed.

Lemma filter_keep_all {A} (f : A -> bool) (l : list A) :
  (forall x, In x l -> f x = true) -> filter f l = l.
Proof.
  induction l as [|a l IH]; intros H; [reflexivity|]. simpl.
  rewrite (H a (or_introl eq_refl)), IH; [reflexivity|]. intros x I. apply H. right. exact I.
Qed.

Lemma pointer_line_no_newline (rigName : string) (asset : Asset) :
  valid_rig_name rigName = true -> In asset assets ->
  ~ In newline (txt (pointer_line rigName asset)).
Proof.
  intros V Ha. unfold valid_rig_name in V. apply andb_prop in V as [_ K].
  assert (T : ~ In newline (txt rigName)) by (apply (not_in_kebab _ _ K); reflexivity).
  unfold pointer_line, pointer_tag, dest_path, rigs_dir, path_join.
  destruct Ha as [<-|[<-|[]]]; cbn [a_pointerVerb a_targetFilename]; rewrite !txt_app;
    intros I; repeat (apply in_app_iff in I; destruct I as [I|I]);
    first [exact (T I) | revert I; apply not_in_by_eqb; reflexivity].
Qed.

(** X13. For a rig name allowed by the schema, removing the rig's pointer
    from a root file that holds the pointer line written by
    [installBehavioral], a blank line, and a content [old] without the
    pointer tag gives [old] back, without its leading newlines. *)
Theorem remove_pointer_after_install (rigName : string) (asset : Asset) (old : text) :
  valid_rig_name rigName = true -> In asset assets ->
  includes (txt (pointer_tag rigName)) old = false ->
  remove_pointer (Some (txt (pointer_line rigName asset) ++ nl ++ nl ++ old)) (pointer_tag rigName) =
  Some (drop_nl old).
Proof.
  intros V Ha Ho. unfold remove_pointer.
  assert (Tl : includes (txt (pointer_tag rigName)) (txt (pointer_line rigName asset)) = true).
  { apply includes_here. unfold pointer_line. rewrite txt_app. apply prefixb_self. }
  rewrite (includes_prefix _ _ _ Tl).
  rewrite split_nl_line by exact (pointer_line_no_newline rigName asset V Ha).
  change (split_nl (nl ++ old)) with (split_nl ([] ++ nl ++ old)).
  rewrite split_nl_line by (intros []).
  cbn [filter]. rewrite Tl. cbn [negb].
  change (includes (txt (pointer_tag rigName)) []) with false. cbn [negb].
  rewrite filter_keep_all.
  - destruct (split_nl_nonempty old) as [l [ls Hs]].
    change (join_lines ([] :: split_nl old)) with (join_lines ([] :: split_nl old)).
    rewrite Hs. change (join_lines ([] :: l :: ls)) with (newline :: join_lines (l :: ls)).
    rewrite <- Hs, join_split. reflexivity.
  - intros line I. apply negb_true_iff. destruct (includes _ line) eqn:E; [|reflexivity].
    destruct (split_nl_piece old line I) as [y [z ->]].
    rewrite (includes_suffix _ y _ (includes_prefix _ _ z E)) in Ho. discriminate Ho.
Qed.

Lemma remove_pointer_after_install_witness :
  remove_pointer
    (Some (txt (pointer_line "demo" BehavioralSample.demo_asset) ++ nl ++ nl ++ txt "notes"))
    (pointer_tag "demo") = Some (txt "notes").
Proof.
  exact (remove_pointer_after_install "demo" BehavioralSample.demo_asset (txt "notes")
           eq_refl (or_introl eq_refl) eq_refl).
Defined.

End BehavioralMore.
